(** * Tiny roguelike (game.cpp): shallow embedding and verified properties

    The development follows the source file top-down: the 20x10 tile grid,
    the map helpers, the single-step BFS pathfinder [bfs_next_step], the
    dungeon generator [generate_map_basic], entity placement
    [regenerate_map] and one iteration of the main loop (player action,
    planning, resolution of the enemies' moves, re-scan, cap).

    Conventions.
    - C++ [int] values are modelled as [Z].  Signed overflow is undefined
      behaviour in C++; every quantity of the game (coordinates below 20,
      hit points, a score that grows by 10 per kill) stays far from the
      limits of a 32-bit [int], so no wrap-around is written out.
    - [std::array<std::array<T, MAP_W>, MAP_H>] is a list of rows
      ([Arr2]).  The source indexes it as [a[y][x]].
    - The global [std::mt19937] together with [uniform_int_distribution]
      is an explicit stream of raw draws threaded through every function
      that calls [rnd].
    - Loops whose trip count is not syntactically bounded run on fuel and
      return [None] when it runs out.  The two loops of [bfs_next_step]
      get the fixed [BFS_FUEL], proved to be enough
      ([bfs_next_step_result]); the retry loops of generation and placement
      ([i--; continue;]) get a fuel argument, because they need not
      terminate ([generate_map_basic_may_diverge]).
    - Output ([render], the messages on [cout]) is not modelled. *)

From Stdlib Require Import ZArith Ascii String List Bool Lia.
Import ListNotations.

Local Open Scope Z_scope.

(** ** Constants and coordinates *)

Definition MAP_W : Z := 20.
Definition MAP_H : Z := 10.

(** A cell is a [pair<int,int>] holding [(x, y)]. *)
Definition Cell : Type := (Z * Z)%type.

Definition cell_eqb (a b : Cell) : bool :=
  (fst a =? fst b) && (snd a =? snd b).

Definition in_bounds (x y : Z) : Prop :=
  0 <= x < MAP_W /\ 0 <= y < MAP_H.

(** The guard [x<0||x>=MAP_W||y<0||y>=MAP_H] of the source. *)
Definition oob (x y : Z) : bool :=
  (x <? 0) || (x >=? MAP_W) || (y <? 0) || (y >=? MAP_H).

(** Store through an index, [l[n] = f (l[n])]; out of range (undefined in
    C++) the model leaves the list unchanged. *)
Fixpoint list_upd {B : Type} (n : nat) (f : B -> B) (l : list B) : list B :=
  match l with
  | [] => []
  | h :: tl =>
      match n with
      | O => f h :: tl
      | S n' => h :: list_upd n' f tl
      end
  end.

(** ** Two-dimensional arrays *)

Module Arr2.
Section Defs.
Context {A : Type}.

Definition t : Type := list (list A).

Definition make (v : A) : t :=
  repeat (repeat v (Z.to_nat MAP_W)) (Z.to_nat MAP_H).

(** [a[y][x]].  Reading outside the array is undefined in C++; the
    model returns the default [d] there. *)
Definition get (d : A) (a : t) (x y : Z) : A :=
  if (x <? 0) || (y <? 0) then d
  else nth (Z.to_nat x) (nth (Z.to_nat y) a []) d.

(** [a[y][x] = v].  Writing outside the array is undefined in C++; the
    model leaves the array unchanged there. *)
Definition set (a : t) (x y : Z) (v : A) : t :=
  if (x <? 0) || (y <? 0) then a
  else list_upd (Z.to_nat y) (list_upd (Z.to_nat x) (fun _ => v)) a.

Definition wf (a : t) : Prop :=
  length a = Z.to_nat MAP_H /\
  Forall (fun r => length r = Z.to_nat MAP_W) a.
End Defs.
Arguments t : clear implicits.
End Arr2.

(** ** Data model *)

Definition WALL : ascii := "#"%char.
Definition FLOOR : ascii := "."%char.

Definition Grid : Type := Arr2.t ascii.

Definition tile (map : Grid) (x y : Z) : ascii := Arr2.get WALL map x y.

Definition is_floor (map : Grid) (x y : Z) : bool :=
  Ascii.eqb (tile map x y) FLOOR.

Record Rect : Type := mkRect { r_x : Z; r_y : Z; r_w : Z; r_h : Z }.

Definition centerX (r : Rect) : Z := r_x r + Z.quot (r_w r) 2.
Definition centerY (r : Rect) : Z := r_y r + Z.quot (r_h r) 2.

Definition intersects (r o : Rect) : bool :=
  negb ((r_x r + r_w r <=? r_x o) || (r_x o + r_w o <=? r_x r) ||
        (r_y r + r_h r <=? r_y o) || (r_y o + r_h o <=? r_y r)).

Record Enemy : Type :=
  mkEnemy { e_x : Z; e_y : Z; e_hp : Z; e_alive : bool }.

Record Item : Type := mkItem { it_x : Z; it_y : Z }.

Definition e_pos (e : Enemy) : Cell := (e_x e, e_y e).
Definition it_pos (i : Item) : Cell := (it_x i, it_y i).

(** ** RNG *)

(** The stream of raw draws of the generator.  [rnd a b] consumes the next
    draw and reduces it into [a..b]. *)
Definition RNG : Type := nat -> Z.

Definition rng_tail (g : RNG) : RNG := fun n => g (S n).

Definition rnd (a b : Z) (g : RNG) : Z * RNG :=
  (a + (g O) mod (b - a + 1), rng_tail g).

Definition rng_of_list (l : list Z) : RNG := fun n => nth n l 0.

(** ** Difficulty configuration *)

Inductive Difficulty : Type := EASY | NORMAL | HARD.

Record DiffConfig : Type := mkDiffConfig {
  enemyMin : Z; enemyMax : Z;
  enemyHpMin : Z; enemyHpMax : Z;
  enemyAtkMin : Z; enemyAtkMax : Z;
  potionMin : Z; potionMax : Z
}.

(** The table filled in at the top of [main]. *)
Definition diffConfigs (d : Difficulty) : DiffConfig :=
  match d with
  | EASY => mkDiffConfig 2 4 3 5 1 2 5 7
  | NORMAL => mkDiffConfig 3 6 4 8 2 3 3 5
  | HARD => mkDiffConfig 5 8 6 12 3 5 1 3
  end.

(** ** Map helpers *)

(** [a, a+1, ..., a+n-1]: the values of a counting [for] loop. *)
Fixpoint zrange (a : Z) (n : nat) : list Z :=
  match n with
  | O => []
  | S n' => a :: zrange (a + 1) n'
  end.

(** Values of [for (v = lo; v < hi; ++v)]. *)
Definition zfor (lo hi : Z) : list Z := zrange lo (Z.to_nat (hi - lo)).

(** All cells in the order of the nested scan
    [for y in 0..MAP_H) for x in 0..MAP_W)]. *)
Definition all_cells : list Cell :=
  flat_map (fun y => List.map (fun x => (x, y)) (zfor 0 MAP_W)) (zfor 0 MAP_H).

Definition create_empty_map : Grid := Arr2.make WALL.

(** The guarded store [if (in range) map[y][x] = '.'] shared by the
    carving helpers. *)
Definition carve_cell (map : Grid) (x y : Z) : Grid :=
  if (x >=? 0) && (x <? MAP_W) && (y >=? 0) && (y <? MAP_H)
  then Arr2.set map x y FLOOR else map.

Definition carve_room (map : Grid) (r : Rect) : Grid :=
  fold_left
    (fun m yy =>
       fold_left (fun m' xx => carve_cell m' xx yy)
                 (zfor (r_x r) (r_x r + r_w r)) m)
    (zfor (r_y r) (r_y r + r_h r)) map.

Definition carve_h (map : Grid) (x1 x2 y : Z) : Grid :=
  let (x1, x2) := if x2 <? x1 then (x2, x1) else (x1, x2) in
  fold_left (fun m x => carve_cell m x y) (zfor x1 (x2 + 1)) map.

Definition carve_v (map : Grid) (y1 y2 x : Z) : Grid :=
  let (y1, y2) := if y2 <? y1 then (y2, y1) else (y1, y2) in
  fold_left (fun m y => carve_cell m x y) (zfor y1 (y2 + 1)) map.

Definition floor_tiles (map : Grid) : list Cell :=
  filter (fun c => is_floor map (fst c) (snd c)) all_cells.

Definition random_floor_tile (map : Grid) (g : RNG) : Cell * RNG :=
  let floors := floor_tiles map in
  match floors with
  | [] => ((1, 1), g)
  | _ =>
      let (k, g') := rnd 0 (Z.of_nat (length floors) - 1) g in
      (nth (Z.to_nat k) floors (0, 0), g')
  end.

(** ** Pathfinding: [bfs_next_step] *)

Section Bfs.
Variable map : Grid.
Variables sx sy tx ty : Z.
Variable occupied : list Cell.

(** The lambda [blocked] of the source. *)
Definition blocked (x y : Z) : bool :=
  if oob x y then true
  else if negb (Ascii.eqb (tile map x y) FLOOR) then true
  else existsb
         (fun p => (fst p =? x) && (snd p =? y) &&
                   negb ((x =? tx) && (y =? ty)))
         occupied.

Definition dirs : list Cell := [(1, 0); (-1, 0); (0, 1); (0, -1)].

(** The local state of the search: [vis], [parent] and the queue. *)
Record Search : Type := mkSearch {
  s_vis : Arr2.t bool;
  s_parent : Arr2.t Cell;
  s_queue : list Cell
}.

(** Body of [for (auto &d : dirs)] for one direction. *)
Definition visit_dir (cur : Cell) (s : Search) (d : Cell) : Search :=
  let nx := fst cur + fst d in
  let ny := snd cur + snd d in
  if oob nx ny then s
  else if Arr2.get false (s_vis s) nx ny then s
  else if blocked nx ny then s
  else mkSearch (Arr2.set (s_vis s) nx ny true)
                (Arr2.set (s_parent s) nx ny cur)
                (s_queue s ++ [(nx, ny)]).

(** [while (!q.empty())]: the result is the flag [found] and the final
    [parent] array. *)
Fixpoint bfs_loop (fuel : nat) (s : Search) : option (bool * Arr2.t Cell) :=
  match fuel with
  | O => None
  | S fuel' =>
      match s_queue s with
      | [] => Some (false, s_parent s)
      | cur :: q' =>
          if (fst cur =? tx) && (snd cur =? ty)
          then Some (true, s_parent s)
          else bfs_loop fuel'
                 (fold_left (visit_dir cur) dirs
                    (mkSearch (s_vis s) (s_parent s) q'))
      end
  end.

(** The greedy fallback taken when the search did not reach the target. *)
Definition greedy_step : Cell :=
  let dx := if tx >? sx then 1 else if tx <? sx then -1 else 0 in
  let dy := if ty >? sy then 1 else if ty <? sy then -1 else 0 in
  if Z.abs (tx - sx) >=? Z.abs (ty - sy) then
    if negb (blocked (sx + dx) sy) then (sx + dx, sy)
    else if negb (blocked sx (sy + dy)) then (sx, sy + dy)
    else (sx, sy)
  else
    if negb (blocked sx (sy + dy)) then (sx, sy + dy)
    else if negb (blocked (sx + dx) sy) then (sx + dx, sy)
    else (sx, sy).

(** The backtracking loop
    [while (!(prev == start)) { cur = prev; prev = parent[cur]; }]. *)
Fixpoint backtrack (fuel : nat) (parent : Arr2.t Cell) (cur prev : Cell)
  : option Cell :=
  match fuel with
  | O => None
  | S fuel' =>
      if (fst prev =? sx) && (snd prev =? sy) then Some cur
      else backtrack fuel' parent prev
             (Arr2.get (0, 0) parent (fst prev) (snd prev))
  end.

(** Every cell enters the queue at most once, so [MAP_W * MAP_H + 1]
    iterations are enough for either loop (proved below). *)
Definition BFS_FUEL : nat := Z.to_nat (MAP_W * MAP_H + 1).

Definition bfs_next_step : option Cell :=
  if (sx =? tx) && (sy =? ty) then Some (sx, sy)
  else
    let init := mkSearch (Arr2.set (Arr2.make false) sx sy true)
                         (Arr2.make (0, 0))
                         [(sx, sy)] in
    match bfs_loop BFS_FUEL init with
    | None => None
    | Some (false, _) => Some greedy_step
    | Some (true, parent) =>
        backtrack BFS_FUEL parent (tx, ty) (Arr2.get (0, 0) parent tx ty)
    end.
End Bfs.

(** ** Dungeon generator: [generate_map_basic] *)

(** The corridor between the previous room's centre and the new one. *)
Definition connect (map : Grid) (prev r : Rect) (g : RNG) : Grid * RNG :=
  let px := centerX prev in
  let py := centerY prev in
  let cx := centerX r in
  let cy := centerY r in
  let (coin, g') := rnd 0 1 g in
  if coin =? 0
  then (carve_v (carve_h map px cx py) py cy cx, g')
  else (carve_h (carve_v map py cy px) px cx cy, g').

(** [for (int i = 0; i < roomCount; i++)] with its retry [i--; continue;]:
    a rejected candidate leaves [i] where it was. *)
Fixpoint rooms_loop (fuel : nat) (i roomCount : Z) (map : Grid)
  (rooms : list Rect) (g : RNG) : option (Grid * list Rect * RNG) :=
  match fuel with
  | O => None
  | S fuel' =>
      if i <? roomCount then
        let (w, g1) := rnd 3 8 g in
        let (h, g2) := rnd 3 5 g1 in
        let (x, g3) := rnd 1 (MAP_W - w - 1) g2 in
        let (y, g4) := rnd 1 (MAP_H - h - 1) g3 in
        let r := mkRect x y w h in
        if existsb (intersects r) rooms
        then rooms_loop fuel' (i - 1 + 1) roomCount map rooms g4
        else
          let map1 := carve_room map r in
          let (map2, g5) :=
            match rooms with
            | [] => (map1, g4)
            | _ => connect map1 (last rooms r) r g4
            end in
          rooms_loop fuel' (i + 1) roomCount map2 (rooms ++ [r]) g5
      else Some (map, rooms, g)
  end.

(** [for y in 1..MAP_H-1) for x in 1..MAP_W-1) map[y][x] = '.']. *)
Definition carve_interior (map : Grid) : Grid :=
  fold_left
    (fun m y => fold_left (fun m' x => Arr2.set m' x y FLOOR)
                          (zfor 1 (MAP_W - 1)) m)
    (zfor 1 (MAP_H - 1)) map.

Definition any_floor (map : Grid) : bool :=
  existsb (fun c => is_floor map (fst c) (snd c)) all_cells.

Definition generate_map_basic (fuel : nat) (g : RNG)
  : option (Grid * list Rect * RNG) :=
  let maxRooms := 6 in
  let (roomCount, g1) := rnd 3 maxRooms g in
  match rooms_loop fuel 0 roomCount create_empty_map [] g1 with
  | None => None
  | Some (map, rooms, g2) =>
      Some (if any_floor map then map else carve_interior map, rooms, g2)
  end.

(** ** Entity placement: [regenerate_map] *)

Definition enemy_at (x y : Z) (e : Enemy) : bool :=
  (e_x e =? x) && (e_y e =? y).

Definition item_at (x y : Z) (it : Item) : bool :=
  (it_x it =? x) && (it_y it =? y).

Fixpoint enemies_loop (fuel : nat) (i ecount : Z) (map : Grid) (px py : Z)
  (cfg : DiffConfig) (enemies : list Enemy) (g : RNG)
  : option (list Enemy * RNG) :=
  match fuel with
  | O => None
  | S fuel' =>
      if i <? ecount then
        let (p, g1) := random_floor_tile map g in
        if (fst p =? px) && (snd p =? py)
        then enemies_loop fuel' (i - 1 + 1) ecount map px py cfg enemies g1
        else if existsb (enemy_at (fst p) (snd p)) enemies
        then enemies_loop fuel' (i - 1 + 1) ecount map px py cfg enemies g1
        else
          let (hp, g2) := rnd (enemyHpMin cfg) (enemyHpMax cfg) g1 in
          enemies_loop fuel' (i + 1) ecount map px py cfg
            (enemies ++ [mkEnemy (fst p) (snd p) hp true]) g2
      else Some (enemies, g)
  end.

Fixpoint items_loop (fuel : nat) (i pcount : Z) (map : Grid) (px py : Z)
  (enemies : list Enemy) (items : list Item) (g : RNG)
  : option (list Item * RNG) :=
  match fuel with
  | O => None
  | S fuel' =>
      if i <? pcount then
        let (p, g1) := random_floor_tile map g in
        if (fst p =? px) && (snd p =? py)
        then items_loop fuel' (i - 1 + 1) pcount map px py enemies items g1
        else if existsb (item_at (fst p) (snd p)) items
                || existsb (enemy_at (fst p) (snd p)) enemies
        then items_loop fuel' (i - 1 + 1) pcount map px py enemies items g1
        else items_loop fuel' (i + 1) pcount map px py enemies
               (items ++ [mkItem (fst p) (snd p)]) g1
      else Some (items, g)
  end.

(** The reference parameters written by [regenerate_map]. *)
Record Placement : Type := mkPlacement {
  p_map : Grid;
  p_rooms : list Rect;
  p_playerX : Z;
  p_playerY : Z;
  p_enemies : list Enemy;
  p_items : list Item;
  p_playerMaxHP : Z;
  p_playerAttack : Z;
  p_enemyAttackDamage : Z;
  p_potionHeal : Z;
  p_score : Z;
  p_rng : RNG
}.

Definition regenerate_map (fuel : nat) (diff : Difficulty) (g : RNG)
  : option Placement :=
  match generate_map_basic fuel g with
  | None => None
  | Some (map, rooms, g1) =>
      let '(playerX, playerY, g2) :=
        match rooms with
        | r0 :: _ => (centerX r0, centerY r0, g1)
        | [] => let (p, g') := random_floor_tile map g1 in (fst p, snd p, g')
        end in
      let cfg := diffConfigs diff in
      let (ecount, g3) := rnd (enemyMin cfg) (enemyMax cfg) g2 in
      match enemies_loop fuel 0 ecount map playerX playerY cfg [] g3 with
      | None => None
      | Some (enemies, g4) =>
          let (pcount, g5) := rnd (potionMin cfg) (potionMax cfg) g4 in
          match items_loop fuel 0 pcount map playerX playerY enemies [] g5 with
          | None => None
          | Some (items, g6) =>
              let (dmg, g7) := rnd (enemyAtkMin cfg) (enemyAtkMax cfg) g6 in
              Some (mkPlacement map rooms playerX playerY enemies items
                                20 4 dmg 0 0 g7)
          end
      end
  end.

(** ** Lookups used by the main loop *)

Fixpoint enemy_index_from (i : Z) (enemies : list Enemy) (x y : Z) : Z :=
  match enemies with
  | [] => -1
  | e :: tl =>
      if e_alive e && (e_x e =? x) && (e_y e =? y) then i
      else enemy_index_from (i + 1) tl x y
  end.

Definition enemy_index_at (enemies : list Enemy) (x y : Z) : Z :=
  enemy_index_from 0 enemies x y.

Fixpoint item_index_from (i : Z) (items : list Item) (x y : Z) : Z :=
  match items with
  | [] => -1
  | it :: tl =>
      if (it_x it =? x) && (it_y it =? y) then i
      else item_index_from (i + 1) tl x y
  end.

Definition item_index_at (items : list Item) (x y : Z) : Z :=
  item_index_from 0 items x y.

(** [items.erase(items.begin() + n)]. *)
Fixpoint erase {B : Type} (n : nat) (l : list B) : list B :=
  match l with
  | [] => []
  | h :: tl =>
      match n with
      | O => tl
      | S n' => h :: erase n' tl
      end
  end.

(** ** The main loop *)

(** The variables of [main] that live across iterations. *)
Record State : Type := mkState {
  st_map : Grid;
  st_enemies : list Enemy;
  st_items : list Item;
  st_playerX : Z;
  st_playerY : Z;
  st_playerHP : Z;
  st_playerMaxHP : Z;
  st_playerAttack : Z;
  st_score : Z;
  st_turns : Z;
  st_highScore : Z;
  st_diff : Difficulty;
  st_rng : RNG
}.

(** *** High score file *)

(** The content of [highscore.txt] as [ifs >> h] sees it: [None] when the
    file cannot be opened, [Some n] when its text starts with the decimal
    number [n], of any size.  A text that does not start with a number makes
    the extraction fail and store 0, so it is read like [Some 0]. *)
Definition HsFile : Type := option Z.

(** The range of [int]. *)
Definition INT_MIN : Z := -2147483648.
Definition INT_MAX : Z := 2147483647.

(** [int h = 0; ifs >> h; return h;]: a number outside the range of [int]
    is read as the nearest bound. *)
Definition load_high_score (f : HsFile) : Z :=
  match f with
  | None => 0
  | Some h => Z.max INT_MIN (Z.min INT_MAX h)
  end.

(** [writable] tells whether the [ofstream] could be opened; when it could
    not, the source prints a warning and the file is left as it was. *)
Definition save_high_score (writable : bool) (f : HsFile) (h : Z) : HsFile :=
  if writable then Some h else f.

(** *** Player action (the branch taken for an in-range destination) *)

Definition dummy_enemy : Enemy := mkEnemy 0 0 0 false.

Definition player_action (s : State) (nx ny : Z) : State :=
  if Ascii.eqb (tile (st_map s) nx ny) WALL then
    mkState (st_map s) (st_enemies s) (st_items s)
            (st_playerX s) (st_playerY s)
            (st_playerHP s) (st_playerMaxHP s) (st_playerAttack s)
            (st_score s) (st_turns s + 1) (st_highScore s)
            (st_diff s) (st_rng s)
  else
    let eidx := enemy_index_at (st_enemies s) nx ny in
    if negb (eidx =? -1) then
      let e := nth (Z.to_nat eidx) (st_enemies s) dummy_enemy in
      let hp' := e_hp e - st_playerAttack s in
      if hp' <=? 0 then
        mkState (st_map s)
                (list_upd (Z.to_nat eidx)
                   (fun e => mkEnemy (e_x e) (e_y e) hp' false)
                   (st_enemies s))
                (st_items s)
                nx ny
                (st_playerHP s) (st_playerMaxHP s) (st_playerAttack s)
                (st_score s + 10) (st_turns s + 1) (st_highScore s)
                (st_diff s) (st_rng s)
      else
        mkState (st_map s)
                (list_upd (Z.to_nat eidx)
                   (fun e => mkEnemy (e_x e) (e_y e) hp' (e_alive e))
                   (st_enemies s))
                (st_items s)
                (st_playerX s) (st_playerY s)
                (st_playerHP s) (st_playerMaxHP s) (st_playerAttack s)
                (st_score s) (st_turns s + 1) (st_highScore s)
                (st_diff s) (st_rng s)
    else
      let itidx := item_index_at (st_items s) nx ny in
      if negb (itidx =? -1) then
        let (heal, g') := rnd 6 10 (st_rng s) in
        mkState (st_map s) (st_enemies s)
                (erase (Z.to_nat itidx) (st_items s))
                nx ny
                (Z.min (st_playerMaxHP s) (st_playerHP s + heal))
                (st_playerMaxHP s) (st_playerAttack s)
                (st_score s) (st_turns s + 1) (st_highScore s)
                (st_diff s) g'
      else
        mkState (st_map s) (st_enemies s) (st_items s)
                nx ny
                (st_playerHP s) (st_playerMaxHP s) (st_playerAttack s)
                (st_score s) (st_turns s + 1) (st_highScore s)
                (st_diff s) (st_rng s).

(** *** Enemy turn: planning *)

(** The vector [occupied] that the source fills before planning is never
    read; each search gets its own vector [occ]. *)

(** The vector [occ] built for enemy [i]: the cells of the other live
    enemies, in array order. *)
Definition others (enemies : list Enemy) (i : nat) : list Cell :=
  List.map e_pos (filter e_alive (firstn i enemies ++ skipn (S i) enemies)).

(** [nextPos[i]] for [i] from the index of the head of [rest] on. *)
Fixpoint plan_from (map : Grid) (px py : Z) (enemies : list Enemy)
  (i : nat) (rest : list Enemy) : option (list Cell) :=
  match rest with
  | [] => Some []
  | e :: tl =>
      let step :=
        if negb (e_alive e) then Some (-1, -1)
        else bfs_next_step map (e_x e) (e_y e) px py (others enemies i) in
      match step with
      | None => None
      | Some c =>
          match plan_from map px py enemies (S i) tl with
          | None => None
          | Some l => Some (c :: l)
          end
      end
  end.

Definition plan_moves (map : Grid) (px py : Z) (enemies : list Enemy)
  : option (list Cell) :=
  plan_from map px py enemies O enemies.

(** *** Enemy turn: resolution *)

(** What the resolution loop carries from one enemy to the next: the set
    [reserved], the player's hit points and the generator. *)
Record Resolve : Type := mkResolve {
  rs_reserved : list Cell;
  rs_hp : Z;
  rs_rng : RNG
}.

Definition reserved_count (reserved : list Cell) (c : Cell) : bool :=
  existsb (cell_eqb c) reserved.

(** Body of the resolution loop for a live enemy [e]. *)
Definition resolve_one (map : Grid) (cfg : DiffConfig) (px py : Z)
  (e : Enemy) (intended : Cell) (r : Resolve) : Enemy * Resolve :=
  if (fst intended =? px) && (snd intended =? py) then
    let (edmg, g') := rnd (enemyAtkMin cfg) (enemyAtkMax cfg) (rs_rng r) in
    (e, mkResolve (e_pos e :: rs_reserved r) (rs_hp r - edmg) g')
  else
    let blocked :=
      if fst intended <? 0 then true
      else negb (Ascii.eqb (tile map (fst intended) (snd intended)) FLOOR)
           || reserved_count (rs_reserved r) intended in
    if blocked then
      (e, mkResolve (e_pos e :: rs_reserved r) (rs_hp r) (rs_rng r))
    else
      (mkEnemy (fst intended) (snd intended) (e_hp e) (e_alive e),
       mkResolve (intended :: rs_reserved r) (rs_hp r) (rs_rng r)).

(** The loop [for (i = 0; i < enemies.size(); ++i)] over the enemies and
    their entries of [nextPos]. *)
Fixpoint resolve_moves (map : Grid) (cfg : DiffConfig) (px py : Z)
  (enemies : list Enemy) (nextPos : list Cell) (r : Resolve)
  : list Enemy * Resolve :=
  match enemies, nextPos with
  | e :: es, intended :: np =>
      if negb (e_alive e) then
        let (es', r') := resolve_moves map cfg px py es np r in
        (e :: es', r')
      else
        let (e', r1) := resolve_one map cfg px py e intended r in
        let (es', r') := resolve_moves map cfg px py es np r1 in
        (e' :: es', r')
  | _, _ => (enemies, r)
  end.

(** *** Enemy turn: the scan after resolution *)

Fixpoint rescan (cfg : DiffConfig) (px py : Z) (enemies : list Enemy)
  (hp : Z) (g : RNG) : Z * RNG :=
  match enemies with
  | [] => (hp, g)
  | e :: es =>
      if negb (e_alive e) then rescan cfg px py es hp g
      else if (e_x e =? px) && (e_y e =? py) then
        let (edmg, g') := rnd (enemyAtkMin cfg) (enemyAtkMax cfg) g in
        rescan cfg px py es (hp - edmg) g'
      else rescan cfg px py es hp g
  end.

Definition enemy_turn (s : State) : option State :=
  match plan_moves (st_map s) (st_playerX s) (st_playerY s) (st_enemies s) with
  | None => None
  | Some nextPos =>
      let cfg := diffConfigs (st_diff s) in
      let (enemies', r) :=
        resolve_moves (st_map s) cfg (st_playerX s) (st_playerY s)
          (st_enemies s) nextPos
          (mkResolve [] (st_playerHP s) (st_rng s)) in
      let (hp2, g2) :=
        rescan cfg (st_playerX s) (st_playerY s) enemies'
               (rs_hp r) (rs_rng r) in
      Some (mkState (st_map s) enemies' (st_items s)
                    (st_playerX s) (st_playerY s)
                    (if hp2 >? 999 then 999 else hp2)
                    (st_playerMaxHP s) (st_playerAttack s)
                    (st_score s) (st_turns s) (st_highScore s)
                    (st_diff s) g2)
  end.

(** *** One iteration of [while (true)] *)

Inductive Outcome : Type :=
| Continue (s : State) (f : HsFile)
| Exit (s : State) (f : HsFile).

Definition is_key (ch lower upper : ascii) : bool :=
  Ascii.eqb ch lower || Ascii.eqb ch upper.

(** [inp] is the result of [cin >> ch]: [None] when the read fails.  The
    result is [None] only if a search ran out of fuel. *)
Definition loop_body (writable : bool) (s : State) (f : HsFile)
  (inp : option ascii) : option Outcome :=
  if st_playerHP s <=? 0 then
    Some (Exit s (if st_score s >? st_highScore s
                  then save_high_score writable f (st_score s) else f))
  else
    match inp with
    | None => Some (Exit s f)
    | Some ch =>
        if is_key ch "q" "Q" then
          Some (Exit s (if st_score s >? st_highScore s
                        then save_high_score writable f (st_score s) else f))
        else
          let target :=
            if is_key ch "w" "W" then Some (st_playerX s, st_playerY s - 1)
            else if is_key ch "s" "S" then Some (st_playerX s, st_playerY s + 1)
            else if is_key ch "a" "A" then Some (st_playerX s - 1, st_playerY s)
            else if is_key ch "d" "D" then Some (st_playerX s + 1, st_playerY s)
            else None in
          match target with
          | None => Some (Continue s f)
          | Some (nx, ny) =>
              if oob nx ny then Some (Continue s f)
              else
                match enemy_turn (player_action s nx ny) with
                | None => None
                | Some s' => Some (Continue s' f)
                end
          end
    end.

(** The destination a key asks for, [nx, ny] after the chain of tests on
    [ch]: [None] for a key that is none of w, s, a, d in either case. *)
Definition key_target (s : State) (ch : ascii) : option Cell :=
  if is_key ch "w" "W" then Some (st_playerX s, st_playerY s - 1)
  else if is_key ch "s" "S" then Some (st_playerX s, st_playerY s + 1)
  else if is_key ch "a" "A" then Some (st_playerX s - 1, st_playerY s)
  else if is_key ch "d" "D" then Some (st_playerX s + 1, st_playerY s)
  else None.

(** The state [main] enters the loop with. *)
Definition initial_state (fuel : nat) (diff : Difficulty) (g : RNG)
  (f : HsFile) : option State :=
  match regenerate_map fuel diff g with
  | None => None
  | Some p =>
      Some (mkState (p_map p) (p_enemies p) (p_items p)
                    (p_playerX p) (p_playerY p)
                    (p_playerMaxHP p) (p_playerMaxHP p) (p_playerAttack p)
                    (p_score p) 0 (load_high_score f) diff (p_rng p))
  end.

(** *** The loop over the input *)

(** [while (true)] over the characters that [cin >> ch] delivers; once
    they are used up every read fails. *)
Fixpoint main_loop (writable : bool) (s : State) (f : HsFile)
  (input : list ascii) : option (State * HsFile) :=
  match input with
  | [] =>
      match loop_body writable s f None with
      | Some (Exit s' f') => Some (s', f')
      | _ => None
      end
  | ch :: rest =>
      match loop_body writable s f (Some ch) with
      | Some (Exit s' f') => Some (s', f')
      | Some (Continue s' f') => main_loop writable s' f' rest
      | None => None
      end
  end.

(** The choice of the difficulty from the number read at start-up. *)
Definition choose_difficulty (dchoice : Z) : Difficulty :=
  if dchoice =? 1 then EASY else if dchoice =? 3 then HARD else NORMAL.

(** [main] after the difficulty has been read: placement, then the loop. *)
Definition run (fuel : nat) (dchoice : Z) (g : RNG) (writable : bool)
  (f : HsFile) (input : list ascii) : option (State * HsFile) :=
  match initial_state fuel (choose_difficulty dchoice) g f with
  | None => None
  | Some s => main_loop writable s f input
  end.

(** *** [render]: the grid that is printed *)

(** The local [draw] of [render]: the map with the potions, then the live
    enemies, then the player written over it. *)
Definition render_grid (map : Grid) (enemies : list Enemy) (items : list Item)
  (px py : Z) : Grid :=
  let draw1 :=
    fold_left
      (fun d it => if (it_x it >=? 0) && (it_y it >=? 0)
                   then Arr2.set d (it_x it) (it_y it) "!"%char else d)
      items map in
  let draw2 :=
    fold_left
      (fun d e => if e_alive e
                  then Arr2.set d (e_x e) (e_y e) "E"%char else d)
      enemies draw1 in
  if (px >=? 0) && (py >=? 0) then Arr2.set draw2 px py "@"%char else draw2.


(** * Specification vocabulary *)

(** ** The visited array *)

Definition visited (vis : Arr2.t bool) (c : Cell) : Prop :=
  Arr2.get false vis (fst c) (snd c) = true.

Definition unvisited (vis : Arr2.t bool) : nat :=
  length (filter (fun c => negb (Arr2.get false vis (fst c) (snd c))) all_cells).

(** ** The graph searched by [bfs_next_step] *)

Section GraphSpec.
Variable map : Grid.
Variables tx ty : Z.
Variable occupied : list Cell.

(** A cell the search may enter: in range, Floor, and not in [occupied]
    unless it is the target. *)
Definition free (c : Cell) : Prop :=
  in_bounds (fst c) (snd c) /\
  tile map (fst c) (snd c) = FLOOR /\
  (c = (tx, ty) \/ ~ In c occupied).

Definition move (c d : Cell) : Cell := (fst c + fst d, snd c + snd d).

(** One move of the search: to a free 4-neighbour. *)
Definition step (a b : Cell) : Prop :=
  (exists d, In d dirs /\ b = move a d) /\ free b.

(** [walk a n b]: a path of [n] moves from [a] to [b].  Only the cells
    entered have to be free, the first cell is not examined. *)
Inductive walk (a : Cell) : nat -> Cell -> Prop :=
| walk_refl : walk a O a
| walk_snoc : forall n b c, walk a n b -> step b c -> walk a (S n) c.

Section SearchSpec.
Variables sx sy : Z.

Definition parent_of (par : Arr2.t Cell) (c : Cell) : Cell :=
  Arr2.get (0, 0) par (fst c) (snd c).

(** The cells waiting in the queue are on at most two consecutive levels,
    the lower one first. *)
Definition levelled (lv : Cell -> nat) (pend : list Cell) : Prop :=
  match pend with
  | [] => True
  | h :: _ =>
      exists A B, pend = A ++ B /\
        Forall (fun c => lv c = lv h) A /\
        Forall (fun c => lv c = S (lv h)) B
  end.

(** Invariant of the search.  [lv] is the BFS level of the visited cells
    and [pend] the visited cells not yet expanded. *)
Record Inv (lv : Cell -> nat) (vis : Arr2.t bool) (par : Arr2.t Cell)
  (pend : list Cell) : Prop := mkInv {
  i_wfv : Arr2.wf vis;
  i_wfp : Arr2.wf par;
  i_start : visited vis (sx, sy);
  i_walk : forall c, visited vis c -> walk (sx, sy) (lv c) c;
  i_min : forall c n, visited vis c -> walk (sx, sy) n c -> (lv c <= n)%nat;
  i_par : forall c, visited vis c -> c <> (sx, sy) ->
          visited vis (parent_of par c) /\
          lv c = S (lv (parent_of par c)) /\
          step (parent_of par c) c;
  i_pend : Forall (visited vis) pend;
  i_lev : levelled lv pend;
  i_closed : forall c c', visited vis c -> ~ In c pend -> step c c' ->
             visited vis c';
  i_target : visited vis (tx, ty) -> In (tx, ty) pend;
  i_bound : forall c, visited vis c ->
            (lv c + unvisited vis < Z.to_nat (MAP_W * MAP_H))%nat
}.

(** The directions [D] of [cur] have been handled. *)
Definition expanded (vis : Arr2.t bool) (cur : Cell) (D : list Cell) : Prop :=
  forall d, In d D -> free (move cur d) -> visited vis (move cur d).

End SearchSpec.
End GraphSpec.

Definition manhattan (a b : Cell) : Z :=
  Z.abs (fst a - fst b) + Z.abs (snd a - snd b).

(** [free] as a test. *)
Definition freeb (map : Grid) (tx ty : Z) (occupied : list Cell) (c : Cell)
  : bool :=
  negb (oob (fst c) (snd c)) && is_floor map (fst c) (snd c)
  && (cell_eqb c (tx, ty) || negb (existsb (cell_eqb c) occupied)).

(** The greedy fallback as the specification words it: step one cell
    along the axis with the larger distance first (ties favour the
    horizontal axis), then along the other axis, only onto a free cell;
    otherwise stay. *)
Definition greedy_spec (map : Grid) (sx sy tx ty : Z) (occupied : list Cell)
  : Cell :=
  let horizontal := (sx + Z.sgn (tx - sx), sy) in
  let vertical := (sx, sy + Z.sgn (ty - sy)) in
  let (first, second) :=
    if Z.abs (ty - sy) <=? Z.abs (tx - sx)
    then (horizontal, vertical) else (vertical, horizontal) in
  if freeb map tx ty occupied first then first
  else if freeb map tx ty occupied second then second
  else (sx, sy).

(** ** Generation and placement *)

(** [grows m m']: [m'] is a well-formed grid that keeps every Floor cell
    of [m]. *)
Definition grows (m m' : Grid) : Prop :=
  Arr2.wf m' /\ forall x y, tile m x y = FLOOR -> tile m' x y = FLOOR.

Definition has_floor (map : Grid) : Prop :=
  exists x y, in_bounds x y /\ tile map x y = FLOOR.

Definition floor_cell (map : Grid) (c : Cell) : Prop :=
  in_bounds (fst c) (snd c) /\ tile map (fst c) (snd c) = FLOOR.

Definition rooms_ok (map : Grid) (rooms : list Rect) : Prop :=
  Arr2.wf map /\
  Forall (fun r => floor_cell map (centerX r, centerY r)) rooms.

(** Invariant of the enemy placement loop. *)
Definition enemies_placed (map : Grid) (px py : Z) (es : list Enemy) : Prop :=
  Forall (fun e => e_alive e = true) es /\
  NoDup (List.map e_pos es) /\
  Forall (fun c => floor_cell map c /\ c <> (px, py)) (List.map e_pos es).

(** Invariant of the potion placement loop. *)
Definition items_placed (map : Grid) (px py : Z) (es : list Enemy)
  (its : list Item) : Prop :=
  NoDup (List.map it_pos its) /\
  Forall (fun c => floor_cell map c /\ c <> (px, py) /\
                   ~ In c (List.map e_pos es))
         (List.map it_pos its).

(** ** Enemies, resolution and reachable states *)

Definition live_cells (es : list Enemy) : list Cell :=
  List.map e_pos (filter e_alive es).

(** The first [n] results of [rnd a b] on the stream [g]. *)
Fixpoint draws (a b : Z) (g : RNG) (n : nat) : list Z :=
  match n with
  | O => []
  | S n' => fst (rnd a b g) :: draws a b (snd (rnd a b g)) n'
  end.

Fixpoint rng_drop (n : nat) (g : RNG) : RNG :=
  match n with
  | O => g
  | S n' => rng_drop n' (rng_tail g)
  end.

Definition zsum (l : list Z) : Z := fold_right Z.add 0 l.

(** Number of live enemies whose intended destination is the player's
    cell. *)
Fixpoint attackers (px py : Z) (es : list Enemy) (np : list Cell) : nat :=
  match es, np with
  | e :: es', c :: np' =>
      ((if e_alive e && cell_eqb c (px, py) then 1 else 0)
       + attackers px py es' np')%nat
  | _, _ => O
  end.

(** The move is legal: onto a Floor cell not yet reserved. *)
Definition legal (map : Grid) (R : list Cell) (c : Cell) : Prop :=
  tile map (fst c) (snd c) = FLOOR /\ ~ In c R.

(** What planning guarantees about the intended cell of each live enemy:
    it is in range and, unless it is the player's cell or the enemy's own
    cell, no live enemy later in the array stands on it. *)
Inductive plan_ok (px py : Z) : list Enemy -> list Cell -> Prop :=
| plan_ok_nil : plan_ok px py [] []
| plan_ok_cons : forall e c es np,
    (e_alive e = true ->
     in_bounds (fst c) (snd c) /\
     (c = (px, py) \/ c = e_pos e \/ ~ In c (live_cells es))) ->
    plan_ok px py es np ->
    plan_ok px py (e :: es) (c :: np).

(** The invariant of the session: the player is in range, the live
    enemies stand on pairwise distinct cells, in range, and none of them on
    the player's cell. *)
Definition safe (s : State) : Prop :=
  in_bounds (st_playerX s) (st_playerY s) /\
  NoDup (live_cells (st_enemies s)) /\
  ~ In (st_playerX s, st_playerY s) (live_cells (st_enemies s)) /\
  Forall (fun c => in_bounds (fst c) (snd c)) (live_cells (st_enemies s)).

(** Live enemies and potions lie on Floor cells. *)
Definition on_floor (s : State) : Prop :=
  Forall (floor_cell (st_map s)) (live_cells (st_enemies s)) /\
  Forall (floor_cell (st_map s)) (List.map it_pos (st_items s)).

(** States of a run: the state [main] enters its loop with, then any
    player action towards a cell in range and any enemy turn.  Every state
    the loop itself passes through is of this kind ([loop_body_reachable]
    below), between the two halves of a turn as well as at the loop head. *)
Inductive reachable : State -> Prop :=
| reach_init : forall fuel diff g f s,
    initial_state fuel diff g f = Some s -> reachable s
| reach_player : forall s nx ny,
    reachable s -> oob nx ny = false -> reachable (player_action s nx ny)
| reach_enemy : forall s s',
    reachable s -> enemy_turn s = Some s' -> reachable s'.

(** ** Rectangles and carving *)

(** The cells of a rectangle. *)
Definition in_rect (r : Rect) (x y : Z) : Prop :=
  r_x r <= x < r_x r + r_w r /\ r_y r <= y < r_y r + r_h r.

(** What the generator's draws make of a room: the sizes of the two
    ranges and a position that leaves a border of one cell. *)
Definition room_valid (r : Rect) : Prop :=
  3 <= r_w r <= 8 /\ 3 <= r_h r <= 5 /\
  1 <= r_x r /\ r_x r + r_w r <= MAP_W - 1 /\
  1 <= r_y r /\ r_y r + r_h r <= MAP_H - 1.

(** The cells inside the border of one cell. *)
Definition interior (x y : Z) : Prop :=
  1 <= x < MAP_W - 1 /\ 1 <= y < MAP_H - 1.

(** The guarded store of the carving helpers over a list of cells. *)
Definition carve_cells (m : Grid) (l : list Cell) : Grid :=
  fold_left (fun m' c => carve_cell m' (fst c) (snd c)) l m.

(** [m'] is [m] with Floor written on the cells of [S] that are in range
    and nothing else changed. *)
Definition carved (S : Z -> Z -> Prop) (m m' : Grid) : Prop :=
  Arr2.wf m' /\
  forall x y,
    (S x y /\ in_bounds x y -> tile m' x y = FLOOR) /\
    (~ (S x y /\ in_bounds x y) -> tile m' x y = tile m x y).


(** The body of the room loop once a candidate is accepted: carve it and,
    after the first room, join it to the previous one. *)
Definition accept_room (map : Grid) (rooms : list Rect) (r : Rect) (g : RNG)
  : Grid * RNG :=
  match rooms with
  | [] => (carve_room map r, g)
  | _ :: _ => connect (carve_room map r) (last rooms r) r g
  end.

(** [linked map a b]: [b] is reached from [a] by moves between
    4-neighbours over Floor cells, both ends included. *)
Inductive linked (map : Grid) : Cell -> Cell -> Prop :=
| linked_refl : forall a, floor_cell map a -> linked map a a
| linked_step : forall a b c,
    linked map a b -> manhattan b c = 1 -> floor_cell map c ->
    linked map a c.

(** All Floor cells hang together: none before the first room, afterwards
    each is linked to the centre of the last room. *)
Definition joined (map : Grid) (rooms : list Rect) : Prop :=
  match rooms with
  | [] => forall x y, tile map x y <> FLOOR
  | r0 :: _ =>
      forall a, floor_cell map a ->
                linked map a (centerX (last rooms r0), centerY (last rooms r0))
  end.

(** Invariant of the room loop. *)
Definition rooms_inv (map : Grid) (rooms : list Rect) : Prop :=
  Arr2.wf map /\
  Forall room_valid rooms /\
  ForallOrdPairs (fun a b => intersects a b = false) rooms /\
  (forall x y, tile map x y = WALL \/ tile map x y = FLOOR) /\
  (forall x y, tile map x y = FLOOR -> interior x y) /\
  (forall r x y, In r rooms -> in_rect r x y -> tile map x y = FLOOR) /\
  joined map rooms.


(** [seg a b c]: [c] lies on the axis-parallel segment from [a] to [b]. *)
Definition seg (a b c : Cell) : Prop :=
  (snd a = snd b /\ snd c = snd a /\
   Z.min (fst a) (fst b) <= fst c <= Z.max (fst a) (fst b)) \/
  (fst a = fst b /\ fst c = fst a /\
   Z.min (snd a) (snd b) <= snd c <= Z.max (snd a) (snd b)).


(** ** Placement by difficulty *)

(** An enemy as [regenerate_map] creates it: alive, with hit points in
    the range of the difficulty. *)
Definition fresh_enemy (cfg : DiffConfig) (e : Enemy) : Prop :=
  e_alive e = true /\ enemyHpMin cfg <= e_hp e <= enemyHpMax cfg.

(** Every range of a difficulty tier is non-empty and positive. *)
Definition config_ok (cfg : DiffConfig) : Prop :=
  1 <= enemyMin cfg <= enemyMax cfg /\
  1 <= enemyHpMin cfg <= enemyHpMax cfg /\
  1 <= enemyAtkMin cfg <= enemyAtkMax cfg /\
  1 <= potionMin cfg <= potionMax cfg.



(** ** Bookkeeping of a session *)

Definition dead (e : Enemy) : bool := negb (e_alive e).

(** The hit points and the [alive] flag of an enemy. *)
Definition e_stat (e : Enemy) : Z * bool := (e_hp e, e_alive e).

(** A live enemy has hit points left, a dead one has none. *)
Definition hp_agrees (e : Enemy) : Prop :=
  if e_alive e then 0 < e_hp e else e_hp e <= 0.

(** The number of enemies killed so far. *)
Definition kills (es : list Enemy) : Z := Z.of_nat (length (filter dead es)).

(** What holds of the grid, the player and the counters throughout a
    session. *)
Definition tidy (s : State) : Prop :=
  Arr2.wf (st_map s) /\
  (forall x y, tile (st_map s) x y = WALL \/ tile (st_map s) x y = FLOOR) /\
  (forall x y, tile (st_map s) x y = FLOOR -> interior x y) /\
  floor_cell (st_map s) (st_playerX s, st_playerY s) /\
  st_playerMaxHP s = 20 /\ st_playerAttack s = 4 /\ st_playerHP s <= 20 /\
  0 <= st_turns s /\
  st_score s = 10 * kills (st_enemies s) /\
  Forall hp_agrees (st_enemies s) /\
  2 <= Z.of_nat (length (st_enemies s)) <= 8 /\
  NoDup (List.map it_pos (st_items s)) /\
  Z.of_nat (length (st_items s)) <= 7.



(** A live enemy on a 4-neighbour of the player's cell. *)
Definition adjacent_live (px py : Z) (e : Enemy) : bool :=
  e_alive e && (manhattan (e_pos e) (px, py) =? 1).

(** What planning stores in [nextPos] for one enemy: the pathfinder's
    answer for a live enemy, the marker (-1,-1) for a dead one. *)
Definition planned (map : Grid) (px py : Z) (e : Enemy) (c : Cell) : Prop :=
  if e_alive e
  then exists occ, bfs_next_step map (e_x e) (e_y e) px py occ = Some c
  else c = (-1, -1).



(** The keys that move the player, in either case. *)
Definition move_key (ch : ascii) : bool :=
  is_key ch "w" "W" || is_key ch "s" "S" ||
  is_key ch "a" "A" || is_key ch "d" "D".



(** Any two Floor cells are linked. *)
Definition connected (map : Grid) : Prop :=
  forall a b, floor_cell map a -> floor_cell map b -> linked map a b.



(** ** The high-score file at the end of a run *)

Definition quit_key (ch : ascii) : bool := is_key ch "q" "Q".

(** The file after the comparison made on death and on the quit key. *)
Definition persisted (w : bool) (f : HsFile) (s : State) : HsFile :=
  if st_score s >? st_highScore s
  then save_high_score w f (st_score s) else f.



(** ** Concrete inputs *)

(** Concrete grids are written as rows of text. *)
Definition grid_of_rows (rows : list string) : Grid :=
  List.map list_ascii_of_string rows.

Definition open_grid : Grid := Arr2.make FLOOR.

Definition walled_grid : Grid :=
  grid_of_rows
    [ "####################"; "#.......###........#"; "#.......#.#........#";
      "#.......###........#"; "#..................#"; "#..................#";
      "#..................#"; "#..................#"; "#..................#";
      "####################" ]%string.

(** A session on the open grid: the player at (2,2) with 17 of 20 hit
    points and attack 4, one enemy with 3 hit points at (3,2), a potion at
    (2,3), score 15, stored best 0. *)
Definition demo_state : State :=
  mkState open_grid [mkEnemy 3 2 3 true] [mkItem 2 3]
          2 2 17 20 4 15 0 0 EASY (rng_of_list [4]).

Definition demo_rng : RNG :=
  rng_of_list [0; 1; 2; 3; 4; 5; 6; 7; 8; 9; 10; 11; 12; 13; 14; 15; 16; 17;
               18; 19; 20; 21; 22; 23; 24; 25; 26; 27; 28; 29; 30; 31; 32;
               33; 34; 35; 36; 37; 38; 39; 40; 41; 42; 43; 44; 45; 46; 47;
               48; 49; 50; 51; 52; 53; 54; 55; 56; 57; 58; 59; 60].

(** The session of the examples: easy difficulty, the draws of [demo_rng],
    a writable but absent high-score file, and the keys d, s, s before the
    input ends. *)
Abbreviation demo_run :=
  (run 50 1 demo_rng true None (list_ascii_of_string "dss")) (only parsing).

(** * Properties *)

(** ** Lists and arrays *)

Lemma list_upd_length {B : Type} (n : nat) (f : B -> B) (l : list B) :
  length (list_upd n f l) = length l.
Proof.
  revert n; induction l as [|h tl IH]; intros [|n]; simpl; auto.
Qed.

Lemma nth_list_upd_eq {B : Type} (n : nat) (f : B -> B) (l : list B) (d : B) :
  (n < length l)%nat -> nth n (list_upd n f l) d = f (nth n l d).
Proof.
  revert n; induction l as [|h tl IH]; intros [|n] H; simpl in *;
    try lia; auto.
  apply IH; lia.
Qed.

Lemma nth_list_upd_ne {B : Type} (n m : nat) (f : B -> B) (l : list B) (d : B) :
  n <> m -> nth m (list_upd n f l) d = nth m l d.
Proof.
  revert n m; induction l as [|h tl IH]; intros [|n] [|m] H; simpl;
    try congruence; auto.
Qed.

Lemma list_upd_oor {B : Type} (n : nat) (f : B -> B) (l : list B) :
  (length l <= n)%nat -> list_upd n f l = l.
Proof.
  revert n; induction l as [|h tl IH]; intros [|n] H; simpl in *;
    try lia; auto.
  f_equal; apply IH; lia.
Qed.

Lemma Forall_list_upd {B : Type} (P : B -> Prop) (n : nat) (f : B -> B)
  (l : list B) :
  (forall b, P b -> P (f b)) -> Forall P l -> Forall P (list_upd n f l).
Proof.
  intros Hf; revert n; induction l as [|h tl IH]; intros [|n] H; simpl;
    inversion H; subst; constructor; auto.
Qed.

Lemma in_bounds_oob (x y : Z) : oob x y = false <-> in_bounds x y.
Proof. unfold oob, in_bounds, MAP_W, MAP_H. lia. Qed.

Lemma in_bounds_dec (x y : Z) : {in_bounds x y} + {~ in_bounds x y}.
Proof.
  destruct (oob x y) eqn:E; [right | left].
  - intro H; apply in_bounds_oob in H; congruence.
  - now apply in_bounds_oob.
Qed.

Module Arr2Facts.
Section Facts.
Context {A : Type}.
Implicit Types (a : Arr2.t A) (d v : A).

Lemma wf_make v : Arr2.wf (Arr2.make v).
Proof.
  split; unfold Arr2.make.
  - apply repeat_length.
  - apply Forall_forall; intros r Hr. apply repeat_spec in Hr; subst.
    apply repeat_length.
Qed.

Lemma wf_set a x y v : Arr2.wf a -> Arr2.wf (Arr2.set a x y v).
Proof.
  intros [Hl Hr]; unfold Arr2.set.
  destruct ((x <? 0) || (y <? 0)); [now split|].
  split.
  - now rewrite list_upd_length.
  - apply Forall_list_upd; auto.
    intros b Hb. now rewrite list_upd_length.
Qed.

Lemma get_make d v x y : in_bounds x y -> Arr2.get d (Arr2.make v) x y = v.
Proof.
  intros [Hx Hy]; unfold Arr2.get, Arr2.make.
  replace ((x <? 0) || (y <? 0)) with false by lia.
  rewrite nth_indep with (d' := repeat v (Z.to_nat MAP_W))
    by (rewrite repeat_length; lia).
  rewrite nth_repeat.
  rewrite nth_indep with (d' := v) by (rewrite repeat_length; lia).
  apply nth_repeat.
Qed.

Lemma get_set_eq d a x y v :
  Arr2.wf a -> in_bounds x y -> Arr2.get d (Arr2.set a x y v) x y = v.
Proof.
  intros [Hl Hr] [Hx Hy]; unfold Arr2.get, Arr2.set.
  replace ((x <? 0) || (y <? 0)) with false by lia.
  rewrite nth_list_upd_eq by lia.
  rewrite nth_list_upd_eq; auto.
  rewrite Forall_forall in Hr. rewrite (Hr (nth (Z.to_nat y) a [])).
  - lia.
  - apply nth_In; lia.
Qed.

Lemma get_set_ne d a x y v x' y' :
  (x, y) <> (x', y') ->
  Arr2.get d (Arr2.set a x y v) x' y' = Arr2.get d a x' y'.
Proof.
  intros Hne; unfold Arr2.get, Arr2.set.
  destruct ((x' <? 0) || (y' <? 0)) eqn:E'; auto.
  destruct ((x <? 0) || (y <? 0)) eqn:E; auto.
  destruct (Z.eq_dec y y') as [->|Hy].
  - assert (x <> x') by congruence.
    destruct (Nat.lt_ge_cases (Z.to_nat y') (length a)) as [Hlt|Hge].
    + rewrite nth_list_upd_eq by assumption.
      apply nth_list_upd_ne; lia.
    + now rewrite list_upd_oor.
  - rewrite nth_list_upd_ne by lia. reflexivity.
Qed.
End Facts.
End Arr2Facts.

(** ** Cells of the grid *)

Lemma cell_eq_dec (a b : Cell) : {a = b} + {a <> b}.
Proof. decide equality; apply Z.eq_dec. Defined.

Lemma cell_eqb_eq (a b : Cell) : cell_eqb a b = true <-> a = b.
Proof.
  destruct a, b; unfold cell_eqb; simpl.
  rewrite andb_true_iff, !Z.eqb_eq. split; [intros []|intros [=]]; subst; auto.
Qed.

Lemma cell_eqb_neq (a b : Cell) : cell_eqb a b = false <-> a <> b.
Proof.
  rewrite <- cell_eqb_eq. destruct (cell_eqb a b); split; congruence.
Qed.

Lemma coords_eqb (c : Cell) (x y : Z) :
  (fst c =? x) && (snd c =? y) = true <-> c = (x, y).
Proof. exact (cell_eqb_eq c (x, y)). Qed.

Lemma in_zrange (v a : Z) (n : nat) :
  In v (zrange a n) <-> a <= v < a + Z.of_nat n.
Proof.
  revert a; induction n as [|n IH]; intros a; simpl zrange.
  - simpl; lia.
  - simpl In. rewrite IH. lia.
Qed.

Lemma in_zfor (v lo hi : Z) : In v (zfor lo hi) <-> lo <= v < hi.
Proof. unfold zfor. rewrite in_zrange. lia. Qed.

Lemma in_all_cells (c : Cell) : In c all_cells <-> in_bounds (fst c) (snd c).
Proof.
  unfold all_cells, in_bounds. rewrite in_flat_map. split.
  - intros (y & Hy & Hc). apply in_map_iff in Hc as (x & <- & Hx).
    apply in_zfor in Hx, Hy. simpl. lia.
  - intros [Hx Hy]. exists (snd c). split; [apply in_zfor; lia|].
    apply in_map_iff. exists (fst c). split; [now destruct c|apply in_zfor; lia].
Qed.

Lemma NoDup_all_cells : NoDup all_cells.
Proof.
  assert (E : nodup cell_eq_dec all_cells = all_cells)
    by (vm_compute; reflexivity).
  rewrite <- E. apply NoDup_nodup.
Qed.

Lemma length_all_cells : length all_cells = Z.to_nat (MAP_W * MAP_H).
Proof. vm_compute. reflexivity. Qed.

(** Flipping a predicate at one member of a duplicate-free list removes
    exactly one element from the filtered list. *)
Lemma filter_flip_length {B : Type} (f g : B -> bool) (c : B) (l : list B) :
  NoDup l -> In c l -> f c = true -> g c = false ->
  (forall x, x <> c -> g x = f x) ->
  S (length (filter g l)) = length (filter f l).
Proof.
  intros Hnd Hin Hf Hg Hrest. induction Hnd as [|a l Hna Hnd IH].
  - destruct Hin.
  - simpl. destruct Hin as [->|Hin].
    + rewrite Hf, Hg. simpl. f_equal.
      f_equal. apply filter_ext_in. intros x Hx. apply Hrest.
      intros ->. contradiction.
    + assert (a <> c) by (intros ->; contradiction).
      rewrite (Hrest a) by assumption.
      destruct (f a); simpl; rewrite IH; auto.
Qed.

(** ** The visited array *)

Lemma visited_in_bounds (vis : Arr2.t bool) (c : Cell) :
  Arr2.wf vis -> visited vis c -> in_bounds (fst c) (snd c).
Proof.
  intros [Hl Hr] Hv. unfold visited, Arr2.get in Hv.
  destruct ((fst c <? 0) || (snd c <? 0)) eqn:E; [discriminate|].
  destruct (Nat.lt_ge_cases (Z.to_nat (snd c)) (length vis)) as [Hy|Hy].
  - destruct (Nat.lt_ge_cases (Z.to_nat (fst c))
                (length (nth (Z.to_nat (snd c)) vis []))) as [Hx|Hx].
    + rewrite Forall_forall in Hr.
      rewrite (Hr (nth (Z.to_nat (snd c)) vis [])) in Hx by (apply nth_In; lia).
      unfold in_bounds, MAP_W, MAP_H in *. lia.
    + rewrite nth_overflow in Hv by assumption. discriminate.
  - rewrite (nth_overflow vis) in Hv by assumption.
    destruct (Z.to_nat (fst c)); discriminate.
Qed.

Lemma visited_set (vis : Arr2.t bool) (v c : Cell) :
  Arr2.wf vis -> in_bounds (fst v) (snd v) ->
  visited (Arr2.set vis (fst v) (snd v) true) c <-> c = v \/ visited vis c.
Proof.
  intros Hwf Hv. unfold visited.
  destruct (cell_eq_dec v c) as [<-|Hne].
  - rewrite Arr2Facts.get_set_eq by assumption. tauto.
  - rewrite Arr2Facts.get_set_ne by (destruct v, c; exact Hne).
    split; [tauto|intros [->|]]; [contradiction|assumption].
Qed.

Lemma unvisited_set (vis : Arr2.t bool) (v : Cell) :
  Arr2.wf vis -> in_bounds (fst v) (snd v) -> ~ visited vis v ->
  S (unvisited (Arr2.set vis (fst v) (snd v) true)) = unvisited vis.
Proof.
  intros Hwf Hv Hnv. unfold unvisited.
  apply filter_flip_length with (c := v).
  - apply NoDup_all_cells.
  - now apply in_all_cells.
  - unfold visited in Hnv. now destruct (Arr2.get false vis (fst v) (snd v)).
  - now rewrite Arr2Facts.get_set_eq.
  - intros x Hx. rewrite Arr2Facts.get_set_ne; auto.
    destruct v, x; simpl; congruence.
Qed.

Lemma unvisited_le (vis : Arr2.t bool) :
  (unvisited vis <= Z.to_nat (MAP_W * MAP_H))%nat.
Proof.
  unfold unvisited. rewrite <- length_all_cells. apply filter_length_le.
Qed.

(** ** The graph searched by [bfs_next_step] *)

Section Graph.
Variable map : Grid.
Variables tx ty : Z.
Variable occupied : list Cell.

Local Abbreviation free := (free map tx ty occupied).
Local Abbreviation step := (step map tx ty occupied).
Local Abbreviation walk := (walk map tx ty occupied).
Local Abbreviation walk_refl := (walk_refl map tx ty occupied).
Local Abbreviation walk_snoc := (walk_snoc map tx ty occupied).

Lemma walk_cons (a b c : Cell) (n : nat) :
  step a b -> walk b n c -> walk a (S n) c.
Proof.
  intros Hab Hbc. induction Hbc as [|n c c' Hbc IH Hs].
  - apply walk_snoc with a; [constructor|assumption].
  - apply walk_snoc with c; assumption.
Qed.

(** The lambda [blocked] of the source rejects exactly the cells that are
    not free. *)
Lemma blocked_false_iff (c : Cell) :
  blocked map tx ty occupied (fst c) (snd c) = false <-> free c.
Proof.
  unfold free, blocked. split.
  - intros H.
    destruct (oob (fst c) (snd c)) eqn:Eo; [discriminate|].
    apply in_bounds_oob in Eo.
    destruct (Ascii.eqb (tile map (fst c) (snd c)) FLOOR) eqn:E;
      [apply Ascii.eqb_eq in E|discriminate].
    split; [assumption|]. split; [assumption|]. simpl in H.
    destruct (cell_eq_dec c (tx, ty)) as [|Hne]; [now left|right].
    intros Hin. rewrite <- not_true_iff_false in H. apply H.
    apply existsb_exists. exists c. split; [assumption|].
    rewrite !Z.eqb_refl. simpl.
    apply negb_true_iff. rewrite <- not_true_iff_false.
    rewrite coords_eqb. assumption.
  - intros (Hb & Hf & Ho).
    apply in_bounds_oob in Hb. rewrite Hb, Hf. simpl.
    rewrite <- not_true_iff_false. rewrite existsb_exists.
    intros (p & Hp & E). apply andb_true_iff in E as [E1 E2].
    apply coords_eqb in E1. rewrite negb_true_iff in E2.
    rewrite <- not_true_iff_false, coords_eqb in E2.
    replace (fst c, snd c) with c in E1 by now destruct c.
    subst p. tauto.
Qed.

Lemma free_in_bounds (c : Cell) : free c -> in_bounds (fst c) (snd c).
Proof. now intros []. Qed.

Section Search.
Variables sx sy : Z.

Local Abbreviation Inv := (Inv map tx ty occupied sx sy).
Local Abbreviation i_wfv := (i_wfv map tx ty occupied sx sy).
Local Abbreviation i_wfp := (i_wfp map tx ty occupied sx sy).
Local Abbreviation i_start := (i_start map tx ty occupied sx sy).
Local Abbreviation i_walk := (i_walk map tx ty occupied sx sy).
Local Abbreviation i_min := (i_min map tx ty occupied sx sy).
Local Abbreviation i_par := (i_par map tx ty occupied sx sy).
Local Abbreviation i_pend := (i_pend map tx ty occupied sx sy).
Local Abbreviation i_lev := (i_lev map tx ty occupied sx sy).
Local Abbreviation i_closed := (i_closed map tx ty occupied sx sy).
Local Abbreviation i_target := (i_target map tx ty occupied sx sy).
Local Abbreviation i_bound := (i_bound map tx ty occupied sx sy).
Local Abbreviation expanded := (expanded map tx ty occupied).

Lemma levelled_bounds lv h rest c :
  levelled lv (h :: rest) -> In c (h :: rest) ->
  (lv h <= lv c <= S (lv h))%nat.
Proof.
  intros (A & B & E & HA & HB) Hin. rewrite E in Hin.
  apply in_app_or in Hin as [Hin|Hin].
  - rewrite Forall_forall in HA. rewrite (HA c Hin). lia.
  - rewrite Forall_forall in HB. rewrite (HB c Hin). lia.
Qed.

Lemma levelled_pop lv h rest : levelled lv (h :: rest) -> levelled lv rest.
Proof.
  intros (A & B & E & HA & HB).
  destruct rest as [|h' rest']; [exact I|].
  rewrite Forall_forall in HA, HB.
  destruct A as [|a A1]; simpl in E.
  - assert (lv h = S (lv h)) by (apply HB; rewrite <- E; now left). lia.
  - injection E as Ea E. subst a.
    destruct A1 as [|a1 A2]; simpl in E.
    + exists (h' :: rest'), []. rewrite app_nil_r.
      assert (Hh' : lv h' = S (lv h)) by (apply HB; rewrite <- E; now left).
      split; [reflexivity|]. split; [|constructor].
      apply Forall_forall. intros c Hc. rewrite Hh'. apply HB.
      now rewrite <- E.
    + injection E as Ea E. subst a1.
      assert (Hh' : lv h' = lv h) by (apply HA; right; now left).
      exists (h' :: A2), B. split; [now rewrite E|].
      split; apply Forall_forall; intros c Hc; rewrite Hh'.
      * apply HA. right. exact Hc.
      * apply HB. exact Hc.
Qed.

Lemma levelled_push lv h rest v :
  levelled lv (h :: rest) -> lv v = S (lv h) ->
  levelled lv (h :: rest ++ [v]).
Proof.
  intros (A & B & E & HA & HB) Hv.
  exists A, (B ++ [v]). split; [|split].
  - rewrite app_assoc, <- E. reflexivity.
  - assumption.
  - apply Forall_app. split; [assumption|]. constructor; auto.
Qed.

Lemma levelled_ext lv lv' pend :
  (forall c, In c pend -> lv' c = lv c) -> levelled lv pend ->
  levelled lv' pend.
Proof.
  intros Hext. destruct pend as [|h rest]; [auto|].
  intros (A & B & E & HA & HB). exists A, B. split; [assumption|].
  assert (Hh : lv' h = lv h) by (apply Hext; now left).
  rewrite Forall_forall in HA, HB.
  split; apply Forall_forall; intros c Hc; rewrite Hh.
  - rewrite Hext, HA; auto. rewrite E. apply in_or_app; auto.
  - rewrite Hext, HB; auto. rewrite E. apply in_or_app; auto.
Qed.

(** Every cell within the level of the queue's head has been visited. *)
Lemma inv_level_closed lv vis par h rest :
  Inv lv vis par (h :: rest) ->
  forall n c, walk (sx, sy) n c -> (n <= lv h)%nat -> visited vis c.
Proof.
  intros HI n c Hw. induction Hw as [|n b c Hw IH Hs]; intros Hn.
  - apply (i_start _ _ _ _ HI).
  - assert (Hb : visited vis b) by (apply IH; lia).
    apply (i_closed _ _ _ _ HI b c); auto.
    intros Hin. pose proof (i_min _ _ _ _ HI b n Hb Hw).
    pose proof (levelled_bounds _ _ _ _ (i_lev _ _ _ _ HI) Hin). lia.
Qed.

Hypothesis start_in_bounds : in_bounds sx sy.

Lemma inv_init :
  Inv (fun _ => O)
      (Arr2.set (Arr2.make false) sx sy true) (Arr2.make (0, 0)) [(sx, sy)].
Proof.
  assert (Hvis : forall c,
             visited (Arr2.set (Arr2.make false) sx sy true) c <-> c = (sx, sy)).
  { intros c.
    rewrite (visited_set (Arr2.make false) (sx, sy) c)
      by (auto using Arr2Facts.wf_make).
    split; [intros [|H]|]; auto.
    pose proof (visited_in_bounds _ _ (Arr2Facts.wf_make false) H) as Hb.
    unfold visited in H. rewrite Arr2Facts.get_make in H by assumption.
    discriminate. }
  constructor.
  - apply Arr2Facts.wf_set, Arr2Facts.wf_make.
  - apply Arr2Facts.wf_make.
  - now apply Hvis.
  - intros c Hc. apply Hvis in Hc. subst. constructor.
  - intros; lia.
  - intros c Hc Hne. apply Hvis in Hc. contradiction.
  - constructor; [now apply Hvis|constructor].
  - exists [(sx, sy)], []. repeat split; auto.
  - intros c c' Hc Hn. apply Hvis in Hc. subst. elim Hn. now left.
  - intros Ht. apply Hvis in Ht. rewrite Ht. now left.
  - intros c _.
    assert (Hn : ~ visited (Arr2.make false) (sx, sy)).
    { unfold visited. cbn [fst snd].
      rewrite Arr2Facts.get_make by assumption. discriminate. }
    pose proof (unvisited_set (Arr2.make false) (sx, sy)
                  (Arr2Facts.wf_make false) start_in_bounds Hn) as Hu.
    cbn [fst snd] in Hu. pose proof (unvisited_le (Arr2.make false)). lia.
Qed.

Lemma parent_of_set par v p c :
  Arr2.wf par -> in_bounds (fst v) (snd v) ->
  parent_of (Arr2.set par (fst v) (snd v) p) c =
  if cell_eqb c v then p else parent_of par c.
Proof.
  intros Hwf Hv. unfold parent_of.
  destruct (cell_eqb c v) eqn:E.
  - apply cell_eqb_eq in E. subst. now apply Arr2Facts.get_set_eq.
  - apply cell_eqb_neq in E. apply Arr2Facts.get_set_ne.
    destruct v, c; simpl; congruence.
Qed.

(** Entering a new cell [v] from the head [cur] of the pending cells. *)
Lemma inv_visit lv vis par cur q v :
  Inv lv vis par (cur :: q) ->
  step cur v -> ~ visited vis v ->
  Inv (fun c => if cell_eqb c v then S (lv cur) else lv c)
      (Arr2.set vis (fst v) (snd v) true)
      (Arr2.set par (fst v) (snd v) cur)
      (cur :: q ++ [v]).
Proof.
  intros HI Hstep Hnv.
  pose proof (i_wfv _ _ _ _ HI) as Hwfv.
  pose proof (i_wfp _ _ _ _ HI) as Hwfp.
  assert (Hvb : in_bounds (fst v) (snd v)) by (apply free_in_bounds, Hstep).
  assert (Hcur : visited vis cur).
  { pose proof (i_pend _ _ _ _ HI) as Hp. now inversion Hp. }
  set (lv' := fun c => if cell_eqb c v then S (lv cur) else lv c).
  assert (Hlv : forall c, visited vis c -> lv' c = lv c).
  { intros c Hc. unfold lv'. destruct (cell_eqb c v) eqn:E; auto.
    apply cell_eqb_eq in E. subst. contradiction. }
  assert (Hlvv : lv' v = S (lv cur)).
  { unfold lv'. now rewrite (proj2 (cell_eqb_eq v v) eq_refl). }
  assert (Hvis : forall c, visited (Arr2.set vis (fst v) (snd v) true) c <->
                           c = v \/ visited vis c)
    by (intros c; now apply visited_set).
  assert (Hu := unvisited_set vis v Hwfv Hvb Hnv).
  constructor.
  - now apply Arr2Facts.wf_set.
  - now apply Arr2Facts.wf_set.
  - apply Hvis. right. apply (i_start _ _ _ _ HI).
  - intros c Hc. apply Hvis in Hc as [->|Hc].
    + rewrite Hlvv. apply walk_snoc with cur; auto.
      apply (i_walk _ _ _ _ HI); auto.
    + rewrite Hlv by assumption. apply (i_walk _ _ _ _ HI); auto.
  - intros c n Hc Hw. apply Hvis in Hc as [->|Hc].
    + rewrite Hlvv. destruct (Nat.le_gt_cases n (lv cur)) as [Hle|]; [|lia].
      elim Hnv. apply (inv_level_closed _ _ _ _ _ HI n v Hw Hle).
    + rewrite Hlv by assumption. apply (i_min _ _ _ _ HI); auto.
  - intros c Hc Hne. rewrite parent_of_set by assumption.
    apply Hvis in Hc as [->|Hc].
    + rewrite (proj2 (cell_eqb_eq v v) eq_refl).
      rewrite Hlvv, (Hlv cur Hcur). split; [|split]; auto.
      apply Hvis. now right.
    + destruct (cell_eqb c v) eqn:E;
        [apply cell_eqb_eq in E; subst; contradiction|].
      destruct (i_par _ _ _ _ HI c Hc Hne) as (Hp & Hl & Hs).
      rewrite (Hlv c Hc), (Hlv _ Hp). split; [|split]; auto.
      apply Hvis. now right.
  - pose proof (i_pend _ _ _ _ HI) as Hp.
    change (cur :: q ++ [v]) with ((cur :: q) ++ [v]).
    apply Forall_app. split.
    + eapply Forall_impl; [|exact Hp]. intros c Hc. apply Hvis. now right.
    + constructor; [|constructor]. apply Hvis. now left.
  - apply levelled_push.
    + apply levelled_ext with lv; [|apply (i_lev _ _ _ _ HI)].
      intros c Hc. apply Hlv.
      pose proof (i_pend _ _ _ _ HI) as Hp. rewrite Forall_forall in Hp. auto.
    + rewrite Hlvv, (Hlv cur Hcur). reflexivity.
  - intros c c' Hc Hn Hs. apply Hvis. right.
    assert (c <> v).
    { intros ->. apply Hn. right. apply in_or_app. right. now left. }
    apply Hvis in Hc as [|Hc]; [contradiction|].
    apply (i_closed _ _ _ _ HI c c'); auto.
    intros Hin. apply Hn. destruct Hin as [|Hin]; [now left|right].
    apply in_or_app. now left.
  - intros Ht. apply Hvis in Ht as [Ht|Ht].
    + right. apply in_or_app. right. now left.
    + destruct (i_target _ _ _ _ HI Ht) as [|Hin]; [now left|right].
      apply in_or_app. now left.
  - intros c Hc. apply Hvis in Hc as [->|Hc].
    + rewrite Hlvv. pose proof (i_bound _ _ _ _ HI cur Hcur). lia.
    + rewrite Hlv by assumption. pose proof (i_bound _ _ _ _ HI c Hc). lia.
Qed.

Lemma expanded_incl vis cur D D' :
  incl D' D -> expanded vis cur D -> expanded vis cur D'.
Proof. intros Hi He d Hd. apply He. now apply Hi. Qed.

Lemma visit_dir_inv lv s cur D d :
  In d dirs ->
  Inv lv (s_vis s) (s_parent s) (cur :: s_queue s) ->
  expanded (s_vis s) cur D ->
  exists lv',
    Inv lv' (s_vis (visit_dir map tx ty occupied cur s d))
            (s_parent (visit_dir map tx ty occupied cur s d))
            (cur :: s_queue (visit_dir map tx ty occupied cur s d)) /\
    expanded (s_vis (visit_dir map tx ty occupied cur s d)) cur (d :: D) /\
    (unvisited (s_vis (visit_dir map tx ty occupied cur s d)) +
     length (s_queue (visit_dir map tx ty occupied cur s d)) =
     unvisited (s_vis s) + length (s_queue s))%nat.
Proof.
  intros Hd HI HE. unfold visit_dir.
  change (fst cur + fst d, snd cur + snd d) with (move cur d).
  set (v := move cur d).
  change (fst cur + fst d) with (fst v). change (snd cur + snd d) with (snd v).
  destruct (oob (fst v) (snd v)) eqn:Eo.
  { exists lv. split; [assumption|]. split; [|reflexivity].
    intros d' [<-|Hd'] Hf; [|now apply HE].
    apply free_in_bounds, in_bounds_oob in Hf. fold v in Hf. congruence. }
  destruct (Arr2.get false (s_vis s) (fst v) (snd v)) eqn:Ev.
  { exists lv. split; [assumption|]. split; [|reflexivity].
    intros d' [<-|Hd'] Hf; [exact Ev|now apply HE]. }
  destruct (blocked map tx ty occupied (fst v) (snd v)) eqn:Eb.
  { exists lv. split; [assumption|]. split; [|reflexivity].
    intros d' [<-|Hd'] Hf; [|now apply HE].
    apply blocked_false_iff in Hf. fold v in Hf. congruence. }
  assert (Hstep : step cur v)
    by (split; [exists d; auto|now apply blocked_false_iff]).
  assert (Hnv : ~ visited (s_vis s) v) by (unfold visited; congruence).
  eexists. split; [|split].
  - cbn [s_vis s_parent s_queue]. apply inv_visit; eassumption.
  - cbn [s_vis].
    assert (Hvis : forall c, visited (Arr2.set (s_vis s) (fst v) (snd v) true) c
                             <-> c = v \/ visited (s_vis s) c).
    { intros c. apply visited_set; [apply (i_wfv _ _ _ _ HI)|].
      apply free_in_bounds, Hstep. }
    intros d' [<-|Hd'] Hf; apply Hvis; [now left|right; now apply HE].
  - cbn [s_vis s_queue]. rewrite length_app. cbn [length].
    pose proof (unvisited_set (s_vis s) v (i_wfv _ _ _ _ HI)
                  (free_in_bounds _ (proj2 Hstep)) Hnv) as Hu.
    lia.
Qed.

Lemma visit_dirs_inv cur ds : forall lv s D,
  incl ds dirs ->
  Inv lv (s_vis s) (s_parent s) (cur :: s_queue s) ->
  expanded (s_vis s) cur D ->
  exists lv',
    Inv lv' (s_vis (fold_left (visit_dir map tx ty occupied cur) ds s))
            (s_parent (fold_left (visit_dir map tx ty occupied cur) ds s))
            (cur :: s_queue (fold_left (visit_dir map tx ty occupied cur) ds s))
    /\
    expanded (s_vis (fold_left (visit_dir map tx ty occupied cur) ds s))
             cur (ds ++ D) /\
    (unvisited (s_vis (fold_left (visit_dir map tx ty occupied cur) ds s)) +
     length (s_queue (fold_left (visit_dir map tx ty occupied cur) ds s)) =
     unvisited (s_vis s) + length (s_queue s))%nat.
Proof.
  induction ds as [|d ds IH]; intros lv s D Hincl HI HE.
  - exists lv. simpl. auto.
  - simpl fold_left.
    destruct (visit_dir_inv lv s cur D d) as (lv1 & HI1 & HE1 & Hm1); auto.
    { apply Hincl. now left. }
    destruct (IH lv1 (visit_dir map tx ty occupied cur s d) (d :: D))
      as (lv2 & HI2 & HE2 & Hm2); auto.
    { intros x Hx. apply Hincl. now right. }
    exists lv2. split; [assumption|]. split; [|lia].
    eapply expanded_incl; [|exact HE2].
    intros x Hx. apply in_or_app. simpl in Hx |- *.
    destruct Hx as [->|Hx]; [right; now left|].
    apply in_app_or in Hx. tauto.
Qed.

(** Once all four directions of [cur] are handled, [cur] leaves the
    pending cells. *)
Lemma inv_pop lv vis par cur q :
  Inv lv vis par (cur :: q) -> expanded vis cur dirs -> cur <> (tx, ty) ->
  Inv lv vis par q.
Proof.
  intros HI HE Hne.
  destruct HI as [Hwfv Hwfp Hst Hwk Hmin Hpar Hpend Hlev Hcl Htg Hbd].
  constructor; auto.
  - now inversion Hpend.
  - eapply levelled_pop; eassumption.
  - intros c c' Hc Hn Hs. destruct (cell_eq_dec c cur) as [->|Hcc].
    + destruct Hs as [(d & Hd & ->) Hf]. now apply HE.
    + apply (Hcl c c'); auto. intros [|]; [congruence|contradiction].
  - intros Ht. destruct (Htg Ht) as [|]; [congruence|assumption].
Qed.

(** The search loop terminates within its fuel and keeps the invariant. *)
Lemma bfs_loop_inv fuel : forall s lv,
  Inv lv (s_vis s) (s_parent s) (s_queue s) ->
  (unvisited (s_vis s) + length (s_queue s) < fuel)%nat ->
  exists b par lv' vis' q',
    bfs_loop map tx ty occupied fuel s = Some (b, par) /\
    Inv lv' vis' par (if b then (tx, ty) :: q' else []).
Proof.
  induction fuel as [|fuel IH]; intros s lv HI Hm; [lia|].
  cbn [bfs_loop]. destruct (s_queue s) as [|cur q'] eqn:Eq.
  - exists false, (s_parent s), lv, (s_vis s), []. auto.
  - destruct ((fst cur =? tx) && (snd cur =? ty)) eqn:Et.
    + apply coords_eqb in Et. subst cur.
      exists true, (s_parent s), lv, (s_vis s), q'. auto.
    + assert (Hne : cur <> (tx, ty)).
      { intros H. apply coords_eqb in H. congruence. }
      destruct (visit_dirs_inv cur dirs lv
                  (mkSearch (s_vis s) (s_parent s) q') [])
        as (lv1 & HI1 & HE1 & Hm1); auto using incl_refl.
      { intros d []. }
      rewrite app_nil_r in HE1.
      apply inv_pop in HI1; auto.
      apply IH with lv1; auto.
      cbn [s_vis s_queue] in Hm1. cbn [length] in Hm. lia.
Qed.

Lemma inv_lv_start lv vis par pend :
  Inv lv vis par pend -> lv (sx, sy) = O.
Proof.
  intros HI.
  pose proof (i_min _ _ _ _ HI (sx, sy) O (i_start _ _ _ _ HI) (walk_refl _)).
  lia.
Qed.

(** The backtracking loop climbs the parent chain down to level 1. *)
Lemma backtrack_inv lv vis par pend :
  Inv lv vis par pend ->
  forall fuel cur m,
    visited vis cur -> cur <> (sx, sy) -> walk cur m (tx, ty) ->
    (lv cur <= fuel)%nat ->
    exists r,
      backtrack sx sy fuel par cur (parent_of par cur) = Some r /\
      step (sx, sy) r /\ walk r (m + lv cur - 1) (tx, ty).
Proof.
  intros HI. induction fuel as [|fuel IH]; intros cur m Hc Hne Hw Hl.
  - destruct (i_par _ _ _ _ HI cur Hc Hne) as (_ & E & _). lia.
  - destruct (i_par _ _ _ _ HI cur Hc Hne) as (Hp & E & Hs).
    cbn [backtrack].
    destruct ((fst (parent_of par cur) =? sx) && (snd (parent_of par cur) =? sy))
      eqn:Et.
    + apply coords_eqb in Et. exists cur. rewrite Et in *.
      rewrite (inv_lv_start _ _ _ _ HI) in E.
      split; [reflexivity|]. split; [assumption|].
      replace (m + lv cur - 1)%nat with m by lia. assumption.
    + assert (Hpn : parent_of par cur <> (sx, sy)).
      { intros H. apply coords_eqb in H. congruence. }
      destruct (IH (parent_of par cur) (S m)) as (r & Hr & Hsr & Hwr); auto.
      * now apply walk_cons with cur.
      * lia.
      * exists r. split; [exact Hr|]. split; [assumption|].
        replace (m + lv cur - 1)%nat
          with (S m + lv (parent_of par cur) - 1)%nat by lia.
        assumption.
Qed.

Lemma inv_empty_closed lv vis par :
  Inv lv vis par [] -> forall n c, walk (sx, sy) n c -> visited vis c.
Proof.
  intros HI n c Hw. induction Hw as [|n b c Hw IH Hs].
  - apply (i_start _ _ _ _ HI).
  - apply (i_closed _ _ _ _ HI b c); auto.
Qed.

(** What [bfs_next_step] returns, case by case. *)
Lemma bfs_next_step_cases :
  ((sx, sy) = (tx, ty) /\
   bfs_next_step map sx sy tx ty occupied = Some (sx, sy)) \/
  ((sx, sy) <> (tx, ty) /\
   exists r d,
     bfs_next_step map sx sy tx ty occupied = Some r /\
     step (sx, sy) r /\ walk r d (tx, ty) /\
     forall n, walk (sx, sy) n (tx, ty) -> (S d <= n)%nat) \/
  ((sx, sy) <> (tx, ty) /\
   (forall n, ~ walk (sx, sy) n (tx, ty)) /\
   bfs_next_step map sx sy tx ty occupied =
   Some (greedy_step map sx sy tx ty occupied)).
Proof.
  unfold bfs_next_step.
  destruct ((sx =? tx) && (sy =? ty)) eqn:Et.
  { left. apply (coords_eqb (sx, sy)) in Et. auto. }
  right.
  assert (Hne : (sx, sy) <> (tx, ty)).
  { intros H. apply (coords_eqb (sx, sy)) in H. simpl in H. congruence. }
  pose proof inv_init as HI0.
  destruct (bfs_loop_inv BFS_FUEL
              (mkSearch (Arr2.set (Arr2.make false) sx sy true)
                        (Arr2.make (0, 0)) [(sx, sy)])
              (fun _ => O) HI0)
    as (b & par & lv & vis & q' & Eloop & HI).
  { cbn [s_vis s_queue length].
    pose proof (i_bound _ _ _ _ HI0 (sx, sy) (i_start _ _ _ _ HI0)) as Hb.
    cbv beta in Hb. unfold BFS_FUEL. replace (Z.to_nat (MAP_W * MAP_H + 1))
      with (S (Z.to_nat (MAP_W * MAP_H))) by reflexivity. lia. }
  rewrite Eloop. destruct b.
  - left. split; [assumption|].
    assert (Ht : visited vis (tx, ty)).
    { pose proof (i_pend _ _ _ _ HI) as Hp. now inversion Hp. }
    destruct (backtrack_inv _ _ _ _ HI BFS_FUEL (tx, ty) O Ht)
      as (r & Hr & Hs & Hw); auto.
    + constructor.
    + pose proof (i_bound _ _ _ _ HI _ Ht).
      unfold BFS_FUEL. replace (Z.to_nat (MAP_W * MAP_H + 1))
        with (S (Z.to_nat (MAP_W * MAP_H))) by reflexivity. lia.
    + exists r, (lv (tx, ty) - 1)%nat. split; [exact Hr|].
      split; [assumption|]. split; [assumption|].
      intros n Hn. pose proof (i_min _ _ _ _ HI _ n Ht Hn).
      destruct (i_par _ _ _ _ HI (tx, ty) Ht) as (_ & E & _); [congruence|].
      lia.
  - right. split; [assumption|]. split; [|reflexivity].
    intros n Hn. pose proof (inv_empty_closed _ _ _ HI n _ Hn) as Ht.
    apply (i_target _ _ _ _ HI) in Ht. destruct Ht.
Qed.
End Search.
End Graph.

(** ** Manhattan distance and the 4-neighbour graph *)

Lemma dirs_manhattan (a b : Cell) :
  (exists d, In d dirs /\ b = move a d) <-> manhattan a b = 1.
Proof.
  unfold manhattan, move, dirs. destruct a as [ax ay], b as [bx by_]. simpl.
  split.
  - intros (d & Hd & E). injection E as -> ->.
    destruct Hd as [<-|[<-|[<-|[<-|[]]]]]; simpl; lia.
  - intros H.
    assert (Hc : (bx = ax + 1 /\ by_ = ay + 0) \/ (bx = ax + -1 /\ by_ = ay + 0) \/
                 (bx = ax + 0 /\ by_ = ay + 1) \/ (bx = ax + 0 /\ by_ = ay + -1))
      by lia.
    destruct Hc as [[-> ->]|[[-> ->]|[[-> ->]|[-> ->]]]];
      [exists (1, 0)|exists (-1, 0)|exists (0, 1)|exists (0, -1)];
      simpl; auto 6.
Qed.

(** The moves of the search are the moves to a free cell at distance 1. *)
Lemma step_iff_adjacent map tx ty occupied (a b : Cell) :
  step map tx ty occupied a b <->
  manhattan a b = 1 /\ free map tx ty occupied b.
Proof. unfold step. now rewrite dirs_manhattan. Qed.

Lemma manhattan_triangle (a b c : Cell) :
  manhattan a c <= manhattan a b + manhattan b c.
Proof. unfold manhattan. lia. Qed.

Lemma walk_manhattan map tx ty occupied (a b : Cell) (n : nat) :
  walk map tx ty occupied a n b -> manhattan a b <= Z.of_nat n.
Proof.
  induction 1 as [|n b c Hw IH Hs].
  - unfold manhattan. lia.
  - apply step_iff_adjacent in Hs as [Hs _].
    pose proof (manhattan_triangle a b c). lia.
Qed.

(** On a grid that is Floor everywhere, with no obstacle, two cells are
    joined by a path as long as their Manhattan distance. *)
Lemma open_walk map tx ty :
  (forall x y, in_bounds x y -> tile map x y = FLOOR) ->
  forall (k : nat) (a b : Cell),
    in_bounds (fst a) (snd a) -> in_bounds (fst b) (snd b) ->
    manhattan a b = Z.of_nat k -> walk map tx ty [] a k b.
Proof.
  intros Hopen.
  assert (Hfree : forall c, in_bounds (fst c) (snd c) -> free map tx ty [] c).
  { intros c Hc. split; [assumption|]. split; [now apply Hopen|]. right. auto. }
  induction k as [|k IH]; intros [ax ay] [bx by_] Ha Hb Hm;
    unfold manhattan, in_bounds in *; simpl in *.
  - assert (ax = bx /\ ay = by_) as [-> ->] by lia. constructor.
  - assert (Hc : ax < bx \/ bx < ax \/ (ax = bx /\ ay < by_) \/
                 (ax = bx /\ by_ < ay)) by lia.
    destruct Hc as [Hc|[Hc|[[-> Hc]|[-> Hc]]]].
    + apply walk_cons with (ax + 1, ay).
      * apply step_iff_adjacent. split; [unfold manhattan; simpl; lia|].
        apply Hfree. unfold in_bounds. simpl. lia.
      * apply IH; unfold in_bounds; simpl; lia.
    + apply walk_cons with (ax - 1, ay).
      * apply step_iff_adjacent. split; [unfold manhattan; simpl; lia|].
        apply Hfree. unfold in_bounds. simpl. lia.
      * apply IH; unfold in_bounds; simpl; lia.
    + apply walk_cons with (bx, ay + 1).
      * apply step_iff_adjacent. split; [unfold manhattan; simpl; lia|].
        apply Hfree. unfold in_bounds. simpl. lia.
      * apply IH; unfold in_bounds; simpl; lia.
    + apply walk_cons with (bx, ay - 1).
      * apply step_iff_adjacent. split; [unfold manhattan; simpl; lia|].
        apply Hfree. unfold in_bounds. simpl. lia.
      * apply IH; unfold in_bounds; simpl; lia.
Qed.

(** ** The greedy fallback, as the specification words it *)

Lemma freeb_true_iff map tx ty occupied (c : Cell) :
  freeb map tx ty occupied c = true <-> free map tx ty occupied c.
Proof.
  unfold freeb, free, is_floor.
  rewrite !andb_true_iff, orb_true_iff, !negb_true_iff, cell_eqb_eq.
  rewrite in_bounds_oob, Ascii.eqb_eq.
  rewrite <- not_true_iff_false, existsb_exists.
  assert (Hin : (exists x, In x occupied /\ cell_eqb c x = true)
                <-> In c occupied).
  { split.
    - intros (x & Hx & E). apply cell_eqb_eq in E. now subst.
    - intros H. exists c. split; [assumption|now apply cell_eqb_eq]. }
  rewrite Hin. tauto.
Qed.

Lemma negb_blocked_freeb map tx ty occupied (c : Cell) :
  negb (blocked map tx ty occupied (fst c) (snd c)) = freeb map tx ty occupied c.
Proof.
  destruct (freeb map tx ty occupied c) eqn:E.
  - apply freeb_true_iff, blocked_false_iff in E. now rewrite E.
  - destruct (blocked map tx ty occupied (fst c) (snd c)) eqn:Eb; auto.
    apply blocked_false_iff, freeb_true_iff in Eb. congruence.
Qed.

Lemma greedy_step_spec map sx sy tx ty occupied :
  greedy_step map sx sy tx ty occupied = greedy_spec map sx sy tx ty occupied.
Proof.
  unfold greedy_step, greedy_spec.
  assert (Ex : (if tx >? sx then 1 else if tx <? sx then -1 else 0)
               = Z.sgn (tx - sx)).
  { destruct (Z.gtb_spec tx sx); [|destruct (Z.ltb_spec tx sx)]; lia. }
  assert (Ey : (if ty >? sy then 1 else if ty <? sy then -1 else 0)
               = Z.sgn (ty - sy)).
  { destruct (Z.gtb_spec ty sy); [|destruct (Z.ltb_spec ty sy)]; lia. }
  rewrite Ex, Ey. clear Ex Ey. cbv zeta.
  rewrite Z.geb_leb.
  pose proof (negb_blocked_freeb map tx ty occupied
                (sx + Z.sgn (tx - sx), sy)) as Hh.
  pose proof (negb_blocked_freeb map tx ty occupied
                (sx, sy + Z.sgn (ty - sy))) as Hv.
  cbn [fst snd] in Hh, Hv. rewrite Hh, Hv.
  destruct (Z.abs (ty - sy) <=? Z.abs (tx - sx)); reflexivity.
Qed.

Lemma greedy_spec_cases map sx sy tx ty occupied :
  greedy_spec map sx sy tx ty occupied = (sx, sy) \/
  (manhattan (sx, sy) (greedy_spec map sx sy tx ty occupied) = 1 /\
   free map tx ty occupied (greedy_spec map sx sy tx ty occupied)).
Proof.
  unfold greedy_spec.
  assert (Hh : forall s, -1 <= s <= 1 -> (sx + s, sy) = (sx, sy) \/
                         manhattan (sx, sy) (sx + s, sy) = 1).
  { intros s Hs. destruct (Z.eq_dec s 0) as [->|]; [left; f_equal; lia|right].
    unfold manhattan. simpl. lia. }
  assert (Hv : forall s, -1 <= s <= 1 -> (sx, sy + s) = (sx, sy) \/
                         manhattan (sx, sy) (sx, sy + s) = 1).
  { intros s Hs. destruct (Z.eq_dec s 0) as [->|]; [left; f_equal; lia|right].
    unfold manhattan. simpl. lia. }
  specialize (Hh (Z.sgn (tx - sx)) ltac:(lia)).
  specialize (Hv (Z.sgn (ty - sy)) ltac:(lia)).
  pose proof (freeb_true_iff map tx ty occupied (sx + Z.sgn (tx - sx), sy)) as Fh.
  pose proof (freeb_true_iff map tx ty occupied (sx, sy + Z.sgn (ty - sy))) as Fv.
  destruct (Z.abs (ty - sy) <=? Z.abs (tx - sx));
    destruct (freeb map tx ty occupied (sx + Z.sgn (tx - sx), sy));
    destruct (freeb map tx ty occupied (sx, sy + Z.sgn (ty - sy)));
    tauto.
Qed.

(** ** The pathfinder's contract *)

(** [bfs_next_step] always returns, and what it returns is the start or a
    free cell next to the start. *)
Lemma bfs_next_step_result map sx sy tx ty occupied :
  in_bounds sx sy ->
  exists r,
    bfs_next_step map sx sy tx ty occupied = Some r /\
    (r = (sx, sy) \/
     (manhattan (sx, sy) r = 1 /\ free map tx ty occupied r)).
Proof.
  intros Hs.
  destruct (bfs_next_step_cases map tx ty occupied sx sy Hs)
    as [[_ E]|[(_ & r & d & E & Hst & _)|(_ & _ & E)]].
  - exists (sx, sy). auto.
  - exists r. split; [assumption|]. right. now apply step_iff_adjacent.
  - rewrite E, greedy_step_spec. eexists. split; [reflexivity|].
    apply greedy_spec_cases.
Qed.

(** C2: with start equal to target the pathfinder returns the start; when
    a path exists over 4-directional Floor adjacency (every obstacle cell
    blocked except the target itself) it returns the first cell after the
    start along a shortest such path; in particular on a fully open grid
    without obstacles the returned cell is strictly closer to the target in
    Manhattan distance than the start. *)
Theorem bfs_next_step_shortest map sx sy tx ty occupied :
  in_bounds sx sy ->
  ((sx, sy) = (tx, ty) ->
   bfs_next_step map sx sy tx ty occupied = Some (sx, sy)) /\
  ((sx, sy) <> (tx, ty) ->
   (exists n, walk map tx ty occupied (sx, sy) n (tx, ty)) ->
   exists r d,
     bfs_next_step map sx sy tx ty occupied = Some r /\
     step map tx ty occupied (sx, sy) r /\
     walk map tx ty occupied r d (tx, ty) /\
     forall n, walk map tx ty occupied (sx, sy) n (tx, ty) -> (S d <= n)%nat) /\
  ((sx, sy) <> (tx, ty) -> in_bounds tx ty ->
   (forall x y, in_bounds x y -> tile map x y = FLOOR) -> occupied = [] ->
   exists r,
     bfs_next_step map sx sy tx ty occupied = Some r /\
     manhattan r (tx, ty) < manhattan (sx, sy) (tx, ty)).
Proof.
  intros Hs.
  pose proof (bfs_next_step_cases map tx ty occupied sx sy Hs) as Hc.
  split; [|split].
  - intros E. destruct Hc as [[_ H]|[[H _]|[H _]]]; [assumption| |]; contradiction.
  - intros Hne [n Hn].
    destruct Hc as [[H _]|[(_ & r & d & H)|(_ & H & _)]];
      [contradiction| |elim (H n Hn)].
    exists r, d. exact H.
  - intros Hne Ht Hopen ->.
    assert (Hw : walk map tx ty [] (sx, sy)
                   (Z.to_nat (manhattan (sx, sy) (tx, ty))) (tx, ty)).
    { apply open_walk; auto. unfold manhattan. lia. }
    destruct Hc as [[H _]|[(_ & r & d & E & _ & Hrd & Hmin)|(_ & H & _)]];
      [contradiction| |elim (H _ Hw)].
    exists r. split; [assumption|].
    apply walk_manhattan in Hrd. apply Hmin in Hw. lia.
Qed.

(** C3: when no path from start to target exists the pathfinder takes the
    greedy step of the specification (larger axis first, ties to the
    horizontal axis, then the other axis, only onto a free cell, else the
    start); a start without Floor neighbours is returned unchanged; and
    the function always returns a value. *)
Theorem bfs_next_step_fallback map sx sy tx ty occupied :
  in_bounds sx sy ->
  (exists r, bfs_next_step map sx sy tx ty occupied = Some r) /\
  ((sx, sy) <> (tx, ty) ->
   (forall n, ~ walk map tx ty occupied (sx, sy) n (tx, ty)) ->
   bfs_next_step map sx sy tx ty occupied =
   Some (greedy_spec map sx sy tx ty occupied)) /\
  ((forall c, manhattan (sx, sy) c = 1 -> in_bounds (fst c) (snd c) ->
              tile map (fst c) (snd c) <> FLOOR) ->
   bfs_next_step map sx sy tx ty occupied = Some (sx, sy)).
Proof.
  intros Hs.
  pose proof (bfs_next_step_cases map tx ty occupied sx sy Hs) as Hc.
  split; [|split].
  - destruct (bfs_next_step_result map sx sy tx ty occupied Hs) as (r & E & _).
    now exists r.
  - intros Hne Hno.
    destruct Hc as [[H _]|[(_ & r & d & _ & Hst & Hrd & _)|(_ & _ & E)]].
    + contradiction.
    + elim (Hno (S d)). now apply walk_cons with r.
    + now rewrite E, greedy_step_spec.
  - intros Hwall.
    assert (Hnostep : forall r, ~ step map tx ty occupied (sx, sy) r).
    { intros r Hr. apply step_iff_adjacent in Hr as [Hm (Hb & Hf & _)].
      exact (Hwall r Hm Hb Hf). }
    destruct Hc as [[_ E]|[(_ & r & d & _ & Hst & _)|(_ & _ & E)]].
    + assumption.
    + elim (Hnostep r Hst).
    + rewrite E, greedy_step_spec. f_equal.
      destruct (greedy_spec_cases map sx sy tx ty occupied) as [|[Hm Hf]];
        [assumption|].
      elim (Hnostep (greedy_spec map sx sy tx ty occupied)).
      now apply step_iff_adjacent.
Qed.

(** The search order decides between equally short paths: from (5,5) to
    (6,6) the cell reached through the first direction, +x, is returned. *)
Example bfs_tie_break :
  bfs_next_step open_grid 5 5 6 6 [] = Some (6, 5).
Proof. vm_compute. reflexivity. Qed.

(** The cell (9,2) of [walled_grid] has no Floor neighbour. *)
Example bfs_walled_in :
  bfs_next_step walled_grid 9 2 3 7 [] = Some (9, 2).
Proof. vm_compute. reflexivity. Qed.

(** An enemy at (1,1) shut off from the player by three others takes the
    greedy step: along x towards (5,1); towards (1,5) the step along y is
    occupied and there is no distance along x, so it stays. *)
Example bfs_greedy_fallback :
  bfs_next_step walled_grid 1 1 5 1 [(3, 1); (1, 2); (2, 2)] = Some (2, 1) /\
  bfs_next_step walled_grid 1 1 1 5 [(3, 1); (1, 2); (2, 2)] = Some (1, 1).
Proof. split; vm_compute; reflexivity. Qed.

(** ** Random draws *)

Lemma rnd_range (a b : Z) (g : RNG) : a <= b -> a <= fst (rnd a b g) <= b.
Proof.
  intros H. unfold rnd. cbn [fst].
  pose proof (Z.mod_pos_bound (g O) (b - a + 1)). lia.
Qed.

(** Every value of the range is the result of some draw. *)
Lemma rnd_onto (a b v : Z) :
  a <= v <= b -> exists g, fst (rnd a b g) = v.
Proof.
  intros H. exists (fun _ => v - a). unfold rnd. cbn [fst].
  rewrite Z.mod_small; lia.
Qed.

(** ** Carving *)

Lemma grows_refl m : Arr2.wf m -> grows m m.
Proof. now split. Qed.

Lemma grows_trans m1 m2 m3 : grows m1 m2 -> grows m2 m3 -> grows m1 m3.
Proof. intros [_ H1] [W H2]. split; auto. Qed.

Lemma set_floor_grows m x y :
  Arr2.wf m -> in_bounds x y -> grows m (Arr2.set m x y FLOOR).
Proof.
  intros Hwf Hb. split; [now apply Arr2Facts.wf_set|].
  intros x' y' Hf. unfold tile in *.
  destruct (cell_eq_dec (x, y) (x', y')) as [E|E].
  - injection E as <- <-. now apply Arr2Facts.get_set_eq.
  - now rewrite Arr2Facts.get_set_ne.
Qed.

Lemma tile_set_floor m x y :
  Arr2.wf m -> in_bounds x y -> tile (Arr2.set m x y FLOOR) x y = FLOOR.
Proof. intros. now apply Arr2Facts.get_set_eq. Qed.

Lemma carve_cell_grows m x y : Arr2.wf m -> grows m (carve_cell m x y).
Proof.
  intros Hwf. unfold carve_cell.
  destruct ((x >=? 0) && (x <? MAP_W) && (y >=? 0) && (y <? MAP_H)) eqn:E.
  - apply set_floor_grows; auto. unfold in_bounds. lia.
  - now apply grows_refl.
Qed.

Lemma tile_carve_cell m x y :
  Arr2.wf m -> in_bounds x y -> tile (carve_cell m x y) x y = FLOOR.
Proof.
  intros Hwf Hb. unfold carve_cell.
  replace ((x >=? 0) && (x <? MAP_W) && (y >=? 0) && (y <? MAP_H)) with true
    by (unfold in_bounds in Hb; lia).
  now apply tile_set_floor.
Qed.

Lemma fold_grows {B : Type} (f : Grid -> B -> Grid) (l : list B) :
  (forall m b, Arr2.wf m -> grows m (f m b)) ->
  forall m, Arr2.wf m -> grows m (fold_left f l m).
Proof.
  intros Hf. induction l as [|b l IH]; intros m Hwf; simpl.
  - now apply grows_refl.
  - apply grows_trans with (f m b); [now apply Hf|].
    apply IH. apply (Hf m b Hwf).
Qed.

(** A fold of carving steps leaves Floor at [(x, y)] as soon as one of its
    steps does. *)
Lemma fold_carves {B : Type} (f : Grid -> B -> Grid) (l : list B) (x y : Z) :
  (forall m b, Arr2.wf m -> grows m (f m b)) ->
  (exists b, In b l /\ forall m, Arr2.wf m -> tile (f m b) x y = FLOOR) ->
  forall m, Arr2.wf m -> tile (fold_left f l m) x y = FLOOR.
Proof.
  intros Hf (b & Hb & Hset). induction l as [|a l IH]; intros m Hwf.
  - destruct Hb.
  - simpl. destruct Hb as [->|Hb].
    + apply (fold_grows f l Hf (f m b)); [apply (Hf m b Hwf)|now apply Hset].
    + apply IH; auto. apply (Hf m a Hwf).
Qed.

Lemma carve_room_grows m r : Arr2.wf m -> grows m (carve_room m r).
Proof.
  intros Hwf. unfold carve_room. apply fold_grows; auto.
  intros m' yy Hwf'. apply fold_grows; auto.
  intros m'' xx Hwf''. now apply carve_cell_grows.
Qed.

Lemma tile_carve_room m r x y :
  Arr2.wf m -> in_bounds x y ->
  r_x r <= x < r_x r + r_w r -> r_y r <= y < r_y r + r_h r ->
  tile (carve_room m r) x y = FLOOR.
Proof.
  intros Hwf Hb Hx Hy. unfold carve_room. apply fold_carves; auto.
  - intros m' yy Hwf'. apply fold_grows; auto.
    intros m'' xx Hwf''. now apply carve_cell_grows.
  - exists y. split; [now apply in_zfor|].
    intros m' Hwf'. apply fold_carves; auto.
    + intros m'' xx Hwf''. now apply carve_cell_grows.
    + exists x. split; [now apply in_zfor|].
      intros m'' Hwf''. now apply tile_carve_cell.
Qed.

Lemma carve_h_grows m x1 x2 y : Arr2.wf m -> grows m (carve_h m x1 x2 y).
Proof.
  intros Hwf. unfold carve_h. destruct (x2 <? x1);
    apply fold_grows; auto; intros; now apply carve_cell_grows.
Qed.

Lemma carve_v_grows m y1 y2 x : Arr2.wf m -> grows m (carve_v m y1 y2 x).
Proof.
  intros Hwf. unfold carve_v. destruct (y2 <? y1);
    apply fold_grows; auto; intros; now apply carve_cell_grows.
Qed.

Lemma connect_grows m prev r g :
  Arr2.wf m -> grows m (fst (connect m prev r g)).
Proof.
  intros Hwf. unfold connect. destruct (rnd 0 1 g) as [coin g'].
  destruct (coin =? 0); cbn [fst].
  - eapply grows_trans; [apply carve_h_grows; eassumption|].
    apply carve_v_grows. apply carve_h_grows. assumption.
  - eapply grows_trans; [apply carve_v_grows; eassumption|].
    apply carve_h_grows. apply carve_v_grows. assumption.
Qed.

Lemma tile_floor_in_bounds m x y :
  Arr2.wf m -> tile m x y = FLOOR -> in_bounds x y.
Proof.
  intros [Hl Hr] Hf. unfold tile, Arr2.get in Hf.
  destruct ((x <? 0) || (y <? 0)) eqn:Eneg; [discriminate|].
  destruct (Nat.lt_ge_cases (Z.to_nat y) (length m)) as [Hlt|Hge].
  - destruct (Nat.lt_ge_cases (Z.to_nat x)
                (length (nth (Z.to_nat y) m []))) as [Hx|Hx].
    + rewrite Forall_forall in Hr.
      rewrite (Hr (nth (Z.to_nat y) m [])) in Hx by (apply nth_In; lia).
      unfold in_bounds, MAP_W, MAP_H in *. lia.
    + rewrite nth_overflow in Hf by assumption. discriminate.
  - rewrite (nth_overflow m) in Hf by assumption.
    destruct (Z.to_nat x); discriminate.
Qed.

(** The unguarded store of the fallback loop. *)
Lemma set_floor_grows_any m x y :
  Arr2.wf m -> grows m (Arr2.set m x y FLOOR).
Proof.
  intros Hwf. destruct (in_bounds_dec x y) as [Hi|Hn].
  - now apply set_floor_grows.
  - split; [now apply Arr2Facts.wf_set|]. intros x' y' Hf.
    unfold tile. rewrite Arr2Facts.get_set_ne; auto.
    intros [= <- <-]. apply Hn. now apply tile_floor_in_bounds with m.
Qed.

Lemma carve_interior_grows m : Arr2.wf m -> grows m (carve_interior m).
Proof.
  intros Hwf. unfold carve_interior. apply fold_grows; auto.
  intros m' y Hwf'. apply fold_grows; auto.
  intros m'' x Hwf''. now apply set_floor_grows_any.
Qed.

Lemma tile_carve_interior m x y :
  Arr2.wf m -> 1 <= x < MAP_W - 1 -> 1 <= y < MAP_H - 1 ->
  tile (carve_interior m) x y = FLOOR.
Proof.
  intros Hwf Hx Hy.
  assert (Hb : in_bounds x y) by (unfold in_bounds; lia).
  unfold carve_interior. apply fold_carves; auto.
  - intros m' yy Hwf'. apply fold_grows; auto.
    intros m'' xx Hwf''. now apply set_floor_grows_any.
  - exists y. split; [now apply in_zfor|].
    intros m' Hwf'. apply fold_carves; auto.
    + intros m'' xx Hwf''. now apply set_floor_grows_any.
    + exists x. split; [now apply in_zfor|].
      intros m'' Hwf''. now apply tile_set_floor.
Qed.

(** ** The generator's invariants *)

Lemma any_floor_true map : any_floor map = true <-> has_floor map.
Proof.
  unfold any_floor, has_floor, is_floor. rewrite existsb_exists. split.
  - intros (c & Hc & E). exists (fst c), (snd c).
    split; [now apply in_all_cells|now apply Ascii.eqb_eq].
  - intros (x & y & Hb & E). exists (x, y).
    split; [now apply in_all_cells|now apply Ascii.eqb_eq].
Qed.

Lemma in_floor_tiles map c : In c (floor_tiles map) <-> floor_cell map c.
Proof.
  unfold floor_tiles, floor_cell, is_floor.
  rewrite filter_In, in_all_cells, Ascii.eqb_eq. tauto.
Qed.

(** On a grid with a Floor cell [random_floor_tile] returns a Floor cell. *)
Lemma random_floor_tile_floor map g :
  has_floor map -> floor_cell map (fst (random_floor_tile map g)).
Proof.
  intros (x & y & Hb & Hf). unfold random_floor_tile.
  assert (Hin : In (x, y) (floor_tiles map)) by (apply in_floor_tiles; now split).
  destruct (floor_tiles map) as [|c0 l] eqn:E; [destruct Hin|].
  rewrite <- E in *.
  pose proof (rnd_range 0 (Z.of_nat (length (floor_tiles map)) - 1) g) as Hr.
  destruct (rnd 0 (Z.of_nat (length (floor_tiles map)) - 1) g) as [k g'].
  cbn [fst] in *.
  assert (Hlen : (0 < length (floor_tiles map))%nat) by (rewrite E; simpl; lia).
  apply in_floor_tiles. apply nth_In. lia.
Qed.

Lemma center_in_room r :
  1 <= r_w r -> 1 <= r_h r ->
  r_x r <= centerX r < r_x r + r_w r /\ r_y r <= centerY r < r_y r + r_h r.
Proof.
  intros Hw Hh. unfold centerX, centerY.
  rewrite !Z.quot_div_nonneg by lia.
  pose proof (Z.div_pos (r_w r) 2). pose proof (Z.div_lt (r_w r) 2).
  pose proof (Z.div_pos (r_h r) 2). pose proof (Z.div_lt (r_h r) 2). lia.
Qed.

Lemma rooms_ok_grows map map' rooms :
  rooms_ok map rooms -> grows map map' -> rooms_ok map' rooms.
Proof.
  intros [_ Hr] [Hwf Hg]. split; [assumption|].
  eapply Forall_impl; [|exact Hr]. intros r [Hb Hf]. split; auto.
Qed.

Lemma rooms_loop_ok fuel : forall i rc map rooms g map' rooms' g',
  rooms_loop fuel i rc map rooms g = Some (map', rooms', g') ->
  rooms_ok map rooms -> rooms_ok map' rooms'.
Proof.
  induction fuel as [|fuel IH]; intros i rc map rooms g map' rooms' g' H Hok;
    [discriminate|].
  cbn [rooms_loop] in H.
  destruct (i <? rc); [|now injection H as <- <- <-].
  pose proof (rnd_range 3 8 g ltac:(lia)) as Hw.
  destruct (rnd 3 8 g) as [w g1]. cbn [fst] in Hw.
  pose proof (rnd_range 3 5 g1 ltac:(lia)) as Hh.
  destruct (rnd 3 5 g1) as [h g2]. cbn [fst] in Hh.
  pose proof (rnd_range 1 (MAP_W - w - 1) g2 ltac:(unfold MAP_W; lia)) as Hx.
  destruct (rnd 1 (MAP_W - w - 1) g2) as [x g3]. cbn [fst] in Hx.
  pose proof (rnd_range 1 (MAP_H - h - 1) g3 ltac:(unfold MAP_H; lia)) as Hy.
  destruct (rnd 1 (MAP_H - h - 1) g3) as [y g4]. cbn [fst] in Hy.
  set (r := mkRect x y w h) in *.
  destruct (existsb (intersects r) rooms); [now apply IH in H|].
  assert (Hwf1 : grows map (carve_room map r))
    by (apply carve_room_grows, Hok).
  assert (Hg2 : grows (carve_room map r)
                  (fst (match rooms with
                        | [] => (carve_room map r, g4)
                        | _ :: _ => connect (carve_room map r) (last rooms r) r g4
                        end))).
  { destruct rooms; [apply grows_refl, Hwf1|apply connect_grows, Hwf1]. }
  destruct (match rooms with
            | [] => (carve_room map r, g4)
            | _ :: _ => connect (carve_room map r) (last rooms r) r g4
            end) as [map2 g5].
  cbn [fst] in Hg2. apply IH in H; auto.
  split; [apply Hg2|]. apply Forall_app. split.
  - apply (rooms_ok_grows map map2 rooms Hok).
    now apply grows_trans with (carve_room map r).
  - constructor; [|constructor].
    destruct (center_in_room r) as [Hcx Hcy]; [simpl; lia..|].
    assert (Hb : in_bounds (centerX r) (centerY r)).
    { unfold in_bounds, MAP_W, MAP_H in *. simpl in Hcx, Hcy. lia. }
    split; [exact Hb|]. apply Hg2. cbn [fst snd].
    apply tile_carve_room; auto. apply Hok.
Qed.

Lemma rooms_ok_empty : rooms_ok create_empty_map [].
Proof. split; [apply Arr2Facts.wf_make|constructor]. Qed.

(** What [generate_map_basic] establishes. *)
Lemma generate_map_basic_ok fuel g map rooms g' :
  generate_map_basic fuel g = Some (map, rooms, g') ->
  rooms_ok map rooms /\ has_floor map.
Proof.
  unfold generate_map_basic. destruct (rnd 3 6 g) as [rc g1].
  destruct (rooms_loop fuel 0 rc create_empty_map [] g1)
    as [[[m rs] g2]|] eqn:E; [|discriminate].
  intros [= <- <- <-].
  apply rooms_loop_ok in E; [|apply rooms_ok_empty].
  destruct (any_floor m) eqn:Ea.
  - split; [assumption|now apply any_floor_true].
  - split.
    + apply (rooms_ok_grows m); auto. apply carve_interior_grows, E.
    + exists 1, 1. split; [unfold in_bounds, MAP_W, MAP_H; lia|].
      apply tile_carve_interior; [apply E|unfold MAP_W; lia|unfold MAP_H; lia].
Qed.

Lemma tile_set_inv m a b x y :
  tile (Arr2.set m a b FLOOR) x y = FLOOR ->
  (x, y) = (a, b) \/ tile m x y = FLOOR.
Proof.
  intros H. destruct (cell_eq_dec (a, b) (x, y)) as [E|E]; [now left|right].
  unfold tile in *. now rewrite Arr2Facts.get_set_ne in H.
Qed.

Lemma tile_carve_interior_inv m x y :
  tile (carve_interior m) x y = FLOOR ->
  tile m x y = FLOOR \/ (1 <= x < MAP_W - 1 /\ 1 <= y < MAP_H - 1).
Proof.
  unfold carve_interior.
  assert (Hrow : forall b xs m0,
            tile (fold_left (fun m' a => Arr2.set m' a b FLOOR) xs m0) x y = FLOOR ->
            tile m0 x y = FLOOR \/ (In x xs /\ y = b)).
  { intros b xs. induction xs as [|a xs IH]; intros m0 H; cbn [fold_left] in H; [now left|].
    apply IH in H as [H|[H ->]]; [|right; split; [now right|reflexivity]].
    apply tile_set_inv in H as [[= -> ->]|H]; [right|now left].
    split; [now left|reflexivity]. }
  assert (Hall : forall ys m0,
            tile (fold_left
                    (fun m1 b => fold_left (fun m' a => Arr2.set m' a b FLOOR)
                                           (zfor 1 (MAP_W - 1)) m1) ys m0) x y
            = FLOOR ->
            tile m0 x y = FLOOR \/ (In x (zfor 1 (MAP_W - 1)) /\ In y ys)).
  { induction ys as [|b ys IH]; intros m0 H; cbn [fold_left] in H; [now left|].
    apply IH in H as [H|[Hx Hy]]; [|right; split; [assumption|now right]].
    apply Hrow in H as [H|[Hx ->]]; [now left|right].
    split; [assumption|now left]. }
  intros H. apply Hall in H as [H|[Hx Hy]]; [now left|right].
  apply in_zfor in Hx, Hy. lia.
Qed.

Lemma tile_carve_interior_outside m x y :
  ~ (1 <= x < MAP_W - 1 /\ 1 <= y < MAP_H - 1) ->
  tile (carve_interior m) x y = tile m x y.
Proof.
  intros Hout. unfold carve_interior.
  assert (Hrow : forall b xs m0,
            ~ In x xs \/ y <> b ->
            tile (fold_left (fun m' a => Arr2.set m' a b FLOOR) xs m0) x y
            = tile m0 x y).
  { intros b xs. induction xs as [|a xs IH]; intros m0 H; cbn [fold_left];
      [reflexivity|].
    rewrite IH by (destruct H as [H|H]; [left; intros Hin; apply H; now right
                                        |now right]).
    unfold tile. apply Arr2Facts.get_set_ne. intros [= -> ->].
    destruct H as [H|H]; [apply H; now left|now apply H]. }
  assert (Hall : forall ys m0,
            ~ In x (zfor 1 (MAP_W - 1)) \/ ~ In y ys ->
            tile (fold_left
                    (fun m1 b => fold_left (fun m' a => Arr2.set m' a b FLOOR)
                                           (zfor 1 (MAP_W - 1)) m1) ys m0) x y
            = tile m0 x y).
  { induction ys as [|b ys IH]; intros m0 H; cbn [fold_left]; [reflexivity|].
    rewrite IH by (destruct H as [H|H]; [now left
                                        |right; intros Hin; apply H; now right]).
    apply Hrow. destruct H as [H|H]; [now left|right].
    intros ->. apply H. now left. }
  apply Hall. rewrite !in_zfor. lia.
Qed.

(** C8: every grid the generator produces has a Floor cell.  The grid
    returned is the grid left by room carving passed through the fallback
    step.  That step, on any grid of the right shape, yields a grid with a
    Floor cell: it returns a grid that has a Floor cell as it is, and on a
    grid that has none it makes exactly the interior (all but a 1-cell
    border) Floor and leaves the border as it was. *)
Theorem generate_map_basic_has_floor :
  (forall fuel g map rooms g',
     generate_map_basic fuel g = Some (map, rooms, g') ->
     has_floor map /\
     exists carved,
       rooms_loop fuel 0 (fst (rnd 3 6 g)) create_empty_map []
                  (snd (rnd 3 6 g))
       = Some (carved, rooms, g') /\
       Arr2.wf carved /\
       map = (if any_floor carved then carved else carve_interior carved)) /\
  (forall m,
     Arr2.wf m ->
     let m' := if any_floor m then m else carve_interior m in
     Arr2.wf m' /\ has_floor m' /\
     (any_floor m = true -> m' = m) /\
     (any_floor m = false ->
      forall x y,
        (tile m' x y = FLOOR <->
         1 <= x < MAP_W - 1 /\ 1 <= y < MAP_H - 1) /\
        (~ (1 <= x < MAP_W - 1 /\ 1 <= y < MAP_H - 1) ->
         tile m' x y = tile m x y))).
Proof.
  split.
  - intros fuel g map rooms g' H.
    split; [now apply generate_map_basic_ok in H|].
    unfold generate_map_basic in H. destruct (rnd 3 6 g) as [rc g1].
    cbn [fst snd].
    destruct (rooms_loop fuel 0 rc create_empty_map [] g1)
      as [[[m rs] g2]|] eqn:E; [|discriminate].
    injection H as <- <- <-. exists m. split; [reflexivity|].
    apply rooms_loop_ok in E; [|apply rooms_ok_empty].
    split; [apply E|reflexivity].
  - intros m Hwf m'. subst m'. destruct (any_floor m) eqn:Ea.
    + split; [assumption|]. split; [now apply any_floor_true|].
      split; [reflexivity|discriminate].
    + split; [apply carve_interior_grows, Hwf|]. split.
      { exists 1, 1. split; [unfold in_bounds, MAP_W, MAP_H; lia|].
        apply tile_carve_interior;
          [assumption|unfold MAP_W; lia|unfold MAP_H; lia]. }
      split; [discriminate|]. intros _ x y. split.
      * split.
        -- intros Hf.
           apply tile_carve_interior_inv in Hf as [Hf|]; [|assumption].
           assert (has_floor m) as Hm.
           { exists x, y. split; [|assumption].
             now apply tile_floor_in_bounds with m. }
           apply any_floor_true in Hm. congruence.
        -- intros [Hx Hy]. now apply tile_carve_interior.
      * apply tile_carve_interior_outside.
Qed.

(** ** Placement *)

Lemma existsb_enemy_at x y es :
  existsb (enemy_at x y) es = false <-> ~ In (x, y) (List.map e_pos es).
Proof.
  rewrite <- not_true_iff_false, existsb_exists, in_map_iff.
  unfold enemy_at, e_pos. split; intros H (e & H1 & H2); apply H; exists e.
  - injection H1 as <- <-. rewrite !Z.eqb_refl. auto.
  - split; [|assumption]. apply andb_true_iff in H2 as [E1 E2].
    apply Z.eqb_eq in E1, E2. congruence.
Qed.

Lemma existsb_item_at x y its :
  existsb (item_at x y) its = false <-> ~ In (x, y) (List.map it_pos its).
Proof.
  rewrite <- not_true_iff_false, existsb_exists, in_map_iff.
  unfold item_at, it_pos. split; intros H (e & H1 & H2); apply H; exists e.
  - injection H1 as <- <-. rewrite !Z.eqb_refl. auto.
  - split; [|assumption]. apply andb_true_iff in H2 as [E1 E2].
    apply Z.eqb_eq in E1, E2. congruence.
Qed.

Lemma NoDup_snoc {B : Type} (l : list B) (b : B) :
  NoDup l -> ~ In b l -> NoDup (l ++ [b]).
Proof.
  intros Hl Hb. apply NoDup_app; auto.
  - constructor; [intros []|constructor].
  - intros a Ha [<-|[]]. contradiction.
Qed.

Lemma enemies_loop_ok fuel : forall i ecount map px py cfg es g es' g',
  has_floor map ->
  enemies_loop fuel i ecount map px py cfg es g = Some (es', g') ->
  enemies_placed map px py es -> enemies_placed map px py es'.
Proof.
  induction fuel as [|fuel IH]; intros i ecount map px py cfg es g es' g' Hfl H Hok;
    [discriminate|].
  cbn [enemies_loop] in H.
  destruct (i <? ecount); [|now injection H as <- <-].
  pose proof (random_floor_tile_floor map g Hfl) as Hp.
  destruct (random_floor_tile map g) as [p g1]. cbn [fst] in Hp.
  destruct ((fst p =? px) && (snd p =? py)) eqn:Epl; [now apply IH in H|].
  destruct (existsb (enemy_at (fst p) (snd p)) es) eqn:Ecl; [now apply IH in H|].
  destruct (rnd (enemyHpMin cfg) (enemyHpMax cfg) g1) as [hp g2].
  apply IH in H; auto.
  destruct Hok as (Ha & Hnd & Hfc).
  apply existsb_enemy_at in Ecl.
  rewrite <- not_true_iff_false, coords_eqb in Epl.
  unfold enemies_placed. rewrite map_app. cbn [List.map].
  change (e_pos (mkEnemy (fst p) (snd p) hp true)) with (fst p, snd p).
  replace (fst p, snd p) with p by now destruct p.
  replace (fst p, snd p) with p in Ecl by now destruct p.
  split; [|split].
  - apply Forall_app. split; [assumption|]. now repeat constructor.
  - now apply NoDup_snoc.
  - apply Forall_app. split; [assumption|].
    constructor; [repeat split; solve [assumption|apply Hp]|constructor].
Qed.

Lemma items_loop_ok fuel : forall i pcount map px py es its g its' g',
  has_floor map ->
  items_loop fuel i pcount map px py es its g = Some (its', g') ->
  items_placed map px py es its -> items_placed map px py es its'.
Proof.
  induction fuel as [|fuel IH]; intros i pcount map px py es its g its' g' Hfl H Hok;
    [discriminate|].
  cbn [items_loop] in H.
  destruct (i <? pcount); [|now injection H as <- <-].
  pose proof (random_floor_tile_floor map g Hfl) as Hp.
  destruct (random_floor_tile map g) as [p g1]. cbn [fst] in Hp.
  destruct ((fst p =? px) && (snd p =? py)) eqn:Epl; [now apply IH in H|].
  destruct (existsb (item_at (fst p) (snd p)) its
            || existsb (enemy_at (fst p) (snd p)) es) eqn:Ecl;
    [now apply IH in H|].
  apply IH in H; auto.
  destruct Hok as (Hnd & Hfc).
  apply orb_false_iff in Ecl as [Eit Een].
  apply existsb_item_at in Eit. apply existsb_enemy_at in Een.
  rewrite <- not_true_iff_false, coords_eqb in Epl.
  unfold items_placed. rewrite map_app. cbn [List.map].
  change (it_pos (mkItem (fst p) (snd p))) with (fst p, snd p).
  replace (fst p, snd p) with p by now destruct p.
  replace (fst p, snd p) with p in Eit, Een by now destruct p.
  split.
  - now apply NoDup_snoc.
  - apply Forall_app. split; [assumption|].
    constructor; [repeat split; solve [assumption|apply Hp]|constructor].
Qed.

(** What [regenerate_map] establishes: the invariants of its two placement
    loops, around a player on a Floor cell. *)
Lemma regenerate_map_placed fuel diff g p :
  regenerate_map fuel diff g = Some p ->
  floor_cell (p_map p) (p_playerX p, p_playerY p) /\
  enemies_placed (p_map p) (p_playerX p) (p_playerY p) (p_enemies p) /\
  items_placed (p_map p) (p_playerX p) (p_playerY p) (p_enemies p) (p_items p).
Proof.
  unfold regenerate_map.
  destruct (generate_map_basic fuel g) as [[[map rooms] g1]|] eqn:Eg;
    [|discriminate].
  apply generate_map_basic_ok in Eg as [[Hwf Hrooms] Hfl].
  set (pl := match rooms with
             | r0 :: _ => (centerX r0, centerY r0, g1)
             | [] => let (p0, g0) := random_floor_tile map g1 in
                     (fst p0, snd p0, g0)
             end).
  assert (Hpl : floor_cell map (fst (fst pl), snd (fst pl))).
  { unfold pl. destruct rooms as [|r0 rs].
    - pose proof (random_floor_tile_floor map g1 Hfl) as H0.
      destruct (random_floor_tile map g1) as [p0 g0]. exact H0.
    - now inversion Hrooms. }
  destruct pl as [[px py] g2]. cbn [fst snd] in Hpl.
  destruct (rnd (enemyMin (diffConfigs diff)) (enemyMax (diffConfigs diff)) g2)
    as [ecount g3].
  destruct (enemies_loop fuel 0 ecount map px py (diffConfigs diff) [] g3)
    as [[es g4]|] eqn:Ee; [|discriminate].
  apply enemies_loop_ok in Ee; auto;
    [|split; [constructor|split; constructor]].
  destruct (rnd (potionMin (diffConfigs diff)) (potionMax (diffConfigs diff)) g4)
    as [pcount g5].
  destruct (items_loop fuel 0 pcount map px py es [] g5)
    as [[its g6]|] eqn:Ei; [|discriminate].
  apply items_loop_ok in Ei; auto; [|split; constructor].
  destruct (rnd (enemyAtkMin (diffConfigs diff)) (enemyAtkMax (diffConfigs diff)) g6)
    as [dmg g7].
  intros [= <-]. cbn [p_playerX p_playerY p_enemies p_items p_map]. auto.
Qed.

(** C7: in every initial session produced by placement, the player's
    cell, the enemies' cells and the potions' cells are pairwise distinct
    and all of them are Floor cells of the generated grid. *)
Theorem regenerate_map_distinct_floor fuel diff g p :
  regenerate_map fuel diff g = Some p ->
  NoDup ((p_playerX p, p_playerY p)
           :: List.map e_pos (p_enemies p) ++ List.map it_pos (p_items p)) /\
  Forall (floor_cell (p_map p))
         ((p_playerX p, p_playerY p)
            :: List.map e_pos (p_enemies p) ++ List.map it_pos (p_items p)).
Proof.
  intros H.
  destruct (regenerate_map_placed fuel diff g p H)
    as (Hpl & (_ & Hnde & Hfe) & (Hndi & Hfi)).
  rewrite Forall_forall in Hfe, Hfi.
  split.
  - constructor.
    + intros Hin. apply in_app_or in Hin as [Hin|Hin].
      * now apply Hfe in Hin.
      * apply Hfi in Hin. tauto.
    + apply NoDup_app; auto.
      intros c Hce Hci. apply Hfi in Hci. tauto.
  - constructor; [assumption|]. apply Forall_app.
    split; apply Forall_forall; intros c Hc.
    + now apply Hfe in Hc.
    + now apply Hfi in Hc.
Qed.

(** ** Live enemies *)

Lemma live_cells_app es1 es2 :
  live_cells (es1 ++ es2) = live_cells es1 ++ live_cells es2.
Proof. unfold live_cells. now rewrite filter_app, map_app. Qed.

Lemma live_cells_cons e es :
  live_cells (e :: es) =
  if e_alive e then e_pos e :: live_cells es else live_cells es.
Proof. unfold live_cells. simpl. now destruct (e_alive e). Qed.

Lemma in_live_cells c es :
  In c (live_cells es) <-> exists e, In e es /\ e_alive e = true /\ e_pos e = c.
Proof.
  unfold live_cells. rewrite in_map_iff. split.
  - intros (e & E & H). apply filter_In in H. exists e. tauto.
  - intros (e & H & Ha & E). exists e. rewrite filter_In. tauto.
Qed.

Lemma list_upd_app {B : Type} (f : B -> B) (l1 l2 : list B) (b : B) :
  list_upd (length l1) f (l1 ++ b :: l2) = l1 ++ f b :: l2.
Proof. induction l1 as [|a l1 IH]; simpl; [reflexivity|now f_equal]. Qed.

Lemma erase_app {B : Type} (l1 l2 : list B) (b : B) :
  erase (length l1) (l1 ++ b :: l2) = l1 ++ l2.
Proof. induction l1 as [|a l1 IH]; simpl; [reflexivity|now f_equal]. Qed.

(** [enemy_index_at] finds the first live enemy on the cell, if any. *)
Lemma enemy_index_from_spec x y es : forall i,
  0 <= i ->
  (enemy_index_from i es x y = -1 /\ ~ In (x, y) (live_cells es)) \/
  (exists l1 e l2,
     es = l1 ++ e :: l2 /\
     enemy_index_from i es x y = i + Z.of_nat (length l1) /\
     e_alive e = true /\ e_pos e = (x, y) /\
     ~ In (x, y) (live_cells l1)).
Proof.
  induction es as [|e es IH]; intros i Hi; simpl.
  - left. split; [reflexivity|intros []].
  - destruct (e_alive e && (e_x e =? x) && (e_y e =? y)) eqn:E.
    + right. exists [], e, es. simpl.
      rewrite !andb_true_iff, !Z.eqb_eq in E. destruct E as [[Ha Ex] Ey].
      unfold e_pos. rewrite Ex, Ey.
      repeat split; auto. lia.
    + assert (Hne : ~ (e_alive e = true /\ e_pos e = (x, y))).
      { intros [Ha Ep]. unfold e_pos in Ep. injection Ep as Ex Ey.
        rewrite Ha, Ex, Ey, !Z.eqb_refl in E. discriminate. }
      destruct (IH (i + 1) ltac:(lia)) as [[E1 Hn]|(l1 & e1 & l2 & -> & E1 & Ha & Ep & Hn)].
      * left. split; [assumption|]. rewrite live_cells_cons.
        destruct (e_alive e) eqn:Ha; [|assumption].
        intros [Ep|Hin]; [apply Hne; auto|contradiction].
      * right. exists (e :: l1), e1, l2. simpl.
        split; [reflexivity|]. split; [lia|]. split; [assumption|].
        split; [assumption|]. rewrite live_cells_cons.
        destruct (e_alive e) eqn:Ha'; [|assumption].
        intros [Ep'|Hin]; [apply Hne; auto|contradiction].
Qed.

Lemma enemy_index_from_first x y l1 e l2 : forall i,
  ~ In (x, y) (live_cells l1) -> e_alive e = true -> e_pos e = (x, y) ->
  enemy_index_from i (l1 ++ e :: l2) x y = i + Z.of_nat (length l1).
Proof.
  induction l1 as [|a l1 IH]; intros i Hn Ha Ep.
  - simpl. unfold e_pos in Ep. injection Ep as -> ->.
    rewrite Ha, !Z.eqb_refl. simpl. lia.
  - rewrite live_cells_cons in Hn. cbn [app enemy_index_from].
    destruct (e_alive a && (e_x a =? x) && (e_y a =? y)) eqn:E.
    + rewrite !andb_true_iff, !Z.eqb_eq in E. destruct E as [[Ha' Ex] Ey].
      rewrite Ha' in Hn. elim Hn. left. unfold e_pos. congruence.
    + rewrite IH; auto.
      * cbn [length]. lia.
      * destruct (e_alive a); auto. intros H. apply Hn. now right.
Qed.

Lemma item_index_from_first x y l1 it l2 : forall i,
  ~ In (x, y) (List.map it_pos l1) -> it_pos it = (x, y) ->
  item_index_from i (l1 ++ it :: l2) x y = i + Z.of_nat (length l1).
Proof.
  induction l1 as [|a l1 IH]; intros i Hn Ep.
  - simpl. unfold it_pos in Ep. injection Ep as -> ->.
    rewrite !Z.eqb_refl. simpl. lia.
  - cbn [app item_index_from].
    destruct ((it_x a =? x) && (it_y a =? y)) eqn:E.
    + rewrite !andb_true_iff, !Z.eqb_eq in E. destruct E as [Ex Ey].
      elim Hn. left. unfold it_pos. congruence.
    + rewrite IH; auto.
      * cbn [length]. lia.
      * intros H. apply Hn. now right.
Qed.

(** ** Player action *)

(** C5: melee.  [e] is the live enemy on the destination (the first one in
    array order, which is the only one when live enemies stand on distinct
    cells).  The player's attack is subtracted from its hit points; at 0 or
    below it is no longer alive, the score grows by 10 and the player
    takes its cell; above 0 it stays alive and the player stays; in both
    cases the turn counter grows by 1 and nothing else changes.  The
    branch is guarded by [map[ny][nx] != '#'], which holds wherever a live
    enemy stands in a reachable state ([reachable_enemy_not_wall]). *)
Theorem player_action_melee s nx ny l1 e l2 :
  tile (st_map s) nx ny <> WALL ->
  st_enemies s = l1 ++ e :: l2 ->
  e_alive e = true -> e_pos e = (nx, ny) ->
  ~ In (nx, ny) (live_cells l1) ->
  let hp' := e_hp e - st_playerAttack s in
  let s' := player_action s nx ny in
  st_turns s' = st_turns s + 1 /\
  st_items s' = st_items s /\
  st_playerHP s' = st_playerHP s /\
  st_map s' = st_map s /\
  st_rng s' = st_rng s /\
  (hp' <= 0 ->
   st_enemies s' = l1 ++ mkEnemy (e_x e) (e_y e) hp' false :: l2 /\
   filter e_alive (st_enemies s') = filter e_alive l1 ++ filter e_alive l2 /\
   st_score s' = st_score s + 10 /\
   (st_playerX s', st_playerY s') = (nx, ny)) /\
  (hp' > 0 ->
   st_enemies s' = l1 ++ mkEnemy (e_x e) (e_y e) hp' true :: l2 /\
   st_score s' = st_score s /\
   (st_playerX s', st_playerY s') = (st_playerX s, st_playerY s)).
Proof.
  intros Hw Hes Ha Ep Hn hp' s'. subst s'. unfold player_action.
  destruct (Ascii.eqb (tile (st_map s) nx ny) WALL) eqn:Ew;
    [apply Ascii.eqb_eq in Ew; contradiction|].
  unfold enemy_index_at. rewrite Hes.
  rewrite (enemy_index_from_first nx ny l1 e l2 0 Hn Ha Ep).
  assert (Hidx : (0 + Z.of_nat (length l1) =? -1) = false)
    by (apply Z.eqb_neq; lia).
  rewrite Hidx.
  cbn [negb]. rewrite Z.add_0_l, Nat2Z.id, nth_middle. fold hp'.
  rewrite !list_upd_app.
  destruct (hp' <=? 0) eqn:Eh; cbn [st_turns st_items st_playerHP st_map st_rng
    st_enemies st_score st_playerX st_playerY];
    repeat split; auto; try lia.
  - rewrite filter_app. cbn [filter e_alive]. reflexivity.
  - now rewrite Ha.
Qed.

(** C6: healing.  [it] is the potion on the destination and no live enemy
    stands there.  The heal is a draw from 6..10 (each value possible), the
    hit points become [min maxHP (HP + heal)], the potion leaves the list
    and the player enters the cell; at [maxHP - 3] a roll of 10 gives
    exactly [maxHP].  The guard [map[ny][nx] != '#'] holds wherever a
    potion lies in a reachable state ([reachable_item_not_wall]). *)
Theorem player_action_pickup s nx ny l1 it l2 :
  tile (st_map s) nx ny <> WALL ->
  ~ In (nx, ny) (live_cells (st_enemies s)) ->
  st_items s = l1 ++ it :: l2 ->
  it_pos it = (nx, ny) ->
  ~ In (nx, ny) (List.map it_pos l1) ->
  let heal := fst (rnd 6 10 (st_rng s)) in
  let s' := player_action s nx ny in
  6 <= heal <= 10 /\
  (forall v, 6 <= v <= 10 -> exists g, fst (rnd 6 10 g) = v) /\
  st_playerHP s' = Z.min (st_playerMaxHP s) (st_playerHP s + heal) /\
  st_items s' = l1 ++ l2 /\
  (NoDup (List.map it_pos (st_items s)) ->
   ~ In (nx, ny) (List.map it_pos (st_items s'))) /\
  (st_playerX s', st_playerY s') = (nx, ny) /\
  st_turns s' = st_turns s + 1 /\
  st_enemies s' = st_enemies s /\
  st_score s' = st_score s /\
  (st_playerHP s = st_playerMaxHP s - 3 -> heal = 10 ->
   st_playerHP s' = st_playerMaxHP s).
Proof.
  intros Hw Hne Hits Ep Hn heal s'. subst s' heal. unfold player_action.
  destruct (Ascii.eqb (tile (st_map s) nx ny) WALL) eqn:Ew;
    [apply Ascii.eqb_eq in Ew; contradiction|].
  unfold enemy_index_at.
  destruct (enemy_index_from_spec nx ny (st_enemies s) 0 ltac:(lia))
    as [[Ei _]|(a & b & c & E & _ & Ha & Eb & _)].
  2:{ elim Hne. rewrite E, live_cells_app, live_cells_cons, Ha.
      apply in_or_app. right. now left. }
  rewrite Ei. change (-1 =? -1) with true. cbn [negb].
  unfold item_index_at. rewrite Hits.
  rewrite (item_index_from_first nx ny l1 it l2 0 Hn Ep).
  assert (Hidx : (0 + Z.of_nat (length l1) =? -1) = false)
    by (apply Z.eqb_neq; lia).
  rewrite Hidx.
  cbn [negb]. rewrite Z.add_0_l, Nat2Z.id, erase_app.
  pose proof (rnd_range 6 10 (st_rng s) ltac:(lia)) as Hr.
  destruct (rnd 6 10 (st_rng s)) as [heal g'].
  cbn [fst st_turns st_items st_playerHP st_map st_rng
       st_enemies st_score st_playerX st_playerY] in *.
  repeat split; auto; try lia.
  - intros v Hv. now apply rnd_onto.
  - intros Hnd Hin. rewrite map_app in Hnd. cbn [List.map] in Hnd.
    apply NoDup_remove_2 in Hnd. rewrite Ep, <- map_app in Hnd. contradiction.
Qed.

(** ** Resolution of the enemies' moves *)

Lemma draws_range a b g n :
  a <= b -> Forall (fun d => a <= d <= b) (draws a b g n).
Proof.
  intros H. revert g. induction n as [|n IH]; intros g; simpl; constructor.
  - now apply rnd_range.
  - apply IH.
Qed.

Lemma tile_floor_nonneg map x y : tile map x y = FLOOR -> 0 <= x.
Proof.
  unfold tile, Arr2.get. destruct (x <? 0) eqn:E; [discriminate|lia].
Qed.

Lemma reserved_count_true R c : reserved_count R c = true <-> In c R.
Proof.
  unfold reserved_count. rewrite existsb_exists. split.
  - intros (x & Hx & E). apply cell_eqb_eq in E. now subst.
  - intros H. exists c. split; [assumption|now apply cell_eqb_eq].
Qed.

Lemma legal_dec map R c : {legal map R c} + {~ legal map R c}.
Proof.
  unfold legal.
  destruct (ascii_dec (tile map (fst c) (snd c)) FLOOR) as [Hf|Hf];
    [|right; tauto].
  destruct (in_dec cell_eq_dec c R) as [Hi|Hi]; [right; tauto|left; tauto].
Qed.

(** One live enemy in the resolution loop. *)
Lemma resolve_one_spec map cfg px py e c r :
  let e' := fst (resolve_one map cfg px py e c r) in
  let r1 := snd (resolve_one map cfg px py e c r) in
  e_hp e' = e_hp e /\ e_alive e' = e_alive e /\
  rs_reserved r1 = e_pos e' :: rs_reserved r /\
  (c = (px, py) ->
   e' = e /\
   rs_hp r1 = rs_hp r - fst (rnd (enemyAtkMin cfg) (enemyAtkMax cfg) (rs_rng r)) /\
   rs_rng r1 = rng_tail (rs_rng r)) /\
  (c <> (px, py) ->
   rs_hp r1 = rs_hp r /\ rs_rng r1 = rs_rng r /\
   (legal map (rs_reserved r) c -> e_pos e' = c) /\
   (~ legal map (rs_reserved r) c -> e' = e)).
Proof.
  unfold resolve_one.
  destruct ((fst c =? px) && (snd c =? py)) eqn:Ec.
  - apply coords_eqb in Ec. cbn. repeat split; auto; intros; contradiction.
  - assert (Hc : c <> (px, py)).
    { intros H. apply coords_eqb in H. congruence. }
    set (b := if fst c <? 0 then true
              else negb (Ascii.eqb (tile map (fst c) (snd c)) FLOOR)
                   || reserved_count (rs_reserved r) c).
    assert (Hb : b = false <-> legal map (rs_reserved r) c).
    { unfold b, legal. split.
      - destruct (fst c <? 0); [discriminate|]. intros H.
        apply orb_false_iff in H as [H1 H2].
        apply negb_false_iff, Ascii.eqb_eq in H1.
        rewrite <- not_true_iff_false, reserved_count_true in H2. auto.
      - intros [Hf Hn]. pose proof (tile_floor_nonneg _ _ _ Hf).
        replace (fst c <? 0) with false by lia.
        apply orb_false_iff. split.
        + now apply negb_false_iff, Ascii.eqb_eq.
        + now rewrite <- not_true_iff_false, reserved_count_true. }
    destruct b; cbn.
    + repeat split; auto; try contradiction.
      intros Hl. apply Hb in Hl. discriminate.
    + repeat split; auto; try contradiction.
      * now destruct c.
      * intros _. now destruct c.
      * intros Hl. elim Hl. now apply Hb.
Qed.

Lemma resolve_moves_gen map cfg px py : forall es np R0 hp g es' r',
  length np = length es ->
  resolve_moves map cfg px py es np (mkResolve R0 hp g) = (es', r') ->
  length es' = length es /\
  (forall c, In c (rs_reserved r') <-> In c (live_cells es') \/ In c R0) /\
  rs_hp r' = hp - zsum (draws (enemyAtkMin cfg) (enemyAtkMax cfg) g
                          (attackers px py es np)) /\
  rs_rng r' = rng_drop (attackers px py es np) g /\
  forall i e c,
    nth_error es i = Some e -> nth_error np i = Some c ->
    exists e',
      nth_error es' i = Some e' /\
      e_hp e' = e_hp e /\ e_alive e' = e_alive e /\
      (e_alive e = false -> e' = e) /\
      (e_alive e = true -> c = (px, py) -> e_pos e' = e_pos e) /\
      (e_alive e = true -> c <> (px, py) ->
       (legal map (live_cells (firstn i es') ++ R0) c -> e_pos e' = c) /\
       (~ legal map (live_cells (firstn i es') ++ R0) c -> e_pos e' = e_pos e)).
Proof.
  induction es as [|e es IH]; intros np R0 hp g es' r' Hlen H.
  - destruct np; [|discriminate]. injection H as <- <-. cbn.
    repeat split; auto; try tauto; try lia.
    intros [] ? ? ?; discriminate.
  - destruct np as [|c np]; [discriminate|]. injection Hlen as Hlen.
    cbn [resolve_moves] in H.
    destruct (e_alive e) eqn:Ea; cbn [negb] in H.
    + pose proof (resolve_one_spec map cfg px py e c (mkResolve R0 hp g)) as Hone.
      destruct (resolve_one map cfg px py e c (mkResolve R0 hp g)) as [e1 r1].
      cbn [fst snd rs_reserved rs_hp rs_rng] in Hone.
      destruct Hone as (Hhp & Hal & Hres & Hatk & Hmov).
      destruct r1 as [R1 hp1 g1]. cbn [rs_reserved rs_hp rs_rng] in *.
      destruct (resolve_moves map cfg px py es np (mkResolve R1 hp1 g1))
        as [es1 r1'] eqn:Er.
      injection H as <- <-.
      destruct (IH np R1 hp1 g1 es1 r1' Hlen Er)
        as (Hl1 & Hr1 & Hh1 & Hg1 & Hidx).
      assert (Ea1 : e_alive e1 = true) by congruence.
      split; [cbn; lia|]. split; [|split; [|split]].
      * intros c0. rewrite Hr1, live_cells_cons, Ea1, Hres. cbn. tauto.
      * cbn [attackers]. rewrite Ea. cbn [andb].
        destruct (cell_eqb c (px, py)) eqn:Ec.
        -- apply cell_eqb_eq in Ec. destruct (Hatk Ec) as (_ & Ehp & Eg).
           subst hp1 g1. rewrite Hh1. cbn [Nat.add draws]. unfold zsum.
           cbn [fold_right].
           change (snd (rnd (enemyAtkMin cfg) (enemyAtkMax cfg) g))
             with (rng_tail g). lia.
        -- apply cell_eqb_neq in Ec. destruct (Hmov Ec) as (Ehp & Eg & _).
           subst hp1 g1. exact Hh1.
      * cbn [attackers]. rewrite Ea. cbn [andb].
        destruct (cell_eqb c (px, py)) eqn:Ec.
        -- apply cell_eqb_eq in Ec. destruct (Hatk Ec) as (_ & Ehp & Eg).
           subst hp1 g1. exact Hg1.
        -- apply cell_eqb_neq in Ec. destruct (Hmov Ec) as (Ehp & Eg & _).
           subst hp1 g1. exact Hg1.
      * intros [|i] e0 c0 He0 Hc0; cbn [nth_error] in *.
        -- injection He0 as <-. injection Hc0 as <-.
           exists e1. split; [reflexivity|]. split; [assumption|].
           split; [assumption|]. split; [congruence|]. split.
           ++ intros _ Ec. destruct (Hatk Ec) as (-> & _). reflexivity.
           ++ intros _ Ec. destruct (Hmov Ec) as (_ & _ & Hy & Hn).
              cbn [firstn live_cells List.map filter app].
              split; [exact Hy|]. intros Hl. now rewrite (Hn Hl).
        -- destruct (Hidx i e0 c0 He0 Hc0)
             as (e0' & Hn0 & Hh0 & Ha0 & Hd0 & Hat0 & Hmv0).
           exists e0'. split; [assumption|]. split; [assumption|].
           split; [assumption|]. split; [assumption|]. split; [assumption|].
           intros Hal0 Hc0'. specialize (Hmv0 Hal0 Hc0').
           assert (Hiff : legal map (live_cells (firstn (S i) (e1 :: es1)) ++ R0) c0
                          <-> legal map (live_cells (firstn i es1) ++ R1) c0).
           { unfold legal. cbn [firstn]. rewrite live_cells_cons, Ea1, Hres.
             rewrite !in_app_iff. cbn [In]. tauto. }
           rewrite Hiff. exact Hmv0.
    + destruct (resolve_moves map cfg px py es np (mkResolve R0 hp g))
        as [es1 r1'] eqn:Er.
      injection H as <- <-.
      destruct (IH np R0 hp g es1 r1' Hlen Er)
        as (Hl1 & Hr1 & Hh1 & Hg1 & Hidx).
      split; [cbn; lia|]. split; [|split; [|split]].
      * intros c0. rewrite Hr1, live_cells_cons, Ea. tauto.
      * cbn [attackers]. rewrite Ea. exact Hh1.
      * cbn [attackers]. rewrite Ea. exact Hg1.
      * intros [|i] e0 c0 He0 Hc0; cbn [nth_error] in *.
        -- injection He0 as <-. injection Hc0 as <-.
           exists e. repeat split; auto; congruence.
        -- destruct (Hidx i e0 c0 He0 Hc0)
             as (e0' & Hn0 & Hh0 & Ha0 & Hd0 & Hat0 & Hmv0).
           exists e0'. split; [assumption|]. split; [assumption|].
           split; [assumption|]. split; [assumption|]. split; [assumption|].
           intros Hal0 Hc0'. specialize (Hmv0 Hal0 Hc0').
           cbn [firstn]. rewrite live_cells_cons, Ea. exact Hmv0.
Qed.

Lemma diffConfigs_atk_range diff :
  enemyAtkMin (diffConfigs diff) <= enemyAtkMax (diffConfigs diff).
Proof. destruct diff; simpl; lia. Qed.

(** C1: resolution in array order with a reservation set.  The cells
    reserved when enemy [i] is processed are the cells where the live
    enemies before it ended up, [live_cells (firstn i es')].  A live enemy
    whose intended cell is not the player's moves there exactly when the
    cell is Floor and not reserved, and stays otherwise; one whose
    intended cell is the player's stays, and each such enemy costs the
    player one draw from the tier's attack range; every live enemy's final
    cell ends up reserved. *)
Theorem resolve_moves_reservation map diff px py es np hp g es' r' :
  length np = length es ->
  resolve_moves map (diffConfigs diff) px py es np (mkResolve [] hp g)
  = (es', r') ->
  let lo := enemyAtkMin (diffConfigs diff) in
  let hi := enemyAtkMax (diffConfigs diff) in
  let n := attackers px py es np in
  length es' = length es /\
  (forall i e c,
     nth_error es i = Some e -> nth_error np i = Some c ->
     exists e',
       nth_error es' i = Some e' /\
       e_hp e' = e_hp e /\ e_alive e' = e_alive e /\
       (e_alive e = false -> e' = e) /\
       (e_alive e = true -> c = (px, py) -> e_pos e' = e_pos e) /\
       (e_alive e = true -> c <> (px, py) ->
        (legal map (live_cells (firstn i es')) c -> e_pos e' = c) /\
        (~ legal map (live_cells (firstn i es')) c -> e_pos e' = e_pos e))) /\
  (forall c, In c (rs_reserved r') <-> In c (live_cells es')) /\
  rs_hp r' = hp - zsum (draws lo hi g n) /\
  length (draws lo hi g n) = n /\
  Forall (fun d => lo <= d <= hi) (draws lo hi g n) /\
  rs_rng r' = rng_drop n g.
Proof.
  intros Hlen H lo hi n.
  destruct (resolve_moves_gen map (diffConfigs diff) px py es np [] hp g es' r'
              Hlen H) as (Hl & Hr & Hh & Hg & Hidx).
  split; [assumption|]. split; [|split; [|split; [|split; [|split]]]].
  - intros i e c He Hc.
    destruct (Hidx i e c He Hc) as (e' & H1 & H2 & H3 & H4 & H5 & H6).
    exists e'. rewrite app_nil_r in H6. auto 10.
  - intros c. rewrite Hr. cbn. tauto.
  - exact Hh.
  - clear. generalize g. induction n as [|n IH]; intros g0; simpl; auto.
  - apply draws_range, diffConfigs_atk_range.
  - exact Hg.
Qed.

(** ** Collision safety of one enemy turn *)

Lemma plan_ok_length px py es np :
  plan_ok px py es np -> length np = length es.
Proof. induction 1; simpl; congruence. Qed.

Lemma others_split pre e rest :
  others (pre ++ e :: rest) (length pre) = live_cells pre ++ live_cells rest.
Proof.
  unfold others.
  rewrite firstn_app, firstn_all, Nat.sub_diag, app_nil_r.
  replace (S (length pre)) with (length (pre ++ [e]))
    by (rewrite length_app; simpl; lia).
  replace (pre ++ e :: rest) with ((pre ++ [e]) ++ rest)
    by (now rewrite <- app_assoc).
  rewrite skipn_app, skipn_all, Nat.sub_diag. cbn [app skipn].
  apply live_cells_app.
Qed.

Lemma plan_from_ok map px py all : forall rest pre np,
  all = pre ++ rest ->
  plan_from map px py all (length pre) rest = Some np ->
  Forall (fun c => in_bounds (fst c) (snd c)) (live_cells rest) ->
  plan_ok px py rest np.
Proof.
  induction rest as [|e rest IH]; intros pre np Hall H Hb.
  - injection H as <-. constructor.
  - cbn [plan_from] in H.
    destruct (if negb (e_alive e) then Some (-1, -1)
              else bfs_next_step map (e_x e) (e_y e) px py
                     (others all (length pre))) as [c|] eqn:Ec;
      [|discriminate].
    destruct (plan_from map px py all (S (length pre)) rest) as [l|] eqn:El;
      [|discriminate].
    injection H as <-. rewrite live_cells_cons in Hb. constructor.
    + intros Ha. rewrite Ha in Ec, Hb. cbn [negb] in Ec.
      inversion Hb as [|? ? He Hb']; subst.
      destruct (bfs_next_step_result map (e_x e) (e_y e) px py
                  (others (pre ++ e :: rest) (length pre)) He)
        as (r & Er & Hr).
      rewrite Er in Ec. injection Ec as <-.
      destruct Hr as [->|[_ (Hi & _ & Ho)]]; [split; auto|].
      split; [assumption|]. destruct Ho as [->|Ho]; [now left|].
      right. right. intros Hin. apply Ho. rewrite others_split.
      apply in_or_app. now right.
    + apply (IH (pre ++ [e])).
      * now rewrite <- app_assoc.
      * rewrite length_app. simpl. rewrite Nat.add_1_r. exact El.
      * destruct (e_alive e); [now inversion Hb|assumption].
Qed.

Lemma plan_from_total map px py all : forall rest i,
  Forall (fun c => in_bounds (fst c) (snd c)) (live_cells rest) ->
  exists np, plan_from map px py all i rest = Some np.
Proof.
  induction rest as [|e rest IH]; intros i Hb; [now exists []|].
  cbn [plan_from]. rewrite live_cells_cons in Hb.
  destruct (e_alive e) eqn:Ea; cbn [negb].
  - inversion Hb as [|? ? He Hb']; subst.
    destruct (bfs_next_step_result map (e_x e) (e_y e) px py (others all i) He)
      as (r & Er & _).
    rewrite Er. destruct (IH (S i) Hb') as [l El]. rewrite El. eauto.
  - destruct (IH (S i) Hb) as [l El]. rewrite El. eauto.
Qed.

(** Resolution keeps the live enemies on distinct cells, off the player's
    cell and in range. *)
Lemma resolve_moves_safe map cfg px py : forall es np,
  plan_ok px py es np ->
  forall r es' r',
    resolve_moves map cfg px py es np r = (es', r') ->
    NoDup (live_cells es) ->
    ~ In (px, py) (live_cells es) ->
    Forall (fun c => in_bounds (fst c) (snd c)) (live_cells es) ->
    (forall c, In c (rs_reserved r) -> ~ In c (live_cells es)) ->
    NoDup (live_cells es') /\
    ~ In (px, py) (live_cells es') /\
    Forall (fun c => in_bounds (fst c) (snd c)) (live_cells es') /\
    (forall c, In c (live_cells es') -> ~ In c (rs_reserved r)).
Proof.
  induction 1 as [|e c es np Hc Hok IH]; intros r es' r' H Hnd Hpl Hb Hdis.
  - injection H as <- <-. auto.
  - cbn [resolve_moves] in H. rewrite live_cells_cons in Hnd, Hpl, Hb, Hdis.
    destruct (e_alive e) eqn:Ea; cbn [negb] in H.
    + pose proof (resolve_one_spec map cfg px py e c r) as Hone.
      destruct (resolve_one map cfg px py e c r) as [e1 r1].
      cbn [fst snd] in Hone. destruct Hone as (_ & Hal & Hres & Hatk & Hmov).
      destruct (resolve_moves map cfg px py es np r1) as [es1 r1'] eqn:Er.
      injection H as <- <-.
      inversion Hnd as [|? ? Hn1 Hnd1]; subst.
      inversion Hb as [|? ? Hb0 Hb1]; subst.
      destruct (Hc eq_refl) as [Hcb Hcc].
      assert (Hfacts : ~ In (e_pos e1) (live_cells es) /\
                       ~ In (e_pos e1) (rs_reserved r) /\
                       e_pos e1 <> (px, py) /\
                       in_bounds (fst (e_pos e1)) (snd (e_pos e1))).
      { assert (Hstay : e1 = e ->
                        ~ In (e_pos e1) (live_cells es) /\
                        ~ In (e_pos e1) (rs_reserved r) /\
                        e_pos e1 <> (px, py) /\
                        in_bounds (fst (e_pos e1)) (snd (e_pos e1))).
        { intros ->. split; [assumption|]. split; [|split; [|assumption]].
          - intros Hin. apply (Hdis _ Hin). now left.
          - intros E. apply Hpl. now left. }
        destruct (cell_eq_dec c (px, py)) as [Ec|Ec].
        - apply Hstay. now apply Hatk.
        - destruct (Hmov Ec) as (_ & _ & Hy & Hn).
          destruct (legal_dec map (rs_reserved r) c) as [Hl|Hl];
            [|now apply Hstay, Hn].
          rewrite (Hy Hl). destruct Hl as [_ Hl].
          split; [|split; [assumption|split; assumption]].
          destruct Hcc as [|[->|]]; [contradiction|assumption|assumption]. }
      destruct Hfacts as (F1 & F2 & F3 & F4).
      assert (P1 : ~ In (px, py) (live_cells es))
        by (intros Hin; apply Hpl; now right).
      assert (P2 : forall c0, In c0 (rs_reserved r1) -> ~ In c0 (live_cells es)).
      { intros c0 Hc0. rewrite Hres in Hc0. destruct Hc0 as [<-|Hc0]; auto.
        intros Hin. apply (Hdis _ Hc0). now right. }
      destruct (IH r1 es1 r1' Er Hnd1 P1 Hb1 P2) as (I1 & I2 & I3 & I4).
      rewrite live_cells_cons, Hal, Ea. split; [|split; [|split]].
      * constructor; [|assumption]. intros Hin. apply (I4 _ Hin).
        rewrite Hres. now left.
      * intros [E|Hin]; [now apply F3|now apply I2].
      * constructor; assumption.
      * intros c0 [<-|Hin]; [assumption|].
        intros Hr. apply (I4 _ Hin). rewrite Hres. now right.
    + destruct (resolve_moves map cfg px py es np r) as [es1 r1'] eqn:Er.
      injection H as <- <-.
      destruct (IH r es1 r1' Er) as (I1 & I2 & I3 & I4); auto.
      rewrite live_cells_cons, Ea. auto.
Qed.

Lemma rescan_idle cfg px py es hp g :
  ~ In (px, py) (live_cells es) -> rescan cfg px py es hp g = (hp, g).
Proof.
  induction es as [|e es IH]; intros Hn; [reflexivity|].
  cbn [rescan]. rewrite live_cells_cons in Hn.
  destruct (e_alive e) eqn:Ea; cbn [negb]; [|now apply IH].
  destruct ((e_x e =? px) && (e_y e =? py)) eqn:E.
  - apply (coords_eqb (e_pos e)) in E. elim Hn. now left.
  - apply IH. intros H. apply Hn. now right.
Qed.

(** ** Reachable states *)

Lemma loop_body_reachable w s f inp s' f' :
  reachable s -> loop_body w s f inp = Some (Continue s' f') -> reachable s'.
Proof.
  intros Hr. unfold loop_body.
  destruct (st_playerHP s <=? 0); [discriminate|].
  destruct inp as [ch|]; [|discriminate].
  destruct (is_key ch "q" "Q"); [discriminate|].
  destruct (if is_key ch "w" "W" then Some (st_playerX s, st_playerY s - 1)
            else if is_key ch "s" "S" then Some (st_playerX s, st_playerY s + 1)
            else if is_key ch "a" "A" then Some (st_playerX s - 1, st_playerY s)
            else if is_key ch "d" "D" then Some (st_playerX s + 1, st_playerY s)
            else None) as [[nx ny]|]; [|now intros [= <- <-]].
  destruct (oob nx ny) eqn:Eo; [now intros [= <- <-]|].
  destruct (enemy_turn (player_action s nx ny)) as [s1|] eqn:Et; [|discriminate].
  intros [= <- <-]. apply reach_enemy with (player_action s nx ny); auto.
  now apply reach_player.
Qed.

Lemma NoDup_map_filter {B C : Type} (f : B -> C) (p : B -> bool) (l : list B) :
  NoDup (List.map f l) -> NoDup (List.map f (filter p l)).
Proof.
  induction l as [|a l IH]; intros H; simpl in *; [constructor|].
  inversion H as [|? ? Hn Hnd]; subst.
  destruct (p a); simpl; auto.
  constructor; auto. intros Hin. apply Hn.
  apply in_map_iff in Hin as (b & E & Hb). apply filter_In in Hb as [Hb _].
  apply in_map_iff. eauto.
Qed.

Lemma live_cells_incl es c : In c (live_cells es) -> In c (List.map e_pos es).
Proof.
  intros H. apply in_live_cells in H as (e & He & _ & <-). now apply in_map.
Qed.

Lemma initial_state_safe fuel diff g f s :
  initial_state fuel diff g f = Some s -> safe s.
Proof.
  unfold initial_state.
  destruct (regenerate_map fuel diff g) as [p|] eqn:E; [|discriminate].
  intros [= <-].
  apply regenerate_map_placed in E as (Hp & (_ & Hnd & Hfe) & _).
  rewrite Forall_forall in Hfe.
  unfold safe. cbn [st_playerX st_playerY st_enemies].
  split; [apply Hp|]. split; [now apply NoDup_map_filter|]. split.
  - intros Hin. apply live_cells_incl, Hfe in Hin. now destruct Hin.
  - apply Forall_forall. intros c Hc. apply live_cells_incl, Hfe in Hc.
    apply Hc.
Qed.

Lemma player_action_safe s nx ny :
  safe s -> oob nx ny = false -> safe (player_action s nx ny).
Proof.
  intros (Hp & Hnd & Hnp & Hb) Ho. apply in_bounds_oob in Ho.
  unfold player_action.
  destruct (Ascii.eqb (tile (st_map s) nx ny) WALL);
    [exact (conj Hp (conj Hnd (conj Hnp Hb)))|].
  unfold enemy_index_at.
  destruct (enemy_index_from_spec nx ny (st_enemies s) 0 ltac:(lia))
    as [[Ei Hn]|(l1 & e & l2 & E & Ei & Ha & Ep & Hn)]; rewrite Ei.
  - change (-1 =? -1) with true. cbn [negb].
    destruct (negb (item_index_at (st_items s) nx ny =? -1));
      [destruct (rnd 6 10 (st_rng s))|];
      exact (conj Ho (conj Hnd (conj Hn Hb))).
  - assert (Hidx : (0 + Z.of_nat (length l1) =? -1) = false)
      by (apply Z.eqb_neq; lia).
    rewrite Hidx. cbn [negb]. rewrite Z.add_0_l, Nat2Z.id.
    rewrite E in *. rewrite nth_middle, !list_upd_app.
    rewrite live_cells_app, live_cells_cons, Ha, Ep in Hnd, Hnp, Hb.
    destruct (e_hp e - st_playerAttack s <=? 0); unfold safe;
      cbn [st_playerX st_playerY st_enemies];
      rewrite live_cells_app, live_cells_cons; cbn [e_alive].
    + split; [assumption|]. split; [now apply NoDup_remove_1 in Hnd|].
      split; [now apply NoDup_remove_2 in Hnd|].
      apply Forall_app in Hb as [Hb1 Hb2]. inversion Hb2; subst.
      apply Forall_app. now split.
    + rewrite Ha. change (e_pos (mkEnemy (e_x e) (e_y e)
                                   (e_hp e - st_playerAttack s) true))
        with (e_pos e). rewrite Ep. auto.
Qed.

Lemma enemy_turn_total s : safe s -> exists s', enemy_turn s = Some s'.
Proof.
  intros (_ & _ & _ & Hb). unfold enemy_turn, plan_moves.
  destruct (plan_from_total (st_map s) (st_playerX s) (st_playerY s)
              (st_enemies s) (st_enemies s) O Hb) as [np ->].
  destruct (resolve_moves _ _ _ _ _ _ _) as [es' r].
  destruct (rescan _ _ _ _ _ _) as [hp2 g2]. eauto.
Qed.

(** One enemy turn from a safe state: planning succeeds, resolution keeps
    the state safe, and the scan after resolution finds no enemy on the
    player's cell, so it neither draws nor deals damage. *)
Lemma enemy_turn_spec s s' :
  safe s -> enemy_turn s = Some s' ->
  exists np es' r,
    plan_moves (st_map s) (st_playerX s) (st_playerY s) (st_enemies s) = Some np /\
    resolve_moves (st_map s) (diffConfigs (st_diff s))
      (st_playerX s) (st_playerY s) (st_enemies s) np
      (mkResolve [] (st_playerHP s) (st_rng s)) = (es', r) /\
    rescan (diffConfigs (st_diff s)) (st_playerX s) (st_playerY s) es'
      (rs_hp r) (rs_rng r) = (rs_hp r, rs_rng r) /\
    st_enemies s' = es' /\
    st_playerX s' = st_playerX s /\ st_playerY s' = st_playerY s /\
    st_playerHP s' = (if rs_hp r >? 999 then 999 else rs_hp r) /\
    st_rng s' = rs_rng r /\
    safe s'.
Proof.
  intros (Hp & Hnd & Hnp & Hb). unfold enemy_turn.
  destruct (plan_moves (st_map s) (st_playerX s) (st_playerY s) (st_enemies s))
    as [np|] eqn:Epl; [|discriminate].
  assert (Hok : plan_ok (st_playerX s) (st_playerY s) (st_enemies s) np).
  { apply (plan_from_ok (st_map s) _ _ (st_enemies s) (st_enemies s) [] np);
      auto. }
  destruct (resolve_moves (st_map s) (diffConfigs (st_diff s))
              (st_playerX s) (st_playerY s) (st_enemies s) np
              (mkResolve [] (st_playerHP s) (st_rng s))) as [es' r] eqn:Er.
  destruct (resolve_moves_safe _ _ _ _ _ _ Hok _ _ _ Er Hnd Hnp Hb)
    as (S1 & S2 & S3 & _); [intros c []|].
  rewrite (rescan_idle _ _ _ es' _ _ S2).
  intros [= <-]. exists np, es', r.
  cbn [st_enemies st_playerX st_playerY st_playerHP st_rng].
  split; [first [reflexivity|exact Epl]|].
  split; [first [reflexivity|exact Er]|].
  split; [now apply rescan_idle|].
  repeat (split; [reflexivity|]).
  exact (conj Hp (conj S1 (conj S2 S3))).
Qed.

Lemma enemy_turn_safe s s' : safe s -> enemy_turn s = Some s' -> safe s'.
Proof.
  intros Hs H. destruct (enemy_turn_spec s s' Hs H) as (? & ? & ? & H').
  apply H'.
Qed.

Lemma reachable_safe s : reachable s -> safe s.
Proof.
  induction 1 as [fuel diff g f s H|s nx ny _ IH Ho|s s' _ IH H].
  - now apply initial_state_safe in H.
  - now apply player_action_safe.
  - now apply enemy_turn_safe with s.
Qed.

(** From a reachable state the loop body always returns: the searches of
    the enemy turn stay within their fuel. *)
Lemma loop_body_total w s f inp :
  reachable s -> exists o, loop_body w s f inp = Some o.
Proof.
  intros Hr. unfold loop_body.
  destruct (st_playerHP s <=? 0); [eauto|].
  destruct inp as [ch|]; [|eauto].
  destruct (is_key ch "q" "Q"); [eauto|].
  destruct (if is_key ch "w" "W" then Some (st_playerX s, st_playerY s - 1)
            else if is_key ch "s" "S" then Some (st_playerX s, st_playerY s + 1)
            else if is_key ch "a" "A" then Some (st_playerX s - 1, st_playerY s)
            else if is_key ch "d" "D" then Some (st_playerX s + 1, st_playerY s)
            else None) as [[nx ny]|]; [|eauto].
  destruct (oob nx ny) eqn:Eo; [eauto|].
  destruct (enemy_turn_total (player_action s nx ny)) as [s' ->]; [|eauto].
  apply player_action_safe; [now apply reachable_safe|assumption].
Qed.

(** *** Enemies and potions stay on Floor cells *)

Lemma resolve_moves_floor map cfg px py : forall es np r es' r',
  resolve_moves map cfg px py es np r = (es', r') ->
  Forall (fun c => tile map (fst c) (snd c) = FLOOR) (live_cells es) ->
  Forall (fun c => tile map (fst c) (snd c) = FLOOR) (live_cells es').
Proof.
  induction es as [|e es IH]; intros np r es' r' H Hf.
  - destruct np; injection H as <- <-; assumption.
  - destruct np as [|c np]; [injection H as <- <-; assumption|].
    cbn [resolve_moves] in H. rewrite live_cells_cons in Hf.
    destruct (e_alive e) eqn:Ea; cbn [negb] in H.
    + pose proof (resolve_one_spec map cfg px py e c r) as Hone.
      destruct (resolve_one map cfg px py e c r) as [e1 r1].
      cbn [fst snd] in Hone. destruct Hone as (_ & Hal & _ & Hatk & Hmov).
      destruct (resolve_moves map cfg px py es np r1) as [es1 r1'] eqn:Er.
      injection H as <- <-. inversion Hf as [|? ? Hf0 Hf1]; subst.
      rewrite live_cells_cons, Hal, Ea. constructor; [|now apply IH in Er].
      destruct (cell_eq_dec c (px, py)) as [Ec|Ec].
      * destruct (Hatk Ec) as (-> & _). assumption.
      * destruct (Hmov Ec) as (_ & _ & Hy & Hn).
        destruct (legal_dec map (rs_reserved r) c) as [Hl|Hl].
        -- rewrite (Hy Hl). apply Hl.
        -- rewrite (Hn Hl). assumption.
    + destruct (resolve_moves map cfg px py es np r) as [es1 r1'] eqn:Er.
      injection H as <- <-. rewrite live_cells_cons, Ea. now apply IH in Er.
Qed.

Lemma Forall_erase {B : Type} (P : B -> Prop) (n : nat) (l : list B) :
  Forall P l -> Forall P (erase n l).
Proof.
  revert n. induction l as [|a l IH]; intros [|n] H; simpl; auto;
    inversion H; subst; auto.
Qed.

Lemma map_erase {B C : Type} (f : B -> C) (n : nat) (l : list B) :
  List.map f (erase n l) = erase n (List.map f l).
Proof.
  revert n. induction l as [|a l IH]; intros [|n]; simpl; auto.
  now rewrite IH.
Qed.

Lemma initial_state_on_floor fuel diff g f s :
  initial_state fuel diff g f = Some s -> on_floor s.
Proof.
  unfold initial_state.
  destruct (regenerate_map fuel diff g) as [p|] eqn:E; [|discriminate].
  intros [= <-].
  apply regenerate_map_placed in E as (_ & (_ & _ & Hfe) & (_ & Hfi)).
  rewrite Forall_forall in Hfe.
  unfold on_floor. cbn [st_map st_enemies st_items]. split.
  - apply Forall_forall. intros c Hc. apply live_cells_incl, Hfe in Hc.
    apply Hc.
  - eapply Forall_impl; [|exact Hfi]. intros c Hc. apply Hc.
Qed.

Lemma player_action_on_floor s nx ny :
  on_floor s -> on_floor (player_action s nx ny).
Proof.
  intros [He Hi]. unfold player_action.
  destruct (Ascii.eqb (tile (st_map s) nx ny) WALL); [now split|].
  unfold enemy_index_at.
  destruct (enemy_index_from_spec nx ny (st_enemies s) 0 ltac:(lia))
    as [[Ei Hn]|(l1 & e & l2 & E & Ei & Ha & Ep & Hn)]; rewrite Ei.
  - change (-1 =? -1) with true. cbn [negb].
    destruct (negb (item_index_at (st_items s) nx ny =? -1));
      [destruct (rnd 6 10 (st_rng s))|]; split; auto.
    cbn [st_map st_items]. rewrite map_erase. now apply Forall_erase.
  - assert (Hidx : (0 + Z.of_nat (length l1) =? -1) = false)
      by (apply Z.eqb_neq; lia).
    rewrite Hidx. cbn [negb]. rewrite Z.add_0_l, Nat2Z.id.
    rewrite E in *. rewrite nth_middle, !list_upd_app.
    rewrite live_cells_app, live_cells_cons, Ha in He.
    apply Forall_app in He as [He1 He2]. inversion He2 as [|? ? He0 He3]; subst.
    destruct (e_hp e - st_playerAttack s <=? 0); unfold on_floor;
      cbn [st_map st_enemies st_items];
      rewrite live_cells_app, live_cells_cons; cbn [e_alive];
      (split; [|assumption]); apply Forall_app; split; auto.
    rewrite Ha. constructor; assumption.
Qed.

Lemma enemy_turn_on_floor s s' :
  safe s -> on_floor s -> enemy_turn s = Some s' -> on_floor s'.
Proof.
  intros Hs [He Hi] Ht.
  destruct (enemy_turn_spec s s' Hs Ht)
    as (np & es' & r & _ & Hres & _ & Hes & _ & _ & _ & _ & (_ & _ & _ & Hb)).
  assert (Hm : st_map s' = st_map s /\ st_items s' = st_items s).
  { unfold enemy_turn in Ht.
    destruct (plan_moves _ _ _ _); [|discriminate].
    destruct (resolve_moves _ _ _ _ _ _ _). destruct (rescan _ _ _ _ _ _).
    injection Ht as <-. auto. }
  destruct Hm as [Hm Hit]. unfold on_floor. rewrite Hm, Hit, Hes.
  split; [|assumption].
  apply resolve_moves_floor in Hres.
  - rewrite Hes in Hb. rewrite Forall_forall in *.
    intros c Hc. split; auto.
  - eapply Forall_impl; [|exact He]. intros c Hc. apply Hc.
Qed.

(** In every reachable state the live enemies and the potions are on
    Floor cells: a destination holding one of them is never a wall. *)
Lemma reachable_on_floor s : reachable s -> on_floor s.
Proof.
  induction 1 as [fuel diff g f s H|s nx ny Hr IH Ho|s s' Hr IH H].
  - now apply initial_state_on_floor in H.
  - now apply player_action_on_floor.
  - apply enemy_turn_on_floor with s; auto. now apply reachable_safe.
Qed.

Lemma floor_not_wall map x y : tile map x y = FLOOR -> tile map x y <> WALL.
Proof. intros ->. discriminate. Qed.

(** The guard of the melee and pickup branches, [map[ny][nx] != '#'], holds
    in every reachable state at a cell holding a live enemy or a potion. *)
Lemma reachable_enemy_not_wall s nx ny :
  reachable s -> In (nx, ny) (live_cells (st_enemies s)) ->
  tile (st_map s) nx ny <> WALL.
Proof.
  intros Hr Hin. apply reachable_on_floor in Hr as [He _].
  rewrite Forall_forall in He. apply floor_not_wall, (He (nx, ny) Hin).
Qed.

Lemma reachable_item_not_wall s nx ny :
  reachable s -> In (nx, ny) (List.map it_pos (st_items s)) ->
  tile (st_map s) nx ny <> WALL.
Proof.
  intros Hr Hin. apply reachable_on_floor in Hr as [_ Hi].
  rewrite Forall_forall in Hi. apply floor_not_wall, (Hi (nx, ny) Hin).
Qed.

(** C9: in every reachable state the live enemies stand on pairwise
    distinct cells. *)
Theorem live_enemies_distinct s :
  reachable s -> NoDup (live_cells (st_enemies s)).
Proof. intros H. apply reachable_safe in H. apply H. Qed.

(** C10: in every reachable state no live enemy stands on the player's
    cell; an enemy turn leaves it so, and its scan after resolution
    returns the hit points and the generator untouched. *)
Theorem no_enemy_on_player s :
  reachable s ->
  ~ In (st_playerX s, st_playerY s) (live_cells (st_enemies s)) /\
  exists s',
    enemy_turn s = Some s' /\
    ~ In (st_playerX s', st_playerY s') (live_cells (st_enemies s')) /\
    exists np r,
      plan_moves (st_map s) (st_playerX s) (st_playerY s) (st_enemies s)
      = Some np /\
      resolve_moves (st_map s) (diffConfigs (st_diff s))
        (st_playerX s) (st_playerY s) (st_enemies s) np
        (mkResolve [] (st_playerHP s) (st_rng s)) = (st_enemies s', r) /\
      rescan (diffConfigs (st_diff s)) (st_playerX s) (st_playerY s)
        (st_enemies s') (rs_hp r) (rs_rng r) = (rs_hp r, rs_rng r).
Proof.
  intros Hr. pose proof (reachable_safe s Hr) as Hs.
  split; [apply Hs|].
  destruct (enemy_turn_total s Hs) as [s' Et]. exists s'.
  split; [assumption|].
  destruct (enemy_turn_spec s s' Hs Et)
    as (np & es' & r & Hp & Hres & Hsc & <- & _ & _ & _ & _ & Hs').
  split; [apply Hs'|]. exists np, r. auto.
Qed.

(** ** Leaving the loop: the high score *)

(** An explicit quit compares the score with the stored best and saves. *)
Lemma loop_body_quit w s f :
  st_playerHP s > 0 ->
  loop_body w s f (Some "q"%char) =
  Some (Exit s (if st_score s >? st_highScore s
                then save_high_score w f (st_score s) else f)).
Proof.
  intros H. unfold loop_body.
  replace (st_playerHP s <=? 0) with false by lia. reflexivity.
Qed.

(** A failed read leaves the loop with the file as it was, whatever the
    score. *)
Lemma loop_body_eof w s f :
  st_playerHP s > 0 -> loop_body w s f None = Some (Exit s f).
Proof.
  intros H. unfold loop_body.
  replace (st_playerHP s <=? 0) with false by lia. reflexivity.
Qed.

(** C4 fails on the code: with score 15 above the stored best 0, a failed
    read ends the run with [highscore.txt] still absent, while the quit
    key at the same state writes 15. *)
Theorem eof_exit_skips_high_score :
  loop_body true demo_state None None = Some (Exit demo_state None) /\
  loop_body true demo_state None (Some "q"%char)
  = Some (Exit demo_state (Some 15)).
Proof. split; reflexivity. Qed.

(** ** The generator need not terminate *)

(** On the stream of zeros the second room is always the first one again
    and is rejected forever: no fuel is enough. *)
Remark generate_map_basic_may_diverge fuel :
  generate_map_basic fuel (fun _ => 0) = None.
Proof.
  assert (Hloop : forall k m,
             rooms_loop k 1 3 m [mkRect 1 1 3 3] (fun _ => 0) = None).
  { induction k as [|k IH]; intros m; [reflexivity|].
    transitivity (rooms_loop k 1 3 m [mkRect 1 1 3 3] (fun _ => 0));
      [reflexivity|apply IH]. }
  unfold generate_map_basic.
  change (rnd 3 6 (fun _ : nat => 0)) with (3, (fun _ : nat => 0)).
  cbv beta iota.
  destruct fuel as [|k]; [reflexivity|].
  replace (rooms_loop (S k) 0 3 create_empty_map [] (fun _ => 0))
    with (rooms_loop k 1 3 (carve_room create_empty_map (mkRect 1 1 3 3))
            [mkRect 1 1 3 3] (fun _ => 0)) by reflexivity.
  now rewrite Hloop.
Qed.

(** ** The theorems at concrete inputs *)

Lemma open_grid_floor x y : in_bounds x y -> tile open_grid x y = FLOOR.
Proof. intros H. now apply Arr2Facts.get_make. Qed.

(** Three enemies in a row below the player at (7,3): the second and the
    third both intend (7,4); the second, processed first, gets it. *)
Lemma resolve_moves_reservation_witness :
  exists es' r',
    resolve_moves open_grid (diffConfigs EASY) 7 3
      [mkEnemy 4 4 3 true; mkEnemy 6 4 5 true; mkEnemy 8 4 4 true]
      [(5, 4); (7, 4); (7, 4)] (mkResolve [] 20 demo_rng) = (es', r') /\
    List.map e_pos es' = [(5, 4); (7, 4); (8, 4)] /\
    length es' = 3%nat.
Proof.
  eexists. eexists. split; [vm_compute; reflexivity|].
  split; [reflexivity|].
  refine (proj1 (resolve_moves_reservation open_grid EASY 7 3
                   [mkEnemy 4 4 3 true; mkEnemy 6 4 5 true; mkEnemy 8 4 4 true]
                   [(5, 4); (7, 4); (7, 4)] 20 demo_rng _ _ eq_refl _)).
  vm_compute. reflexivity.
Defined.

Lemma bfs_next_step_shortest_witness :
  exists r,
    bfs_next_step open_grid 5 5 2 9 [] = Some r /\
    manhattan r (2, 9) < manhattan (5, 5) (2, 9).
Proof.
  apply (proj2 (proj2 (bfs_next_step_shortest open_grid 5 5 2 9 []
                         ltac:(unfold in_bounds, MAP_W, MAP_H; lia)))).
  - discriminate.
  - unfold in_bounds, MAP_W, MAP_H; lia.
  - exact open_grid_floor.
  - reflexivity.
Defined.

Lemma bfs_next_step_fallback_witness :
  bfs_next_step walled_grid 9 2 3 7 [] = Some (9, 2).
Proof.
  apply (proj2 (proj2 (bfs_next_step_fallback walled_grid 9 2 3 7 []
                         ltac:(unfold in_bounds, MAP_W, MAP_H; lia)))).
  intros c Hm _. apply dirs_manhattan in Hm as (d & Hd & ->).
  destruct Hd as [<-|[<-|[<-|[<-|[]]]]]; vm_compute; discriminate.
Defined.

Lemma player_action_melee_witness :
  st_turns (player_action demo_state 3 2) = 1 /\
  st_score (player_action demo_state 3 2) = 25 /\
  live_cells (st_enemies (player_action demo_state 3 2)) = [] /\
  (st_playerX (player_action demo_state 3 2),
   st_playerY (player_action demo_state 3 2)) = (3, 2).
Proof.
  destruct (player_action_melee demo_state 3 2 [] (mkEnemy 3 2 3 true) [])
    as (Ht & _ & _ & _ & _ & Hkill & _).
  - vm_compute. discriminate.
  - reflexivity.
  - reflexivity.
  - reflexivity.
  - intros [].
  - destruct Hkill as (He & _ & Hs & Hp); [vm_compute; discriminate|].
    split; [exact Ht|]. split; [exact Hs|]. split; [now rewrite He|exact Hp].
Defined.

Lemma player_action_pickup_witness :
  st_playerHP (player_action demo_state 2 3) = 20 /\
  st_items (player_action demo_state 2 3) = [].
Proof.
  destruct (player_action_pickup demo_state 2 3 [] (mkItem 2 3) [])
    as (_ & _ & _ & Hi & _ & _ & _ & _ & _ & Hcap).
  - vm_compute. discriminate.
  - vm_compute. intros [H|[]]. discriminate.
  - reflexivity.
  - reflexivity.
  - intros [].
  - split; [|exact Hi]. apply Hcap; reflexivity.
Defined.

Lemma regenerate_map_distinct_floor_witness :
  exists p,
    regenerate_map 50 EASY demo_rng = Some p /\
    NoDup ((p_playerX p, p_playerY p)
             :: List.map e_pos (p_enemies p) ++ List.map it_pos (p_items p)) /\
    length (p_enemies p) = 3%nat /\ length (p_items p) = 7%nat.
Proof.
  eexists. split; [vm_compute; reflexivity|].
  split; [|split; reflexivity].
  refine (proj1 (regenerate_map_distinct_floor 50 EASY demo_rng _ _)).
  vm_compute. reflexivity.
Defined.

Lemma generate_map_basic_has_floor_witness :
  (exists map rooms g',
     generate_map_basic 50 demo_rng = Some (map, rooms, g') /\
     length rooms = 3%nat /\ has_floor map) /\
  (any_floor create_empty_map = false /\
   tile (carve_interior create_empty_map) 1 1 = FLOOR /\
   tile (carve_interior create_empty_map) 18 8 = FLOOR /\
   tile (carve_interior create_empty_map) 0 0 = WALL /\
   tile (carve_interior create_empty_map) 19 8 = WALL).
Proof.
  split.
  - eexists. eexists. eexists. split; [vm_compute; reflexivity|].
    split; [reflexivity|].
    refine (proj1 (proj1 generate_map_basic_has_floor 50%nat demo_rng _ _ _ _)).
    vm_compute. reflexivity.
  - assert (Ea : any_floor create_empty_map = false) by reflexivity.
    destruct (proj2 generate_map_basic_has_floor create_empty_map
                (Arr2Facts.wf_make WALL)) as (_ & _ & _ & Hfb).
    rewrite Ea in Hfb. specialize (Hfb eq_refl).
    split; [exact Ea|].
    split; [apply (Hfb 1 1); unfold MAP_W, MAP_H; lia|].
    split; [apply (Hfb 18 8); unfold MAP_W, MAP_H; lia|].
    split.
    + rewrite (proj2 (Hfb 0 0)) by lia. reflexivity.
    + rewrite (proj2 (Hfb 19 8)) by (unfold MAP_W; lia). reflexivity.
Defined.

(** The session placed from [demo_rng], after the player's move to the
    right and the enemies' turn. *)
Lemma live_enemies_distinct_witness :
  exists s0 s1,
    initial_state 50 EASY demo_rng None = Some s0 /\
    loop_body true s0 None (Some "d"%char) = Some (Continue s1 None) /\
    List.map e_pos (st_enemies s1) = [(5, 4); (7, 4); (8, 4)] /\
    NoDup (live_cells (st_enemies s1)).
Proof.
  eexists. eexists. split; [vm_compute; reflexivity|].
  split; [vm_compute; reflexivity|]. split; [reflexivity|].
  apply live_enemies_distinct.
  eapply (loop_body_reachable true _ None (Some "d"%char) _ None).
  - apply (reach_init 50 EASY demo_rng None). vm_compute. reflexivity.
  - vm_compute. reflexivity.
Defined.

Lemma no_enemy_on_player_witness :
  exists s0 s1,
    initial_state 50 EASY demo_rng None = Some s0 /\
    loop_body true s0 None (Some "d"%char) = Some (Continue s1 None) /\
    (st_playerX s1, st_playerY s1) = (7, 3) /\
    ~ In (st_playerX s1, st_playerY s1) (live_cells (st_enemies s1)).
Proof.
  eexists. eexists. split; [vm_compute; reflexivity|].
  split; [vm_compute; reflexivity|]. split; [reflexivity|].
  refine (proj1 (no_enemy_on_player _ _)).
  eapply (loop_body_reachable true _ None (Some "d"%char) _ None).
  - apply (reach_init 50 EASY demo_rng None). vm_compute. reflexivity.
  - vm_compute. reflexivity.
Defined.

(** * Further properties of the code *)

(** ** [Rect::intersects] *)

(** X1: two rectangles of positive size intersect exactly when they share
    a cell, so rooms that only touch do not intersect; the test is
    symmetric. *)
Theorem intersects_shared_cell (r o : Rect) :
  0 < r_w r -> 0 < r_h r -> 0 < r_w o -> 0 < r_h o ->
  (intersects r o = true <-> exists x y, in_rect r x y /\ in_rect o x y) /\
  intersects r o = intersects o r.
Proof.
  intros Hrw Hrh How Hoh. unfold intersects, in_rect. split.
  - rewrite negb_true_iff, !orb_false_iff, !Z.leb_gt. split.
    + intros [[[H1 H2] H3] H4].
      exists (Z.max (r_x r) (r_x o)), (Z.max (r_y r) (r_y o)). lia.
    + intros (x & y & H1 & H2). lia.
  - f_equal.
    destruct (r_x r + r_w r <=? r_x o), (r_x o + r_w o <=? r_x r),
             (r_y r + r_h r <=? r_y o), (r_y o + r_h o <=? r_y r); reflexivity.
Qed.

Lemma intersects_shared_cell_witness :
  intersects (mkRect 1 1 3 3) (mkRect 4 1 3 3) = false /\
  intersects (mkRect 1 1 3 3) (mkRect 3 3 3 3) = true.
Proof.
  pose proof (intersects_shared_cell (mkRect 1 1 3 3) (mkRect 3 3 3 3)
                ltac:(simpl; lia) ltac:(simpl; lia)
                ltac:(simpl; lia) ltac:(simpl; lia)) as [H _].
  split; [reflexivity|]. apply H. exists 3, 3. unfold in_rect. simpl. lia.
Defined.

(** ** The carving helpers, cell by cell *)

Lemma carve_cell_tile m a b x y :
  Arr2.wf m ->
  tile (carve_cell m a b) x y =
  if cell_eqb (a, b) (x, y) && negb (oob a b) then FLOOR else tile m x y.
Proof.
  intros Hwf. unfold carve_cell.
  assert (E : (a >=? 0) && (a <? MAP_W) && (b >=? 0) && (b <? MAP_H)
              = negb (oob a b)).
  { unfold oob. destruct (a <? 0) eqn:E1, (a >=? MAP_W) eqn:E2,
      (b <? 0) eqn:E3, (b >=? MAP_H) eqn:E4; simpl; lia. }
  rewrite E. destruct (oob a b) eqn:Eo; cbn [negb].
  - now rewrite andb_false_r.
  - rewrite andb_true_r. apply in_bounds_oob in Eo.
    destruct (cell_eqb (a, b) (x, y)) eqn:Ec.
    + apply cell_eqb_eq in Ec. injection Ec as <- <-. now apply tile_set_floor.
    + apply cell_eqb_neq in Ec. unfold tile. now apply Arr2Facts.get_set_ne.
Qed.

Lemma carve_cell_wf m a b : Arr2.wf m -> Arr2.wf (carve_cell m a b).
Proof. intros H. apply (carve_cell_grows m a b H). Qed.

Lemma carve_cells_carved l : forall m,
  Arr2.wf m -> carved (fun x y => In (x, y) l) m (carve_cells m l).
Proof.
  induction l as [|c l IH]; intros m Hwf.
  - split; [assumption|]. intros x y. split; [intros [[] _]|reflexivity].
  - unfold carve_cells. cbn [fold_left].
    fold (carve_cells (carve_cell m (fst c) (snd c)) l).
    destruct (IH (carve_cell m (fst c) (snd c)) (carve_cell_wf _ _ _ Hwf))
      as [Hwf' H].
    split; [assumption|]. intros x y. destruct (H x y) as [H1 H2].
    pose proof (carve_cell_tile m (fst c) (snd c) x y Hwf) as Hc.
    replace (fst c, snd c) with c in Hc by now destruct c.
    split.
    + intros [Hi Hb].
      destruct (in_dec cell_eq_dec (x, y) l) as [Hin|Hin]; [now apply H1|].
      rewrite H2 by tauto. rewrite Hc.
      destruct Hi as [->|Hi]; [|contradiction]. cbn [fst snd].
      rewrite (proj2 (cell_eqb_eq (x, y) (x, y)) eq_refl).
      apply in_bounds_oob in Hb. now rewrite Hb.
    + intros Hn.
      rewrite H2 by (intros [Hl Hb]; apply Hn; split; [now right|assumption]).
      rewrite Hc. destruct (cell_eqb c (x, y)) eqn:Ec; [|reflexivity].
      apply cell_eqb_eq in Ec. subst c. cbn [fst snd].
      destruct (oob x y) eqn:Eo; [reflexivity|].
      apply in_bounds_oob in Eo. elim Hn. split; [now left|assumption].
Qed.

Lemma carved_ext (S S' : Z -> Z -> Prop) m m' :
  (forall x y, S x y <-> S' x y) -> carved S m m' -> carved S' m m'.
Proof.
  intros He [Hwf H]. split; [assumption|]. intros x y.
  destruct (H x y) as [H1 H2]. split; intros H0.
  - apply H1. now rewrite He.
  - apply H2. now rewrite He.
Qed.

Lemma fold_left_flat_map {B C D : Type} (f : D -> C -> D) (g : B -> list C)
  (l : list B) : forall a,
  fold_left f (flat_map g l) a = fold_left (fun a' x => fold_left f (g x) a') l a.
Proof.
  induction l as [|b l IH]; intros a; simpl; [reflexivity|].
  now rewrite fold_left_app, IH.
Qed.

Lemma fold_left_map_fn {B C D : Type} (f : D -> C -> D) (g : B -> C)
  (l : list B) : forall a,
  fold_left f (List.map g l) a = fold_left (fun a' x => f a' (g x)) l a.
Proof. induction l as [|b l IH]; intros a; simpl; auto. Qed.

Lemma carve_room_cells m r :
  carve_room m r =
  carve_cells m
    (flat_map (fun yy => List.map (fun xx => (xx, yy))
                           (zfor (r_x r) (r_x r + r_w r)))
              (zfor (r_y r) (r_y r + r_h r))).
Proof.
  unfold carve_room, carve_cells. rewrite fold_left_flat_map.
  generalize (zfor (r_y r) (r_y r + r_h r)). intros ys. revert m.
  induction ys as [|yy ys IH]; intros m; [reflexivity|].
  cbn [fold_left]. now rewrite fold_left_map_fn, IH.
Qed.

Lemma carve_room_carved m r :
  Arr2.wf m -> carved (in_rect r) m (carve_room m r).
Proof.
  intros Hwf. rewrite carve_room_cells.
  eapply carved_ext; [|now apply carve_cells_carved].
  intros x y. unfold in_rect. rewrite in_flat_map. split.
  - intros (yy & Hy & Hx). apply in_map_iff in Hx as (xx & [= <- <-] & Hx).
    apply in_zfor in Hx, Hy. lia.
  - intros [Hx Hy]. exists y. split; [now apply in_zfor|].
    apply in_map_iff. exists x. split; [reflexivity|now apply in_zfor].
Qed.

(** X2: [carve_room] keeps the shape of the grid, writes Floor on exactly
    the cells of the rectangle that lie in the grid, also when the rectangle
    sticks out of it, and leaves every other cell as it was. *)
Theorem carve_room_exact m r :
  Arr2.wf m ->
  Arr2.wf (carve_room m r) /\
  forall x y,
    (in_rect r x y /\ in_bounds x y -> tile (carve_room m r) x y = FLOOR) /\
    (~ (in_rect r x y /\ in_bounds x y) ->
     tile (carve_room m r) x y = tile m x y).
Proof. intros Hwf. exact (carve_room_carved m r Hwf). Qed.

Lemma carve_room_exact_witness :
  tile (carve_room create_empty_map (mkRect 17 7 5 5)) 18 8 = FLOOR /\
  tile (carve_room create_empty_map (mkRect 17 7 5 5)) 16 8 = WALL.
Proof.
  destruct (carve_room_exact create_empty_map (mkRect 17 7 5 5)
              (Arr2Facts.wf_make WALL)) as [_ H].
  split.
  - apply (H 18 8). unfold in_rect, in_bounds, MAP_W, MAP_H. simpl. lia.
  - rewrite (proj2 (H 16 8)); [reflexivity|].
    unfold in_rect. simpl. lia.
Defined.

Lemma carve_h_cells m x1 x2 y :
  carve_h m x1 x2 y =
  carve_cells m (List.map (fun x => (x, y))
                          (zfor (Z.min x1 x2) (Z.max x1 x2 + 1))).
Proof.
  unfold carve_h, carve_cells. rewrite fold_left_map_fn.
  destruct (Z.ltb_spec x2 x1);
    [rewrite Z.min_r, Z.max_l by lia|rewrite Z.min_l, Z.max_r by lia];
    reflexivity.
Qed.

Lemma carve_v_cells m y1 y2 x :
  carve_v m y1 y2 x =
  carve_cells m (List.map (fun y => (x, y))
                          (zfor (Z.min y1 y2) (Z.max y1 y2 + 1))).
Proof.
  unfold carve_v, carve_cells. rewrite fold_left_map_fn.
  destruct (Z.ltb_spec y2 y1);
    [rewrite Z.min_r, Z.max_l by lia|rewrite Z.min_l, Z.max_r by lia];
    reflexivity.
Qed.

Lemma carve_h_carved m x1 x2 y :
  Arr2.wf m ->
  carved (fun x' y' => y' = y /\ Z.min x1 x2 <= x' <= Z.max x1 x2)
         m (carve_h m x1 x2 y).
Proof.
  intros Hwf. rewrite carve_h_cells.
  eapply carved_ext; [|now apply carve_cells_carved].
  intros x' y'. rewrite in_map_iff. split.
  - intros (x0 & [= <- <-] & Hx). apply in_zfor in Hx. lia.
  - intros [-> Hx]. exists x'. split; [reflexivity|]. apply in_zfor. lia.
Qed.

Lemma carve_v_carved m y1 y2 x :
  Arr2.wf m ->
  carved (fun x' y' => x' = x /\ Z.min y1 y2 <= y' <= Z.max y1 y2)
         m (carve_v m y1 y2 x).
Proof.
  intros Hwf. rewrite carve_v_cells.
  eapply carved_ext; [|now apply carve_cells_carved].
  intros x' y'. rewrite in_map_iff. split.
  - intros (y0 & [= <- <-] & Hy). apply in_zfor in Hy. lia.
  - intros [-> Hy]. exists y'. split; [reflexivity|]. apply in_zfor. lia.
Qed.

(** X3: [carve_h] and [carve_v] write Floor on exactly the cells of the
    segment between their two end points (both included, in either order)
    that lie in the grid, and leave every other cell as it was. *)
Theorem carve_corridor_exact m a b c :
  Arr2.wf m ->
  carved (fun x y => y = c /\ Z.min a b <= x <= Z.max a b) m (carve_h m a b c) /\
  carved (fun x y => x = c /\ Z.min a b <= y <= Z.max a b) m (carve_v m a b c) /\
  carve_h m b a c = carve_h m a b c /\
  carve_v m b a c = carve_v m a b c.
Proof.
  intros Hwf. split; [now apply carve_h_carved|].
  split; [now apply carve_v_carved|].
  rewrite !carve_h_cells, !carve_v_cells.
  now rewrite (Z.min_comm b a), (Z.max_comm b a).
Qed.

Lemma carve_corridor_exact_witness :
  tile (carve_h create_empty_map 7 3 4) 3 4 = FLOOR /\
  tile (carve_h create_empty_map 7 3 4) 7 4 = FLOOR /\
  tile (carve_h create_empty_map 7 3 4) 8 4 = WALL /\
  tile (carve_v create_empty_map 2 30 5) 5 9 = FLOOR.
Proof.
  destruct (carve_corridor_exact create_empty_map 7 3 4
              (Arr2Facts.wf_make WALL)) as [[_ H] _].
  destruct (carve_corridor_exact create_empty_map 2 30 5
              (Arr2Facts.wf_make WALL)) as [_ [[_ V] _]].
  split; [|split; [|split]].
  - apply (H 3 4). unfold in_bounds, MAP_W, MAP_H. lia.
  - apply (H 7 4). unfold in_bounds, MAP_W, MAP_H. lia.
  - rewrite (proj2 (H 8 4)); [reflexivity|lia].
  - apply (V 5 9). unfold in_bounds, MAP_W, MAP_H. lia.
Defined.

(** ** [random_floor_tile] *)

(** X4: on a grid without Floor cell [random_floor_tile] returns (1,1)
    and draws nothing; otherwise it makes one draw and returns a Floor cell
    in range, and every such cell is returned for some draw. *)
Theorem random_floor_tile_spec map g :
  (~ has_floor map -> random_floor_tile map g = ((1, 1), g)) /\
  (has_floor map ->
   floor_cell map (fst (random_floor_tile map g)) /\
   snd (random_floor_tile map g) = rng_tail g) /\
  (forall c, floor_cell map c ->
             exists g0, fst (random_floor_tile map g0) = c).
Proof.
  split; [|split].
  - intros Hn. unfold random_floor_tile.
    destruct (floor_tiles map) as [|c l] eqn:E; [reflexivity|].
    elim Hn. assert (Hc : In c (floor_tiles map)) by (rewrite E; now left).
    apply in_floor_tiles in Hc. exists (fst c), (snd c). exact Hc.
  - intros Hf. split; [now apply random_floor_tile_floor|].
    destruct Hf as (x & y & Hb & Hf). unfold random_floor_tile.
    assert (Hin : In (x, y) (floor_tiles map))
      by (apply in_floor_tiles; now split).
    destruct (floor_tiles map) as [|c l]; [destruct Hin|]. reflexivity.
  - intros c Hc. apply in_floor_tiles in Hc.
    destruct (In_nth _ _ (0, 0) Hc) as (k & Hk & E).
    exists (fun _ => Z.of_nat k). unfold random_floor_tile.
    destruct (floor_tiles map) as [|c0 l] eqn:El; [destruct Hc|].
    unfold rnd. cbn [fst]. unfold Cell in *.
    rewrite Z.add_0_l, Z.mod_small by lia.
    now rewrite Nat2Z.id.
Qed.

(** ** Floor cells that hang together *)

Lemma manhattan_sym (a b : Cell) : manhattan a b = manhattan b a.
Proof. unfold manhattan. lia. Qed.

Lemma linked_floor map a b :
  linked map a b -> floor_cell map a /\ floor_cell map b.
Proof. induction 1; tauto. Qed.

Lemma linked_trans map a b c :
  linked map a b -> linked map b c -> linked map a c.
Proof.
  intros Hab Hbc. revert Hab.
  induction Hbc as [b Hb|b c d Hbc IH Hcd Hd]; intros Hab; [assumption|].
  apply linked_step with c; auto.
Qed.

Lemma linked_cons map a b c :
  floor_cell map a -> manhattan a b = 1 -> linked map b c -> linked map a c.
Proof.
  intros Ha Hm Hbc. revert Hm.
  induction Hbc as [b Hb|b c d Hbc IH Hcd Hd]; intros Hm.
  - apply linked_step with a; auto. now apply linked_refl.
  - apply linked_step with c; auto.
Qed.

Lemma linked_sym map a b : linked map a b -> linked map b a.
Proof.
  induction 1 as [a Ha|a b c Hab IH Hm Hc]; [now apply linked_refl|].
  apply linked_cons with b; auto. now rewrite manhattan_sym.
Qed.

Lemma linked_mono map map' a b :
  (forall c, floor_cell map c -> floor_cell map' c) ->
  linked map a b -> linked map' a b.
Proof.
  intros Hm. induction 1 as [a Ha|a b c Hab IH Hd Hc].
  - apply linked_refl. auto.
  - apply linked_step with b; auto.
Qed.

Lemma run_h_linked map y (n : nat) : forall x,
  (forall k, 0 <= k <= Z.of_nat n -> floor_cell map (x + k, y)) ->
  linked map (x, y) (x + Z.of_nat n, y).
Proof.
  induction n as [|n IH]; intros x H.
  - replace (x + Z.of_nat 0) with x by lia. apply linked_refl.
    specialize (H 0 ltac:(lia)). now replace (x + 0) with x in H by lia.
  - apply linked_step with (x + Z.of_nat n, y).
    + apply IH. intros k Hk. apply H. lia.
    + unfold manhattan. simpl fst. simpl snd. lia.
    + apply H. lia.
Qed.

Lemma run_v_linked map x (n : nat) : forall y,
  (forall k, 0 <= k <= Z.of_nat n -> floor_cell map (x, y + k)) ->
  linked map (x, y) (x, y + Z.of_nat n).
Proof.
  induction n as [|n IH]; intros y H.
  - replace (y + Z.of_nat 0) with y by lia. apply linked_refl.
    specialize (H 0 ltac:(lia)). now replace (y + 0) with y in H by lia.
  - apply linked_step with (x, y + Z.of_nat n).
    + apply IH. intros k Hk. apply H. lia.
    + unfold manhattan. simpl fst. simpl snd. lia.
    + apply H. lia.
Qed.

(** Along a segment of Floor cells every cell is linked to the end. *)
Lemma seg_linked map a b c :
  (forall d, seg a b d -> floor_cell map d) -> seg a b c -> linked map c b.
Proof.
  destruct a as [ax ay], b as [bx by_], c as [cx cy]. unfold seg.
  cbn [fst snd]. intros Hfl [(E1 & E2 & Hx)|(E1 & E2 & Hy)]; subst.
  - assert (Hc : forall x, Z.min cx bx <= x <= Z.max cx bx ->
                           floor_cell map (x, by_)).
    { intros x Hx'. apply Hfl. left. cbn [fst snd]. lia. }
    destruct (Z.le_gt_cases cx bx) as [Hle|Hgt].
    + pose proof (run_h_linked map by_ (Z.to_nat (bx - cx)) cx) as R.
      replace (cx + Z.of_nat (Z.to_nat (bx - cx))) with bx in R by lia.
      apply R. intros k Hk. apply Hc. lia.
    + apply linked_sym.
      pose proof (run_h_linked map by_ (Z.to_nat (cx - bx)) bx) as R.
      replace (bx + Z.of_nat (Z.to_nat (cx - bx))) with cx in R by lia.
      apply R. intros k Hk. apply Hc. lia.
  - assert (Hc : forall y, Z.min cy by_ <= y <= Z.max cy by_ ->
                           floor_cell map (bx, y)).
    { intros y Hy'. apply Hfl. right. cbn [fst snd]. lia. }
    destruct (Z.le_gt_cases cy by_) as [Hle|Hgt].
    + pose proof (run_v_linked map bx (Z.to_nat (by_ - cy)) cy) as R.
      replace (cy + Z.of_nat (Z.to_nat (by_ - cy))) with by_ in R by lia.
      apply R. intros k Hk. apply Hc. lia.
    + apply linked_sym.
      pose proof (run_v_linked map bx (Z.to_nat (cy - by_)) by_) as R.
      replace (by_ + Z.of_nat (Z.to_nat (cy - by_))) with cy in R by lia.
      apply R. intros k Hk. apply Hc. lia.
Qed.

(** In a rectangle of Floor cells every cell is linked to every other. *)
Lemma rect_linked map r x1 y1 x2 y2 :
  (forall x y, in_rect r x y -> floor_cell map (x, y)) ->
  in_rect r x1 y1 -> in_rect r x2 y2 -> linked map (x1, y1) (x2, y2).
Proof.
  intros Hfl H1 H2. unfold in_rect in *.
  apply linked_trans with (x2, y1).
  - apply (seg_linked map (x1, y1) (x2, y1)).
    + intros [dx dy] [(_ & E & Hx)|(E0 & E & Hy)]; cbn [fst snd] in *;
        apply Hfl; unfold in_rect; lia.
    + left. cbn [fst snd]. lia.
  - apply (seg_linked map (x2, y1) (x2, y2)).
    + intros [dx dy] [(E0 & E & Hx)|(_ & E & Hy)]; cbn [fst snd] in *;
        apply Hfl; unfold in_rect; lia.
    + right. cbn [fst snd]. lia.
Qed.

(** An L of two segments of Floor cells from [a] over [m] to [b]: every
    cell on it is linked to [b]. *)
Lemma corner_linked map a m b c :
  (forall d, seg a m d \/ seg m b d -> floor_cell map d) ->
  seg a m m -> seg m b b ->
  seg a m c \/ seg m b c -> linked map c b.
Proof.
  intros Hfl Hm Hb [Hc|Hc].
  - apply linked_trans with m.
    + apply (seg_linked map a m c); auto.
    + apply (seg_linked map m b m); auto.
      destruct m as [mx my], b as [bx by_]. unfold seg in *.
      cbn [fst snd] in *. lia.
  - apply (seg_linked map m b c); auto.
Qed.

(** ** What the room loop keeps *)

Lemma carved_trans (S1 S2 : Z -> Z -> Prop) m m1 m2 :
  (forall x y, S2 x y \/ ~ S2 x y) ->
  carved S1 m m1 -> carved S2 m1 m2 ->
  carved (fun x y => S1 x y \/ S2 x y) m m2.
Proof.
  intros Hdec [_ H1] [Hwf H2]. split; [assumption|]. intros x y.
  destruct (H1 x y) as [A1 B1]. destruct (H2 x y) as [A2 B2]. split.
  - intros [[Hs|Hs] Hb]; [|now apply A2].
    destruct (Hdec x y) as [Hs2|Hs2]; [now apply A2|].
    rewrite B2 by tauto. now apply A1.
  - intros Hn. rewrite B2 by tauto. apply B1. tauto.
Qed.

Lemma carved_floor (S : Z -> Z -> Prop) m m' x y :
  (forall x y, S x y \/ ~ S x y) -> carved S m m' ->
  (tile m' x y = FLOOR <-> (S x y /\ in_bounds x y) \/ tile m x y = FLOOR).
Proof.
  intros Hdec [_ H]. destruct (H x y) as [A B].
  destruct (Hdec x y) as [Hs|Hs]; [destruct (in_bounds_dec x y) as [Hb|Hb]|].
  - split; auto.
  - rewrite B by tauto. tauto.
  - rewrite B by tauto. tauto.
Qed.

Lemma seg_dec a b c : seg a b c \/ ~ seg a b c.
Proof. unfold seg. lia. Qed.

Lemma in_rect_dec r x y : in_rect r x y \/ ~ in_rect r x y.
Proof. unfold in_rect. lia. Qed.

(** The corridor of [connect] is an L from the previous centre to the new
    one, over one of the two corners. *)
Lemma connect_carved m prev r g :
  Arr2.wf m ->
  exists c,
    (c = (centerX r, centerY prev) \/ c = (centerX prev, centerY r)) /\
    carved (fun x y => seg (centerX prev, centerY prev) c (x, y) \/
                       seg c (centerX r, centerY r) (x, y))
           m (fst (connect m prev r g)).
Proof.
  intros Hwf. unfold connect. destruct (rnd 0 1 g) as [coin g'].
  destruct (coin =? 0); cbn [fst].
  - exists (centerX r, centerY prev). split; [now left|].
    pose proof (carve_h_carved m (centerX prev) (centerX r) (centerY prev) Hwf)
      as H1.
    pose proof (carve_v_carved _ (centerY prev) (centerY r) (centerX r)
                  (proj1 H1)) as H2.
    eapply carved_ext; [|eapply carved_trans; [|exact H1|exact H2]].
    + intros x y. unfold seg. cbn [fst snd]. lia.
    + intros x y. cbv beta. lia.
  - exists (centerX prev, centerY r). split; [now right|].
    pose proof (carve_v_carved m (centerY prev) (centerY r) (centerX prev) Hwf)
      as H1.
    pose proof (carve_h_carved _ (centerX prev) (centerX r) (centerY r)
                  (proj1 H1)) as H2.
    eapply carved_ext; [|eapply carved_trans; [|exact H1|exact H2]].
    + intros x y. unfold seg. cbn [fst snd]. lia.
    + intros x y. cbv beta. lia.
Qed.

Lemma intersects_comm r o : intersects r o = intersects o r.
Proof.
  unfold intersects. f_equal.
  destruct (r_x r + r_w r <=? r_x o), (r_x o + r_w o <=? r_x r),
           (r_y r + r_h r <=? r_y o), (r_y o + r_h o <=? r_y r); reflexivity.
Qed.

Lemma room_valid_interior r x y :
  room_valid r -> in_rect r x y -> interior x y.
Proof. unfold room_valid, in_rect, interior. lia. Qed.

Lemma room_valid_center r :
  room_valid r -> in_rect r (centerX r) (centerY r).
Proof.
  intros H. unfold in_rect. apply center_in_room; unfold room_valid in H; lia.
Qed.

Lemma interior_in_bounds x y : interior x y -> in_bounds x y.
Proof. unfold interior, in_bounds. lia. Qed.

Lemma last_default_indep {B : Type} (l : list B) (d d' : B) :
  l <> [] -> last l d = last l d'.
Proof.
  induction l as [|a l IH]; intros H; [contradiction|].
  destruct l as [|b l]; [reflexivity|]. cbn [last]. cbn [last] in IH.
  apply IH. discriminate.
Qed.

Lemma ForallOrdPairs_snoc {B : Type} (R : B -> B -> Prop) (l : list B) (b : B) :
  ForallOrdPairs R l -> Forall (fun a => R a b) l ->
  ForallOrdPairs R (l ++ [b]).
Proof.
  induction 1 as [|a l Ha Hl IH]; intros Hb; simpl.
  - constructor; constructor.
  - inversion Hb as [|? ? Hab Hb']; subst. constructor; auto.
    apply Forall_app. split; [assumption|]. constructor; auto.
Qed.

(** Accepting a candidate keeps the invariant of the room loop. *)
Lemma accept_room_inv map rooms r g :
  rooms_inv map rooms -> room_valid r ->
  existsb (intersects r) rooms = false ->
  rooms_inv (fst (accept_room map rooms r g)) (rooms ++ [r]).
Proof.
  intros (Hwf & Hval & Hdis & Htl & Hint & Hrm & Hjn) Hr Hex.
  pose proof (carve_room_carved map r Hwf) as Hc1.
  pose proof (room_valid_center r Hr) as Hcr.
  (* the cells carved besides the room: the corridor, if any *)
  assert (Hcar : exists K : Z -> Z -> Prop,
             (forall x y, K x y \/ ~ K x y) /\
             (forall x y, K x y -> interior x y) /\
             carved (fun x y => in_rect r x y \/ K x y) map
                    (fst (accept_room map rooms r g)) /\
             (forall m', (forall x y, K x y -> floor_cell m' (x, y)) ->
                         floor_cell m' (centerX r, centerY r) ->
                         forall x y, K x y ->
                                     linked m' (x, y) (centerX r, centerY r)) /\
             (rooms <> [] ->
              K (centerX (last rooms r)) (centerY (last rooms r)))).
  { unfold accept_room. destruct rooms as [|r0 rs].
    - exists (fun _ _ => False). cbn [fst].
      split; [tauto|]. split; [tauto|]. split; [|split; [tauto|congruence]].
      eapply carved_ext; [|exact Hc1]. tauto.
    - set (prev := last (r0 :: rs) r).
      assert (Hpv : room_valid prev).
      { rewrite Forall_forall in Hval. apply Hval.
        unfold prev. destruct (exists_last (l := r0 :: rs) ltac:(discriminate))
          as (l' & a & E). rewrite E, last_last. apply in_or_app. right. now left. }
      pose proof (room_valid_center prev Hpv) as Hcp.
      destruct (connect_carved (carve_room map r) prev r g (proj1 Hc1))
        as (c & Hc & Hcv).
      exists (fun x y => seg (centerX prev, centerY prev) c (x, y) \/
                         seg c (centerX r, centerY r) (x, y)).
      assert (Hcin : interior (fst c) (snd c)).
      { apply (room_valid_interior _ _ _ Hpv) in Hcp.
        apply (room_valid_interior _ _ _ Hr) in Hcr.
        unfold interior in *. destruct Hc as [->| ->]; cbn [fst snd]; lia. }
      split; [|split; [|split; [|split]]].
      + intros x y. destruct (seg_dec (centerX prev, centerY prev) c (x, y));
          destruct (seg_dec c (centerX r, centerY r) (x, y)); tauto.
      + intros x y Hk.
        apply (room_valid_interior _ _ _ Hpv) in Hcp.
        apply (room_valid_interior _ _ _ Hr) in Hcr.
        unfold interior, seg in *. cbn [fst snd] in *. lia.
      + apply carved_trans with (carve_room map r); auto.
        intros x y. destruct (seg_dec (centerX prev, centerY prev) c (x, y));
          destruct (seg_dec c (centerX r, centerY r) (x, y)); tauto.
      + intros m' Hfl Hfc x y Hk.
        apply (corner_linked m' (centerX prev, centerY prev) c
                 (centerX r, centerY r) (x, y)); auto.
        * intros [dx dy] Hd. now apply Hfl.
        * unfold seg. destruct Hc as [->| ->]; cbn [fst snd]; lia.
        * unfold seg. destruct Hc as [->| ->]; cbn [fst snd]; lia.
      + intros _. left. unfold seg.
        destruct Hc as [->| ->]; cbn [fst snd]; lia. }
  destruct Hcar as (K & Kdec & Kint & Hcv & Klink & Kprev).
  set (map2 := fst (accept_room map rooms r g)) in *.
  assert (Tdec : forall x y, (in_rect r x y \/ K x y) \/ ~ (in_rect r x y \/ K x y)).
  { intros x y. destruct (in_rect_dec r x y); destruct (Kdec x y); tauto. }
  assert (Hfl2 : forall x y, tile map2 x y = FLOOR <->
                             ((in_rect r x y \/ K x y) /\ in_bounds x y) \/
                             tile map x y = FLOOR)
    by (intros x y;
        exact (carved_floor (fun x y => in_rect r x y \/ K x y) map map2 x y
                 Tdec Hcv)).
  assert (Tint : forall x y, in_rect r x y \/ K x y -> interior x y).
  { intros x y [H|H]; [now apply room_valid_interior with r|now apply Kint]. }
  assert (Hfc2 : forall x y, in_rect r x y \/ K x y -> floor_cell map2 (x, y)).
  { intros x y H. pose proof (interior_in_bounds _ _ (Tint x y H)) as Hb.
    split; [exact Hb|]. apply Hfl2. left. now split. }
  assert (Hold : forall c, floor_cell map c -> floor_cell map2 c).
  { intros c [Hb Hf]. split; [assumption|]. apply Hfl2. now right. }
  split; [apply Hcv|]. split; [|split; [|split; [|split; [|split]]]].
  - apply Forall_app. split; [assumption|]. now constructor.
  - apply ForallOrdPairs_snoc; [assumption|].
    apply Forall_forall. intros o Ho. rewrite intersects_comm.
    rewrite <- not_true_iff_false in Hex. rewrite existsb_exists in Hex.
    destruct (intersects r o) eqn:E; [|reflexivity]. elim Hex. eauto.
  - intros x y. destruct Hcv as [_ Hcv]. destruct (Hcv x y) as [A B].
    destruct (Tdec x y) as [Ht|Ht];
      [destruct (in_bounds_dec x y) as [Hb|Hb]|].
    + right. now apply A.
    + rewrite B by tauto. apply Htl.
    + rewrite B by tauto. apply Htl.
  - intros x y Hf. apply Hfl2 in Hf as [[Ht _]|Hf]; [now apply Tint|].
    now apply Hint.
  - intros o x y Ho Hin. apply in_app_or in Ho as [Ho|[<-|[]]].
    + apply Hfl2. right. now apply (Hrm o).
    + apply Hfc2. now left.
  - (* every Floor cell is linked to the new centre *)
    assert (Hgoal : forall a, floor_cell map2 a ->
                              linked map2 a (centerX r, centerY r)).
    { intros [x y] [Hb Hf]. cbn [fst snd] in *.
      assert (Hctr : floor_cell map2 (centerX r, centerY r))
        by (apply Hfc2; now left).
      apply Hfl2 in Hf as [[[Hin|Hk] _]|Hf].
      - apply (rect_linked map2 r); [|assumption..].
        intros x' y' H'. apply Hfc2. now left.
      - apply Klink; [|assumption..]. intros x' y' H'. apply Hfc2. now right.
      - destruct rooms as [|r0 rs]; [elim (Hjn x y Hf)|].
        cbn [joined] in Hjn.
        apply linked_trans with
          (centerX (last (r0 :: rs) r), centerY (last (r0 :: rs) r)).
        + rewrite (last_default_indep (r0 :: rs) r r0) by discriminate.
          apply linked_mono with map; auto. apply Hjn. now split.
        + apply Klink; [|assumption|].
          * intros x' y' H'. apply Hfc2. now right.
          * apply Kprev. discriminate. }
    unfold joined. destruct (rooms ++ [r]) as [|q0 qs] eqn:Eq.
    + destruct rooms; discriminate.
    + rewrite <- Eq, last_last. exact Hgoal.
Qed.

Lemma tile_outside m x y :
  Arr2.wf m -> ~ in_bounds x y -> tile m x y = WALL.
Proof.
  intros [Hl Hr] Hn. unfold tile, Arr2.get.
  destruct ((x <? 0) || (y <? 0)) eqn:Eneg; [reflexivity|].
  apply orb_false_iff in Eneg as [Ex Ey]. apply Z.ltb_ge in Ex, Ey.
  destruct (Nat.lt_ge_cases (Z.to_nat y) (length m)) as [Hlt|Hge].
  - apply nth_overflow. rewrite Forall_forall in Hr.
    rewrite (Hr (nth (Z.to_nat y) m [])) by (apply nth_In; lia).
    unfold in_bounds, MAP_W, MAP_H in *. lia.
  - rewrite (nth_overflow m) by assumption. now destruct (Z.to_nat x).
Qed.

Lemma tile_create_empty_map x y : tile create_empty_map x y = WALL.
Proof.
  destruct (in_bounds_dec x y) as [Hb|Hb].
  - unfold tile, create_empty_map. now apply Arr2Facts.get_make.
  - apply tile_outside; [apply Arr2Facts.wf_make|assumption].
Qed.

Lemma rooms_inv_empty : rooms_inv create_empty_map [].
Proof.
  split; [apply Arr2Facts.wf_make|]. split; [constructor|].
  split; [constructor|]. split; [|split; [|split]].
  - intros x y. left. apply tile_create_empty_map.
  - intros x y H. rewrite tile_create_empty_map in H. discriminate.
  - intros r x y [].
  - intros x y. rewrite tile_create_empty_map. discriminate.
Qed.

(** The room loop keeps its invariant and ends with [roomCount] rooms. *)
Lemma rooms_loop_layout fuel : forall i rc map rooms g map' rooms' g',
  rooms_loop fuel i rc map rooms g = Some (map', rooms', g') ->
  rooms_inv map rooms -> Z.of_nat (length rooms) = i -> i <= rc ->
  rooms_inv map' rooms' /\ Z.of_nat (length rooms') = rc.
Proof.
  induction fuel as [|fuel IH];
    intros i rc map rooms g map' rooms' g' H Hinv Hlen Hle; [discriminate|].
  cbn [rooms_loop] in H.
  destruct (i <? rc) eqn:Ei;
    [apply Z.ltb_lt in Ei
    |apply Z.ltb_ge in Ei; injection H as <- <- <-; split; [assumption|lia]].
  pose proof (rnd_range 3 8 g ltac:(lia)) as Hw.
  destruct (rnd 3 8 g) as [w g1]. cbn [fst] in Hw.
  pose proof (rnd_range 3 5 g1 ltac:(lia)) as Hh.
  destruct (rnd 3 5 g1) as [h g2]. cbn [fst] in Hh.
  pose proof (rnd_range 1 (MAP_W - w - 1) g2 ltac:(unfold MAP_W; lia)) as Hx.
  destruct (rnd 1 (MAP_W - w - 1) g2) as [x g3]. cbn [fst] in Hx.
  pose proof (rnd_range 1 (MAP_H - h - 1) g3 ltac:(unfold MAP_H; lia)) as Hy.
  destruct (rnd 1 (MAP_H - h - 1) g3) as [y g4]. cbn [fst] in Hy.
  set (r := mkRect x y w h) in *.
  destruct (existsb (intersects r) rooms) eqn:Ex.
  { apply (IH _ _ _ _ _ _ _ _ H); [assumption|lia|lia]. }
  assert (Hr : room_valid r).
  { unfold room_valid, r, MAP_W, MAP_H in *. cbn [r_x r_y r_w r_h]. lia. }
  pose proof (accept_room_inv map rooms r g4 Hinv Hr Ex) as Hacc.
  change (match rooms with
          | [] => (carve_room map r, g4)
          | _ :: _ => connect (carve_room map r) (last rooms r) r g4
          end) with (accept_room map rooms r g4) in H.
  destruct (accept_room map rooms r g4) as [map2 g5]. cbn [fst] in Hacc.
  apply (IH _ _ _ _ _ _ _ _ H); [assumption| |lia].
  rewrite length_app. cbn [length]. lia.
Qed.

(** The fallback of [generate_map_basic] is never taken: the grid it
    returns is the one the room loop carved. *)
Lemma generate_map_basic_layout fuel g map rooms g' :
  generate_map_basic fuel g = Some (map, rooms, g') ->
  rooms_inv map rooms /\
  Z.of_nat (length rooms) = fst (rnd 3 6 g) /\
  rooms_loop fuel 0 (fst (rnd 3 6 g)) create_empty_map [] (snd (rnd 3 6 g))
  = Some (map, rooms, g').
Proof.
  unfold generate_map_basic.
  pose proof (rnd_range 3 6 g ltac:(lia)) as Hrc.
  destruct (rnd 3 6 g) as [rc g1]. cbn [fst snd] in *.
  destruct (rooms_loop fuel 0 rc create_empty_map [] g1)
    as [[[m rs] g2]|] eqn:E; [|discriminate].
  intros [= <- <- <-].
  destruct (rooms_loop_layout _ _ _ _ _ _ _ _ _ E rooms_inv_empty)
    as [Hinv Hlen]; [reflexivity|lia|].
  assert (Ha : any_floor m = true).
  { apply any_floor_true. destruct rs as [|r0 rs]; [cbn in Hlen; lia|].
    destruct Hinv as (Hwf & Hval & _ & _ & Hint & Hrm & _).
    inversion Hval as [|? ? Hr0 _]; subst.
    exists (centerX r0), (centerY r0).
    pose proof (room_valid_center r0 Hr0) as Hc.
    split; [|apply (Hrm r0); [now left|assumption]].
    apply interior_in_bounds. now apply room_valid_interior with r0. }
  rewrite Ha. auto.
Qed.

Lemma intersects_false_disjoint a b x y :
  intersects a b = false -> ~ (in_rect a x y /\ in_rect b x y).
Proof.
  unfold intersects, in_rect. intros H [Ha Hb].
  apply negb_false_iff in H. rewrite !orb_true_iff, !Z.leb_le in H. lia.
Qed.

Lemma linked_walk map tx ty a b :
  linked map a b -> exists n, walk map tx ty [] a n b.
Proof.
  induction 1 as [a Ha|a b c Hab [n IH] Hd Hc].
  - exists O. constructor.
  - exists (S n). apply walk_snoc with b; [assumption|].
    apply step_iff_adjacent. split; [assumption|].
    destruct Hc as [Hb Hf]. split; [assumption|]. split; [assumption|].
    right. intros [].
Qed.

(** X5: the generator returns between three and six rooms, as many as
    the first draw asked for; each has width 3 to 8 and height 3 to 5 and
    lies inside the one-cell border; no cell belongs to two rooms; and every
    cell of every room is a Floor cell of the returned grid. *)
Theorem generate_map_basic_rooms fuel g map rooms g' :
  generate_map_basic fuel g = Some (map, rooms, g') ->
  3 <= Z.of_nat (length rooms) <= 6 /\
  Z.of_nat (length rooms) = fst (rnd 3 6 g) /\
  Forall room_valid rooms /\
  ForallOrdPairs (fun a b => intersects a b = false /\
                             forall x y, ~ (in_rect a x y /\ in_rect b x y))
                 rooms /\
  (forall r x y, In r rooms -> in_rect r x y -> floor_cell map (x, y)).
Proof.
  intros H. apply generate_map_basic_layout in H as (Hinv & Hlen & _).
  destruct Hinv as (Hwf & Hval & Hdis & _ & Hint & Hrm & _).
  pose proof (rnd_range 3 6 g ltac:(lia)) as Hrc.
  split; [lia|]. split; [assumption|]. split; [assumption|]. split.
  - clear - Hdis. induction Hdis as [|a l Ha Hl IH]; constructor; auto.
    eapply Forall_impl; [|exact Ha]. intros b Hb. split; [assumption|].
    intros x y. now apply intersects_false_disjoint.
  - intros r x y Hr Hin. pose proof (Hrm r x y Hr Hin) as Hf.
    split; [|assumption]. cbn [fst snd].
    apply interior_in_bounds. now apply Hint.
Qed.

Lemma generate_map_basic_rooms_witness :
  exists map rooms g',
    generate_map_basic 50 demo_rng = Some (map, rooms, g') /\
    Forall room_valid rooms /\
    (forall r x y, In r rooms -> in_rect r x y -> floor_cell map (x, y)).
Proof.
  eexists. eexists. eexists. split; [vm_compute; reflexivity|].
  refine ((fun H => conj (proj1 (proj2 (proj2 H)))
                         (proj2 (proj2 (proj2 (proj2 H)))))
            (generate_map_basic_rooms 50 demo_rng _ _ _ _)).
  vm_compute. reflexivity.
Defined.

(** X6: the grid the generator returns has the full 20 by 10 shape,
    holds only Wall and Floor tiles, and has no Floor on its outer border (nor
    outside the grid).  It is exactly the grid left by the room loop: the
    fallback that opens the whole interior is never taken. *)
Theorem generate_map_basic_grid fuel g map rooms g' :
  generate_map_basic fuel g = Some (map, rooms, g') ->
  Arr2.wf map /\
  (forall x y, tile map x y = WALL \/ tile map x y = FLOOR) /\
  (forall x y, tile map x y = FLOOR -> interior x y) /\
  any_floor map = true /\
  rooms_loop fuel 0 (fst (rnd 3 6 g)) create_empty_map [] (snd (rnd 3 6 g))
  = Some (map, rooms, g').
Proof.
  intros H. pose proof (generate_map_basic_ok _ _ _ _ _ H) as [_ Hfl].
  apply generate_map_basic_layout in H as (Hinv & _ & Hloop).
  destruct Hinv as (Hwf & _ & _ & Htl & Hint & _).
  split; [assumption|]. split; [assumption|]. split; [assumption|].
  split; [now apply any_floor_true|assumption].
Qed.

Lemma generate_map_basic_grid_witness :
  exists map rooms g',
    generate_map_basic 50 demo_rng = Some (map, rooms, g') /\
    Arr2.wf map /\
    (forall x y, tile map x y = FLOOR -> interior x y).
Proof.
  eexists. eexists. eexists. split; [vm_compute; reflexivity|].
  refine ((fun H => conj (proj1 H) (proj1 (proj2 (proj2 H))))
            (generate_map_basic_grid 50 demo_rng _ _ _ _)).
  vm_compute. reflexivity.
Defined.

Lemma generate_map_basic_linked fuel g map rooms g' :
  generate_map_basic fuel g = Some (map, rooms, g') -> connected map.
Proof.
  intros H a b Ha Hb.
  apply generate_map_basic_layout in H as (Hinv & Hlen & _).
  pose proof (rnd_range 3 6 g ltac:(lia)) as Hrc.
  destruct Hinv as (_ & _ & _ & _ & _ & _ & Hjn).
  destruct rooms as [|r0 rs]; [cbn [length] in Hlen; lia|]. cbn [joined] in Hjn.
  eapply linked_trans; [apply Hjn, Ha|]. apply linked_sym. apply Hjn, Hb.
Qed.

(** X7: the Floor of a generated grid is connected.  Any two Floor cells
    are joined by a path of moves between 4-neighbours that enters Floor
    cells only, which is the path notion of the pathfinder with no obstacle. *)
Theorem generate_map_basic_connected fuel g map rooms g' :
  generate_map_basic fuel g = Some (map, rooms, g') ->
  forall a b, floor_cell map a -> floor_cell map b ->
              linked map a b /\
              exists n, walk map (fst b) (snd b) [] a n b.
Proof.
  intros H a b Ha Hb.
  pose proof (generate_map_basic_linked _ _ _ _ _ H a b Ha Hb) as L.
  split; [assumption|]. now apply linked_walk.
Qed.

Lemma generate_map_basic_connected_witness :
  exists map rooms g',
    generate_map_basic 50 demo_rng = Some (map, rooms, g') /\
    floor_cell map (4, 1) /\ floor_cell map (15, 5) /\
    linked map (4, 1) (15, 5).
Proof.
  eexists. eexists. eexists. split; [vm_compute; reflexivity|].
  assert (Ha : floor_cell
                 (fst (fst (match generate_map_basic 50 demo_rng with
                            | Some v => v
                            | None => (create_empty_map, [], demo_rng)
                            end))) (4, 1)).
  { split; [unfold in_bounds, MAP_W, MAP_H; cbn; lia|vm_compute; reflexivity]. }
  assert (Hb : floor_cell
                 (fst (fst (match generate_map_basic 50 demo_rng with
                            | Some v => v
                            | None => (create_empty_map, [], demo_rng)
                            end))) (15, 5)).
  { split; [unfold in_bounds, MAP_W, MAP_H; cbn; lia|vm_compute; reflexivity]. }
  split; [exact Ha|]. split; [exact Hb|].
  refine (proj1 (generate_map_basic_connected 50 demo_rng _ _ _ _ _ _ Ha Hb)).
  vm_compute. reflexivity.
Defined.

(** ** Placement by difficulty *)

Lemma diffConfigs_ok diff : config_ok (diffConfigs diff).
Proof. destruct diff; unfold config_ok; cbn; lia. Qed.

Lemma enemies_loop_stats fuel : forall i ecount map px py cfg es g es' g',
  enemyHpMin cfg <= enemyHpMax cfg ->
  enemies_loop fuel i ecount map px py cfg es g = Some (es', g') ->
  Z.of_nat (length es) = i -> i <= ecount -> Forall (fresh_enemy cfg) es ->
  Z.of_nat (length es') = ecount /\ Forall (fresh_enemy cfg) es'.
Proof.
  induction fuel as [|fuel IH];
    intros i ecount map px py cfg es g es' g' Hcfg H Hlen Hle Hfr;
    [discriminate|].
  cbn [enemies_loop] in H.
  destruct (i <? ecount) eqn:Ei;
    [apply Z.ltb_lt in Ei
    |apply Z.ltb_ge in Ei; injection H as <- <-; split; [lia|assumption]].
  destruct (random_floor_tile map g) as [p g1].
  destruct ((fst p =? px) && (snd p =? py));
    [apply (IH _ _ _ _ _ _ _ _ _ _ Hcfg H); [lia|lia|assumption]|].
  destruct (existsb (enemy_at (fst p) (snd p)) es);
    [apply (IH _ _ _ _ _ _ _ _ _ _ Hcfg H); [lia|lia|assumption]|].
  pose proof (rnd_range (enemyHpMin cfg) (enemyHpMax cfg) g1 Hcfg) as Hhp.
  destruct (rnd (enemyHpMin cfg) (enemyHpMax cfg) g1) as [hp g2].
  cbn [fst] in Hhp.
  apply (IH _ _ _ _ _ _ _ _ _ _ Hcfg H).
  - rewrite length_app. cbn [length]. lia.
  - lia.
  - apply Forall_app. split; [assumption|]. constructor; [|constructor].
    split; [reflexivity|exact Hhp].
Qed.

Lemma items_loop_count fuel : forall i pcount map px py es its g its' g',
  items_loop fuel i pcount map px py es its g = Some (its', g') ->
  Z.of_nat (length its) = i -> i <= pcount ->
  Z.of_nat (length its') = pcount.
Proof.
  induction fuel as [|fuel IH];
    intros i pcount map px py es its g its' g' H Hlen Hle; [discriminate|].
  cbn [items_loop] in H.
  destruct (i <? pcount) eqn:Ei;
    [apply Z.ltb_lt in Ei|apply Z.ltb_ge in Ei; injection H as <- <-; lia].
  destruct (random_floor_tile map g) as [p g1].
  destruct ((fst p =? px) && (snd p =? py));
    [apply (IH _ _ _ _ _ _ _ _ _ _ H); lia|].
  destruct (existsb (item_at (fst p) (snd p)) its
            || existsb (enemy_at (fst p) (snd p)) es);
    [apply (IH _ _ _ _ _ _ _ _ _ _ H); lia|].
  apply (IH _ _ _ _ _ _ _ _ _ _ H); [|lia].
  rewrite length_app. cbn [length]. lia.
Qed.

(** What [regenerate_map] hands to [main] besides the positions. *)
Lemma regenerate_map_stats fuel diff g p :
  regenerate_map fuel diff g = Some p ->
  let cfg := diffConfigs diff in
  (exists g1, generate_map_basic fuel g = Some (p_map p, p_rooms p, g1)) /\
  (exists r0 rs, p_rooms p = r0 :: rs /\
                 p_playerX p = centerX r0 /\ p_playerY p = centerY r0) /\
  enemyMin cfg <= Z.of_nat (length (p_enemies p)) <= enemyMax cfg /\
  Forall (fresh_enemy cfg) (p_enemies p) /\
  potionMin cfg <= Z.of_nat (length (p_items p)) <= potionMax cfg /\
  enemyAtkMin cfg <= p_enemyAttackDamage p <= enemyAtkMax cfg /\
  p_playerMaxHP p = 20 /\ p_playerAttack p = 4 /\ p_score p = 0.
Proof.
  intros H cfg. unfold regenerate_map in H.
  pose proof (diffConfigs_ok diff) as (Ce & Ch & Ca & Cp). fold cfg in Ce, Ch, Ca, Cp.
  destruct (generate_map_basic fuel g) as [[[map rooms] g1]|] eqn:Eg;
    [|discriminate].
  pose proof (generate_map_basic_layout _ _ _ _ _ Eg) as (_ & Hlen & _).
  pose proof (rnd_range 3 6 g ltac:(lia)) as Hrc.
  destruct rooms as [|r0 rs]; [cbn [length] in Hlen; lia|].
  fold cfg in H.
  pose proof (rnd_range (enemyMin cfg) (enemyMax cfg) g1 ltac:(lia)) as Hec.
  destruct (rnd (enemyMin cfg) (enemyMax cfg) g1) as [ecount g3].
  cbn [fst] in Hec.
  destruct (enemies_loop fuel 0 ecount map (centerX r0) (centerY r0) cfg [] g3)
    as [[es g4]|] eqn:Ee; [|discriminate].
  apply enemies_loop_stats in Ee as [Hel Hef];
    [|lia|reflexivity|lia|constructor].
  pose proof (rnd_range (potionMin cfg) (potionMax cfg) g4 ltac:(lia)) as Hpc.
  destruct (rnd (potionMin cfg) (potionMax cfg) g4) as [pcount g5].
  cbn [fst] in Hpc.
  destruct (items_loop fuel 0 pcount map (centerX r0) (centerY r0) es [] g5)
    as [[its g6]|] eqn:Ei; [|discriminate].
  apply items_loop_count in Ei; [|reflexivity|lia].
  pose proof (rnd_range (enemyAtkMin cfg) (enemyAtkMax cfg) g6 ltac:(lia)) as Hd.
  destruct (rnd (enemyAtkMin cfg) (enemyAtkMax cfg) g6) as [dmg g7].
  cbn [fst] in Hd. injection H as <-. cbn.
  split; [now exists g1|]. split; [now exists r0, rs|].
  repeat (split; [lia || assumption|]). auto.
Qed.

(** X8: placement follows the difficulty tier.  The number of enemies
    and of potions lies in the tier's ranges (EASY 2-4 and 5-7, NORMAL 3-6
    and 3-5, HARD 5-8 and 1-3); every enemy starts alive with hit points in
    the tier's range; the enemy damage bound drawn lies in the tier's range;
    the player starts at the centre of the first room with maximum HP 20,
    attack 4 and score 0. *)
Theorem regenerate_map_by_difficulty fuel diff g p :
  regenerate_map fuel diff g = Some p ->
  (exists r0 rs, p_rooms p = r0 :: rs /\
                 p_playerX p = centerX r0 /\ p_playerY p = centerY r0) /\
  enemyMin (diffConfigs diff) <= Z.of_nat (length (p_enemies p))
    <= enemyMax (diffConfigs diff) /\
  Forall (fun e => e_alive e = true /\
                   enemyHpMin (diffConfigs diff) <= e_hp e
                     <= enemyHpMax (diffConfigs diff)) (p_enemies p) /\
  potionMin (diffConfigs diff) <= Z.of_nat (length (p_items p))
    <= potionMax (diffConfigs diff) /\
  enemyAtkMin (diffConfigs diff) <= p_enemyAttackDamage p
    <= enemyAtkMax (diffConfigs diff) /\
  p_playerMaxHP p = 20 /\ p_playerAttack p = 4 /\ p_score p = 0 /\
  2 <= Z.of_nat (length (p_enemies p)) <= 8 /\
  1 <= Z.of_nat (length (p_items p)) <= 7.
Proof.
  intros H. apply regenerate_map_stats in H.
  destruct H as (_ & Hpl & He & Hf & Hp & Hd & H1 & H2 & H3).
  split; [assumption|]. split; [assumption|]. split; [exact Hf|].
  split; [assumption|]. split; [assumption|].
  split; [assumption|]. split; [assumption|]. split; [assumption|].
  destruct diff; cbn in He, Hp; lia.
Qed.

Lemma regenerate_map_by_difficulty_witness :
  exists p,
    regenerate_map 50 EASY demo_rng = Some p /\
    2 <= Z.of_nat (length (p_enemies p)) <= 4 /\
    5 <= Z.of_nat (length (p_items p)) <= 7.
Proof.
  eexists. split; [vm_compute; reflexivity|].
  refine ((fun H => conj (proj1 (proj2 H))
                         (proj1 (proj2 (proj2 (proj2 H)))))
            (regenerate_map_by_difficulty 50 EASY demo_rng _ _)).
  vm_compute. reflexivity.
Defined.

(** ** Lookups *)

Lemma item_index_from_spec x y its : forall i,
  0 <= i ->
  (item_index_from i its x y = -1 /\ ~ In (x, y) (List.map it_pos its)) \/
  (exists l1 it l2,
     its = l1 ++ it :: l2 /\
     item_index_from i its x y = i + Z.of_nat (length l1) /\
     it_pos it = (x, y) /\ ~ In (x, y) (List.map it_pos l1)).
Proof.
  induction its as [|a its IH]; intros i Hi; cbn [item_index_from].
  - left. split; [reflexivity|intros []].
  - destruct ((it_x a =? x) && (it_y a =? y)) eqn:E.
    + right. exists [], a, its. cbn [app length List.map].
      rewrite andb_true_iff, !Z.eqb_eq in E. destruct E as [Ex Ey].
      unfold it_pos. rewrite Ex, Ey.
      split; [reflexivity|]. split; [lia|]. split; [reflexivity|intros []].
    + assert (Hne : it_pos a <> (x, y)).
      { intros Ep. unfold it_pos in Ep. injection Ep as Ex Ey.
        rewrite Ex, Ey, !Z.eqb_refl in E. discriminate. }
      destruct (IH (i + 1) ltac:(lia))
        as [[E1 Hn]|(l1 & it & l2 & -> & E1 & Ep & Hn)].
      * left. split; [assumption|]. cbn [List.map]. intros [Ep|Hin]; auto.
      * right. exists (a :: l1), it, l2. cbn [app length List.map].
        split; [reflexivity|]. split; [lia|]. split; [assumption|].
        intros [Ep'|Hin]; auto.
Qed.

(** X9: the two lookups of the main loop.  [enemy_index_at] returns -1
    exactly when no live enemy stands on the cell and otherwise the index of
    the first live enemy there, so dead enemies are skipped;
    [item_index_at] returns -1 exactly when no potion lies on the cell and
    otherwise the index of the first potion there.  The result is always -1
    or a valid index. *)
Theorem index_at_first_match es its x y :
  (enemy_index_at es x y = -1 <-> ~ In (x, y) (live_cells es)) /\
  (In (x, y) (live_cells es) ->
   exists l1 e l2,
     es = l1 ++ e :: l2 /\ enemy_index_at es x y = Z.of_nat (length l1) /\
     e_alive e = true /\ e_pos e = (x, y) /\ ~ In (x, y) (live_cells l1)) /\
  -1 <= enemy_index_at es x y < Z.of_nat (length es) /\
  (item_index_at its x y = -1 <-> ~ In (x, y) (List.map it_pos its)) /\
  (In (x, y) (List.map it_pos its) ->
   exists l1 it l2,
     its = l1 ++ it :: l2 /\ item_index_at its x y = Z.of_nat (length l1) /\
     it_pos it = (x, y) /\ ~ In (x, y) (List.map it_pos l1)) /\
  -1 <= item_index_at its x y < Z.of_nat (length its).
Proof.
  unfold enemy_index_at, item_index_at.
  destruct (enemy_index_from_spec x y es 0 ltac:(lia))
    as [[E Hn]|(l1 & e & l2 & -> & E & Ha & Ep & Hn)];
    destruct (item_index_from_spec x y its 0 ltac:(lia))
    as [[E' Hn']|(l1' & it & l2' & -> & E' & Ep' & Hn')];
    rewrite E, E'; rewrite ?length_app; cbn [length].
  - repeat (split; try tauto; try lia).
  - assert (Hin : In (x, y) (List.map it_pos (l1' ++ it :: l2'))).
    { rewrite map_app. apply in_or_app. right. left. assumption. }
    split; [tauto|]. split; [tauto|]. split; [lia|]. split; [split; [lia|tauto]|].
    split; [|lia]. intros _. exists l1', it, l2'. auto.
  - assert (Hin : In (x, y) (live_cells (l1 ++ e :: l2))).
    { rewrite live_cells_app, live_cells_cons, Ha.
      apply in_or_app. right. left. assumption. }
    split; [split; [lia|tauto]|]. split.
    { intros _. exists l1, e, l2. auto. }
    split; [lia|]. split; [tauto|]. split; [tauto|lia].
  - assert (Hin : In (x, y) (live_cells (l1 ++ e :: l2))).
    { rewrite live_cells_app, live_cells_cons, Ha.
      apply in_or_app. right. left. assumption. }
    assert (Hin' : In (x, y) (List.map it_pos (l1' ++ it :: l2'))).
    { rewrite map_app. apply in_or_app. right. left. assumption. }
    split; [split; [lia|tauto]|]. split.
    { intros _. exists l1, e, l2. auto. }
    split; [lia|]. split; [split; [lia|tauto]|].
    split; [|lia]. intros _. exists l1', it, l2'. auto.
Qed.

(** ** The pathfinder's answer *)

(** A target next to the start that is a Floor cell is the answer. *)
Lemma bfs_next_step_adjacent map sx sy tx ty occupied :
  in_bounds sx sy -> manhattan (sx, sy) (tx, ty) = 1 ->
  floor_cell map (tx, ty) ->
  bfs_next_step map sx sy tx ty occupied = Some (tx, ty).
Proof.
  intros Hs Hm [Hb Hf].
  assert (Hst : step map tx ty occupied (sx, sy) (tx, ty)).
  { apply step_iff_adjacent. split; [assumption|].
    split; [assumption|]. split; [assumption|now left]. }
  assert (Hw : walk map tx ty occupied (sx, sy) 1 (tx, ty))
    by (apply walk_snoc with (sx, sy); [constructor|assumption]).
  destruct (bfs_next_step_cases map tx ty occupied sx sy Hs)
    as [[E _]|[(_ & r & d & E & _ & Hrd & Hmin)|(_ & Hno & _)]].
  - rewrite E in Hm. unfold manhattan in Hm. cbn in Hm. lia.
  - specialize (Hmin _ Hw). assert (d = O) by lia. subst d.
    inversion Hrd. now subst.
  - elim (Hno _ Hw).
Qed.

(** X10: the pathfinder always answers, within its bound on loop
    iterations, and the answer is either the start itself or one of its four
    neighbours, which is then in range, a Floor cell and not one of the
    obstacle cells unless it is the target.  When the target is a Floor cell
    next to the start the answer is the target. *)
Theorem bfs_next_step_safe map sx sy tx ty occupied :
  in_bounds sx sy ->
  exists r,
    bfs_next_step map sx sy tx ty occupied = Some r /\
    (r = (sx, sy) \/
     (manhattan (sx, sy) r = 1 /\ floor_cell map r /\
      (r = (tx, ty) \/ ~ In r occupied))) /\
    (manhattan (sx, sy) (tx, ty) = 1 -> floor_cell map (tx, ty) ->
     r = (tx, ty)).
Proof.
  intros Hs.
  destruct (bfs_next_step_result map sx sy tx ty occupied Hs) as (r & E & Hr).
  exists r. split; [assumption|]. split.
  - destruct Hr as [->|[Hm (Hb & Hf & Ho)]]; [now left|right].
    split; [assumption|]. split; [now split|assumption].
  - intros Hm Hf.
    rewrite (bfs_next_step_adjacent map sx sy tx ty occupied Hs Hm Hf) in E.
    congruence.
Qed.

Lemma bfs_next_step_safe_witness :
  exists r,
    bfs_next_step walled_grid 2 4 9 8 [(3, 4); (2, 5)] = Some r /\
    (r = (2, 4) \/
     (manhattan (2, 4) r = 1 /\ floor_cell walled_grid r /\
      (r = (9, 8) \/ ~ In r [(3, 4); (2, 5)]))).
Proof.
  destruct (bfs_next_step_safe walled_grid 2 4 9 8 [(3, 4); (2, 5)]
              ltac:(unfold in_bounds, MAP_W, MAP_H; lia)) as (r & E & Hr & _).
  exists r. split; [exact E|exact Hr].
Defined.

(** ** Bookkeeping of a session *)

Lemma kills_app es1 es2 : kills (es1 ++ es2) = kills es1 + kills es2.
Proof. unfold kills. rewrite filter_app, length_app. lia. Qed.

Lemma kills_cons e es :
  kills (e :: es) = (if e_alive e then 0 else 1) + kills es.
Proof.
  unfold kills. cbn [filter]. unfold dead at 1.
  destruct (e_alive e); cbn [negb length]; lia.
Qed.

Lemma kills_fresh cfg es : Forall (fresh_enemy cfg) es -> kills es = 0.
Proof.
  induction 1 as [|e es [Ha _] _ IH]; [reflexivity|].
  rewrite kills_cons, Ha, IH. reflexivity.
Qed.

Lemma NoDup_erase {B : Type} (n : nat) (l : list B) :
  NoDup l -> NoDup (erase n l).
Proof.
  revert n. induction l as [|a l IH]; intros [|n] H; cbn [erase];
    [constructor|constructor|now inversion H|].
  inversion H as [|? ? Ha Hl]; subst. constructor; [|now apply IH].
  intros Hin. apply Ha. clear - Hin. revert n Hin.
  induction l as [|b l IH]; intros [|n] Hin; cbn [erase] in Hin;
    [destruct Hin|destruct Hin|now right|].
  destruct Hin as [->|Hin]; [now left|right; eauto].
Qed.

Lemma erase_length {B : Type} (n : nat) (l : list B) :
  (length (erase n l) <= length l)%nat.
Proof.
  revert n. induction l as [|a l IH]; intros [|n]; cbn [erase length];
    [lia|lia|lia|]. specialize (IH n). lia.
Qed.

Lemma initial_state_tidy fuel diff g f s :
  initial_state fuel diff g f = Some s -> tidy s.
Proof.
  unfold initial_state.
  destruct (regenerate_map fuel diff g) as [p|] eqn:E; [|discriminate].
  intros [= <-].
  pose proof (regenerate_map_placed _ _ _ _ E) as (Hp & _ & (Hnd & _)).
  apply regenerate_map_stats in E.
  destruct E as ([g1 Eg] & _ & He & Hf & Hi & _ & Hm & Ha & Hs).
  apply generate_map_basic_layout in Eg as (Hinv & _ & _).
  destruct Hinv as (Hwf & _ & _ & Htl & Hint & _).
  unfold tidy. cbn [st_map st_playerX st_playerY st_playerMaxHP st_playerAttack
                    st_playerHP st_turns st_score st_enemies st_items].
  split; [assumption|]. split; [assumption|]. split; [assumption|].
  split; [assumption|]. split; [assumption|]. split; [assumption|].
  split; [lia|]. split; [lia|]. split.
  { rewrite (kills_fresh _ _ Hf). lia. }
  split.
  { eapply Forall_impl; [|exact Hf]. intros e [Hal Hhp].
    unfold hp_agrees. rewrite Hal.
    pose proof (diffConfigs_ok diff) as (_ & Ch & _). lia. }
  split; [destruct diff; cbn in He; lia|].
  split; [assumption|destruct diff; cbn in Hi; lia].
Qed.

Lemma player_action_tidy s nx ny :
  tidy s -> oob nx ny = false -> tidy (player_action s nx ny).
Proof.
  intros (Hwf & Htl & Hint & Hp & Hm & Ha & Hhp & Ht & Hs & Hag & Hn & Hnd & Hni)
         Ho.
  apply in_bounds_oob in Ho. unfold player_action.
  destruct (Ascii.eqb (tile (st_map s) nx ny) WALL) eqn:Ew.
  { unfold tidy. cbn [st_map st_playerX st_playerY st_playerMaxHP
                      st_playerAttack st_playerHP st_turns st_score
                      st_enemies st_items].
    repeat (split; [assumption|]). split; [lia|]. auto. }
  assert (Hdest : floor_cell (st_map s) (nx, ny)).
  { split; [assumption|]. cbn [fst snd].
    destruct (Htl nx ny) as [E|E]; [|assumption].
    rewrite E in Ew. discriminate. }
  unfold enemy_index_at.
  destruct (enemy_index_from_spec nx ny (st_enemies s) 0 ltac:(lia))
    as [[Ei Hno]|(l1 & e & l2 & E & Ei & Hal & Ep & Hno)]; rewrite Ei.
  - change (-1 =? -1) with true. cbn [negb].
    destruct (negb (item_index_at (st_items s) nx ny =? -1)).
    + pose proof (rnd_range 6 10 (st_rng s) ltac:(lia)) as Hr.
      destruct (rnd 6 10 (st_rng s)) as [heal g']. cbn [fst] in Hr.
      unfold tidy. cbn [st_map st_playerX st_playerY st_playerMaxHP
                        st_playerAttack st_playerHP st_turns st_score
                        st_enemies st_items].
      repeat (split; [assumption|]). split; [lia|]. split; [lia|].
      repeat (split; [assumption|]).
      split; [rewrite map_erase; now apply NoDup_erase|].
      pose proof (erase_length (Z.to_nat (item_index_at (st_items s) nx ny))
                    (st_items s)). lia.
    + unfold tidy. cbn [st_map st_playerX st_playerY st_playerMaxHP
                        st_playerAttack st_playerHP st_turns st_score
                        st_enemies st_items].
      repeat (split; [assumption|]). split; [lia|]. auto.
  - assert (Hidx : (0 + Z.of_nat (length l1) =? -1) = false)
      by (apply Z.eqb_neq; lia).
    rewrite Hidx. cbn [negb]. rewrite Z.add_0_l, Nat2Z.id.
    rewrite E in *. rewrite nth_middle, !list_upd_app.
    rewrite kills_app, kills_cons, Hal in Hs.
    apply Forall_app in Hag as [Hag1 Hag2].
    inversion Hag2 as [|? ? Hage Hag3]; subst.
    rewrite length_app in Hn. cbn [length] in Hn.
    destruct (e_hp e - st_playerAttack s <=? 0) eqn:Eh;
      [apply Z.leb_le in Eh|apply Z.leb_gt in Eh];
      unfold tidy; cbn [st_map st_playerX st_playerY st_playerMaxHP
                        st_playerAttack st_playerHP st_turns st_score
                        st_enemies st_items];
      rewrite kills_app, kills_cons, length_app; cbn [e_alive length].
    + repeat (split; [assumption|]). split; [lia|]. split; [lia|].
      split; [|auto].
      apply Forall_app. split; [assumption|]. constructor; [|assumption].
      unfold hp_agrees. cbn [e_alive e_hp]. assumption.
    + rewrite Hal.
      repeat (split; [assumption|]). split; [lia|]. split; [lia|].
      split; [|auto].
      apply Forall_app. split; [assumption|]. constructor; [|assumption].
      unfold hp_agrees. cbn [e_alive e_hp]. lia.
Qed.

Lemma e_stat_same es : forall es',
  List.map e_stat es' = List.map e_stat es ->
  length es' = length es /\ kills es' = kills es /\
  (Forall hp_agrees es -> Forall hp_agrees es').
Proof.
  induction es as [|e es IH]; intros [|e' es'] H; try discriminate.
  - auto.
  - cbn [List.map] in H. injection H as Hhp Hal H.
    destruct (IH es' H) as (Hl & Hk & Hf).
    split; [cbn [length]; lia|]. split.
    + rewrite !kills_cons, Hal, Hk. reflexivity.
    + intros Hag. inversion Hag as [|? ? He Hes]; subst.
      constructor; [|auto]. unfold hp_agrees in *. now rewrite Hal, Hhp.
Qed.

Lemma resolve_moves_stat map cfg px py :
  1 <= enemyAtkMin cfg <= enemyAtkMax cfg ->
  forall es np r es' r',
    resolve_moves map cfg px py es np r = (es', r') ->
    List.map e_stat es' = List.map e_stat es /\ rs_hp r' <= rs_hp r.
Proof.
  intros Hcfg. induction es as [|e es IH]; intros np r es' r' H.
  - cbn [resolve_moves] in H. injection H as <- <-. split; [reflexivity|lia].
  - destruct np as [|c np];
      [cbn [resolve_moves] in H; injection H as <- <-;
       split; [reflexivity|lia]|].
    cbn [resolve_moves] in H. destruct (negb (e_alive e)).
    + destruct (resolve_moves map cfg px py es np r) as [es1 r1] eqn:E.
      injection H as <- <-. destruct (IH _ _ _ _ E) as [Hst Hhp].
      split; [cbn [List.map]; now rewrite Hst|assumption].
    + pose proof (resolve_one_spec map cfg px py e c r)
        as (Hh & Hal & _ & Hat & Hmv).
      destruct (resolve_one map cfg px py e c r) as [e1 r1].
      cbn [fst snd] in Hh, Hal, Hat, Hmv.
      destruct (resolve_moves map cfg px py es np r1) as [es1 r2] eqn:E.
      injection H as <- <-. destruct (IH _ _ _ _ E) as [Hst Hhp].
      split.
      * cbn [List.map]. rewrite Hst. unfold e_stat. now rewrite Hh, Hal.
      * destruct (cell_eq_dec c (px, py)) as [Ec|Ec].
        -- destruct (Hat Ec) as (_ & Hr & _).
           pose proof (rnd_range (enemyAtkMin cfg) (enemyAtkMax cfg) (rs_rng r)
                         ltac:(lia)). lia.
        -- destruct (Hmv Ec) as (Hr & _). lia.
Qed.

Lemma rescan_le cfg px py :
  1 <= enemyAtkMin cfg <= enemyAtkMax cfg ->
  forall es hp g, fst (rescan cfg px py es hp g) <= hp.
Proof.
  intros Hcfg. induction es as [|e es IH]; intros hp g; cbn [rescan fst];
    [lia|].
  destruct (negb (e_alive e)); [apply IH|].
  destruct ((e_x e =? px) && (e_y e =? py)); [|apply IH].
  pose proof (rnd_range (enemyAtkMin cfg) (enemyAtkMax cfg) g ltac:(lia)) as Hr.
  destruct (rnd (enemyAtkMin cfg) (enemyAtkMax cfg) g) as [d g'].
  cbn [fst] in Hr. specialize (IH (hp - d) g'). lia.
Qed.

(** What an enemy turn leaves alone: the grid, the potions, the player's
    cell and statistics, the counters, and the hit points and life of every
    enemy.  The player's hit points do not grow. *)
Lemma enemy_turn_frame s s' :
  enemy_turn s = Some s' ->
  st_map s' = st_map s /\ st_items s' = st_items s /\
  st_playerX s' = st_playerX s /\ st_playerY s' = st_playerY s /\
  st_playerMaxHP s' = st_playerMaxHP s /\
  st_playerAttack s' = st_playerAttack s /\
  st_score s' = st_score s /\ st_turns s' = st_turns s /\
  st_highScore s' = st_highScore s /\ st_diff s' = st_diff s /\
  List.map e_stat (st_enemies s') = List.map e_stat (st_enemies s) /\
  st_playerHP s' <= st_playerHP s.
Proof.
  unfold enemy_turn.
  destruct (plan_moves (st_map s) (st_playerX s) (st_playerY s) (st_enemies s))
    as [np|]; [|discriminate].
  pose proof (diffConfigs_ok (st_diff s)) as (_ & _ & Ca & _).
  destruct (resolve_moves (st_map s) (diffConfigs (st_diff s))
              (st_playerX s) (st_playerY s) (st_enemies s) np
              (mkResolve [] (st_playerHP s) (st_rng s))) as [es' r] eqn:Er.
  apply (resolve_moves_stat _ _ _ _ Ca) in Er as [Hst Hhp]. cbn [rs_hp] in Hhp.
  pose proof (rescan_le (diffConfigs (st_diff s)) (st_playerX s) (st_playerY s)
                Ca es' (rs_hp r) (rs_rng r)) as Hre.
  destruct (rescan (diffConfigs (st_diff s)) (st_playerX s) (st_playerY s) es'
                   (rs_hp r) (rs_rng r)) as [hp2 g2].
  cbn [fst] in Hre. intros [= <-].
  cbn [st_map st_items st_playerX st_playerY st_playerMaxHP st_playerAttack
       st_score st_turns st_highScore st_diff st_enemies st_playerHP].
  repeat (split; [reflexivity|]). split; [assumption|].
  destruct (hp2 >? 999) eqn:E; [apply Z.gtb_lt in E|]; lia.
Qed.

Lemma enemy_turn_tidy s s' : tidy s -> enemy_turn s = Some s' -> tidy s'.
Proof.
  intros (Hwf & Htl & Hint & Hp & Hm & Ha & Hhp & Ht & Hs & Hag & Hn & Hnd & Hni)
         H.
  apply enemy_turn_frame in H
    as (E1 & E2 & E3 & E4 & E5 & E6 & E7 & E8 & _ & _ & Hst & Hle).
  apply e_stat_same in Hst as (Hl & Hk & Hf).
  unfold tidy. rewrite E1, E2, E3, E4, E5, E6, E7, E8, Hl, Hk.
  repeat (split; [assumption|]). split; [lia|].
  repeat (split; [assumption|]). split; [now apply Hf|]. auto.
Qed.

Lemma reachable_tidy s : reachable s -> tidy s.
Proof.
  induction 1 as [fuel diff g f s H|s nx ny _ IH Ho|s s' _ IH H].
  - now apply initial_state_tidy in H.
  - now apply player_action_tidy.
  - now apply enemy_turn_tidy with s.
Qed.

(** ** The loop over the input *)

(** What the player's action leaves alone, in every branch. *)
Lemma player_action_frame s nx ny :
  let s' := player_action s nx ny in
  st_map s' = st_map s /\ st_highScore s' = st_highScore s /\
  st_diff s' = st_diff s /\ st_turns s' = st_turns s + 1 /\
  ((st_playerX s', st_playerY s') = (st_playerX s, st_playerY s) \/
   ((st_playerX s', st_playerY s') = (nx, ny) /\
    tile (st_map s) nx ny <> WALL)).
Proof.
  cbv zeta. unfold player_action.
  destruct (Ascii.eqb (tile (st_map s) nx ny) WALL) eqn:Ew;
    [cbn; auto 6|].
  assert (Hw : tile (st_map s) nx ny <> WALL)
    by (intros E; rewrite E in Ew; discriminate).
  destruct (negb (enemy_index_at (st_enemies s) nx ny =? -1)).
  - destruct (e_hp _ - st_playerAttack s <=? 0); cbn; auto 7.
  - destruct (negb (item_index_at (st_items s) nx ny =? -1));
      [destruct (rnd 6 10 (st_rng s))|]; cbn; auto 7.
Qed.

(** A pass through the loop body that continues keeps the file and the
    best score read at start-up. *)
Lemma loop_body_continue w s f inp s' f' :
  loop_body w s f inp = Some (Continue s' f') ->
  f' = f /\ st_highScore s' = st_highScore s.
Proof.
  unfold loop_body. destruct (st_playerHP s <=? 0); [discriminate|].
  destruct inp as [ch|]; [|discriminate].
  destruct (is_key ch "q" "Q"); [discriminate|].
  destruct (if is_key ch "w" "W" then _ else _) as [[nx ny]|];
    [|intros [= <- <-]; auto].
  destruct (oob nx ny); [intros [= <- <-]; auto|].
  destruct (enemy_turn (player_action s nx ny)) as [s1|] eqn:E; [|discriminate].
  intros [= <- <-]. split; [reflexivity|].
  apply enemy_turn_frame in E as (_ & _ & _ & _ & _ & _ & _ & _ & -> & _).
  apply player_action_frame.
Qed.

(** Leaving the loop: the state is the one the pass started with, and the
    file is rewritten only by a score above the best read at start-up. *)
Lemma loop_body_exit w s f inp s' f' :
  loop_body w s f inp = Some (Exit s' f') ->
  s' = s /\
  (f' = f \/
   (w = true /\ f' = Some (st_score s) /\ st_highScore s < st_score s)).
Proof.
  unfold loop_body, save_high_score.
  assert (Hsv : forall f0,
            f0 = (if st_score s >? st_highScore s
                  then if w then Some (st_score s) else f else f) ->
            f0 = f \/
            (w = true /\ f0 = Some (st_score s) /\
             st_highScore s < st_score s)).
  { intros f0 ->. destruct (st_score s >? st_highScore s) eqn:E; [|now left].
    apply Z.gtb_lt in E. destruct w; [right|left]; auto. }
  destruct (st_playerHP s <=? 0); [intros [= <- <-]; auto|].
  destruct inp as [ch|]; [|intros [= <- <-]; auto].
  destruct (is_key ch "q" "Q"); [intros [= <- <-]; auto|].
  destruct (if is_key ch "w" "W" then _ else _) as [[nx ny]|];
    [|discriminate].
  destruct (oob nx ny); [discriminate|].
  destruct (enemy_turn (player_action s nx ny)); discriminate.
Qed.

Lemma main_loop_spec w input : forall s f,
  reachable s ->
  exists s' f',
    main_loop w s f input = Some (s', f') /\ reachable s' /\
    st_highScore s' = st_highScore s /\
    (f' = f \/
     (w = true /\ f' = Some (st_score s') /\ st_highScore s < st_score s')).
Proof.
  induction input as [|ch rest IH]; intros s f Hs.
  - cbn [main_loop]. destruct (loop_body_total w s f None Hs) as [o Ho].
    rewrite Ho. destruct o as [s1 f1|s1 f1].
    + unfold loop_body in Ho. destruct (st_playerHP s <=? 0); discriminate.
    + apply loop_body_exit in Ho as [-> Hf]. exists s, f1. auto.
  - cbn [main_loop]. destruct (loop_body_total w s f (Some ch) Hs) as [o Ho].
    rewrite Ho. destruct o as [s1 f1|s1 f1].
    + pose proof (loop_body_reachable _ _ _ _ _ _ Hs Ho) as Hs1.
      apply loop_body_continue in Ho as [-> Hh].
      destruct (IH s1 f Hs1) as (s' & f' & E & Hr & Hh' & Hf).
      exists s', f'. rewrite <- Hh. rewrite Hh' at 1. auto.
    + apply loop_body_exit in Ho as [-> Hf]. exists s, f1. auto.
Qed.

Lemma initial_state_best fuel diff g f s :
  initial_state fuel diff g f = Some s ->
  st_highScore s = load_high_score f /\ st_diff s = diff.
Proof.
  unfold initial_state. destruct (regenerate_map fuel diff g); [|discriminate].
  intros [= <-]. auto.
Qed.

Lemma reachable_score_range s : reachable s -> 0 <= st_score s <= 80.
Proof.
  intros Hr. apply reachable_tidy in Hr.
  destruct Hr as (_ & _ & _ & _ & _ & _ & _ & _ & Hs & _ & Hn & _).
  assert (0 <= kills (st_enemies s) <= Z.of_nat (length (st_enemies s))).
  { unfold kills. pose proof (filter_length_le dead (st_enemies s)). lia. }
  lia.
Qed.

Lemma load_high_score_range f : INT_MIN <= load_high_score f <= INT_MAX.
Proof. unfold load_high_score, INT_MIN, INT_MAX. destruct f; lia. Qed.

(** Which exit was taken decides what happens to the file: death and the
    quit key compare and save, the end of the input does neither. *)
Lemma main_loop_file w input : forall s f s' f',
  main_loop w s f input = Some (s', f') ->
  (st_playerHP s' <= 0 \/ existsb quit_key input = true ->
   f' = persisted w f s') /\
  (0 < st_playerHP s' -> existsb quit_key input = false -> f' = f).
Proof.
  assert (Hex : forall s f inp s' f',
            loop_body w s f inp = Some (Exit s' f') ->
            s' = s /\
            (st_playerHP s <= 0 /\ f' = persisted w f s \/
             0 < st_playerHP s /\
             match inp with
             | None => f' = f
             | Some ch => quit_key ch = true /\ f' = persisted w f s
             end)).
  { intros s f inp s' f'. unfold loop_body, persisted, quit_key.
    destruct (st_playerHP s <=? 0) eqn:Eh;
      [apply Z.leb_le in Eh; intros [= <- <-]; auto|apply Z.leb_gt in Eh].
    destruct inp as [ch|]; [|intros [= <- <-]; auto].
    destruct (is_key ch "q" "Q"); [intros [= <- <-]; auto|].
    destruct (if is_key ch "w" "W" then _ else _) as [[nx ny]|];
      [|discriminate].
    destruct (oob nx ny); [discriminate|].
    destruct (enemy_turn (player_action s nx ny)); discriminate. }
  induction input as [|ch rest IH]; intros s f s' f' H; cbn [main_loop] in H.
  - destruct (loop_body w s f None) as [[s1 f1|s1 f1]|] eqn:E;
      try discriminate.
    injection H as <- <-.
    apply Hex in E as [-> [[Hd ->]|[Ha ->]]]; cbn [existsb]; split; intros;
      try reflexivity; try lia.
  - destruct (loop_body w s f (Some ch)) as [[s1 f1|s1 f1]|] eqn:E;
      try discriminate.
    + assert (Hq : quit_key ch = false).
      { unfold loop_body in E. unfold quit_key.
        destruct (st_playerHP s <=? 0); [discriminate|].
        destruct (is_key ch "q" "Q"); [discriminate|reflexivity]. }
      apply loop_body_continue in E as [-> _].
      cbn [existsb]. rewrite Hq. cbn [orb]. exact (IH _ _ _ _ H).
    + injection H as <- <-.
      apply Hex in E as [-> [[Hd ->]|[Ha [Hq ->]]]]; cbn [existsb]; split;
        intros; try reflexivity; try lia.
      rewrite Hq in *. discriminate.
Qed.

(** X11: a run always ends, and what it leaves in the file.  Once
    placement has succeeded, [main] returns for every finite input, in a
    state of the session.  The best score it compares with to the end is
    the one read at start-up: 0 without a file, otherwise the number in the
    file brought into the range of [int].  If the player died or the input
    holds a quit key, the final score was compared with that best and
    written when strictly greater (and the file could be opened); if the
    input ended while the player lived, the file is as it was, whatever the
    score.  So the file only ever changes to a strictly greater score, which
    is at most 80 and is read back as it was written. *)
Theorem run_ends fuel dchoice g w f input s0 :
  initial_state fuel (choose_difficulty dchoice) g f = Some s0 ->
  exists s' f',
    run fuel dchoice g w f input = Some (s', f') /\
    reachable s' /\
    st_highScore s' = load_high_score f /\
    INT_MIN <= st_highScore s' <= INT_MAX /\
    (forall n, f = Some n -> INT_MIN <= n <= INT_MAX -> st_highScore s' = n) /\
    (forall n, f = Some n -> INT_MAX < n -> st_highScore s' = INT_MAX) /\
    (forall n, f = Some n -> n < INT_MIN -> st_highScore s' = INT_MIN) /\
    (f = None -> st_highScore s' = 0) /\
    (st_playerHP s' <= 0 \/ existsb quit_key input = true ->
     f' = persisted w f s') /\
    (0 < st_playerHP s' -> existsb quit_key input = false -> f' = f) /\
    (f' = f \/
     (w = true /\ f' = Some (st_score s') /\
      load_high_score f < st_score s' <= 80 /\
      load_high_score f' = st_score s')) /\
    load_high_score f <= load_high_score f'.
Proof.
  intros H0. unfold run. rewrite H0.
  pose proof (initial_state_best _ _ _ _ _ H0) as [Hb _].
  destruct (main_loop_spec w input s0 f (reach_init _ _ _ _ _ H0))
    as (s' & f' & E & Hr & Hh & Hf).
  destruct (main_loop_file w input s0 f s' f' E) as [Hsave Hkeep].
  pose proof (reachable_score_range s' Hr) as Hsc.
  pose proof (load_high_score_range f) as Hlr.
  rewrite Hb in Hh, Hf. exists s', f'.
  split; [assumption|]. split; [assumption|]. split; [assumption|].
  split; [now rewrite Hh|].
  split; [intros n -> Hn; rewrite Hh; unfold load_high_score; lia|].
  split; [intros n -> Hn; rewrite Hh; unfold load_high_score, INT_MIN in *; lia|].
  split; [intros n -> Hn; rewrite Hh; unfold load_high_score, INT_MAX in *; lia|].
  split; [intros ->; now rewrite Hh|].
  split; [assumption|]. split; [assumption|].
  assert (Hback : load_high_score (Some (st_score s')) = st_score s')
    by (unfold load_high_score, INT_MIN, INT_MAX; lia).
  destruct Hf as [->|(Hw & -> & Hlt)].
  - split; [now left|lia].
  - split; [right; split; [assumption|]; split; [reflexivity|]; split; [lia|]
           |]; rewrite Hback; lia.
Qed.

(** The example session ends with one enemy killed and three hit points
    lost. *)
Lemma demo_run_some :
  exists s f, demo_run = Some (s, f) /\
              (st_score s, st_playerHP s, st_turns s) = (10, 17, 3).
Proof.
  eexists. eexists. split; [vm_compute; reflexivity|]. reflexivity.
Qed.

(** A stored best too large for [int], and the quit key as the only
    input. *)
Lemma demo_run_big_file :
  exists s f,
    run 50 1 demo_rng true (Some 99999999999) (list_ascii_of_string "q")
    = Some (s, f) /\
    st_score s = 0.
Proof. eexists. eexists. split; [vm_compute; reflexivity|]. reflexivity. Qed.

(** The input of the example ends while the player lives: the score of 10
    is not written although no best was stored.  A stored 99999999999 is
    read as 2147483647, and the quit key at score 0 leaves the file as it
    was. *)
Lemma run_ends_witness :
  (exists s f,
     demo_run = Some (s, f) /\ st_score s = 10 /\ st_highScore s = 0 /\
     f = None) /\
  (exists s f,
     run 50 1 demo_rng true (Some 99999999999) (list_ascii_of_string "q")
     = Some (s, f) /\
     st_highScore s = 2147483647 /\ f = Some 99999999999).
Proof.
  split.
  - destruct demo_run_some as (s & f & E & Hv).
    destruct (run_ends 50 1 demo_rng true None (list_ascii_of_string "dss")
                (match initial_state 50 EASY demo_rng None with
                 | Some s => s
                 | None => demo_state
                 end) ltac:(vm_compute; reflexivity))
      as (s' & f' & E' & _ & _ & _ & _ & _ & _ & Hnone & _ & Hkeep & _).
    rewrite E in E'. injection E' as <- <-. injection Hv as Hsc Hhp _.
    exists s, f. split; [exact E|]. split; [exact Hsc|].
    split; [exact (Hnone eq_refl)|].
    apply Hkeep; [lia|reflexivity].
  - destruct demo_run_big_file as (s & f & E & Hsc).
    destruct (run_ends 50 1 demo_rng true (Some 99999999999)
                (list_ascii_of_string "q")
                (match initial_state 50 EASY demo_rng (Some 99999999999) with
                 | Some s => s
                 | None => demo_state
                 end) ltac:(vm_compute; reflexivity))
      as (s' & f' & E' & _ & _ & _ & _ & Hbig & _ & _ & Hsave & _ & _ & _).
    rewrite E in E'. injection E' as <- <-.
    pose proof (Hbig _ eq_refl ltac:(unfold INT_MAX; lia)) as Hh.
    exists s, f. split; [exact E|]. split; [exact Hh|].
    rewrite (Hsave (or_intror eq_refl)). unfold persisted.
    rewrite Hsc, Hh. reflexivity.
Defined.

Lemma run_reachable fuel dchoice g w f input s' f' :
  run fuel dchoice g w f input = Some (s', f') -> reachable s'.
Proof.
  unfold run.
  destruct (initial_state fuel (choose_difficulty dchoice) g f) as [s0|] eqn:E;
    [|discriminate].
  destruct (main_loop_spec w input s0 f (reach_init _ _ _ _ _ E))
    as (s1 & f1 & E1 & Hr & _). rewrite E1. now intros [= <- <-].
Qed.


(** X12: the counters of a session.  In every state of a session the
    player's maximum is 20 hit points and the attack 4, the hit points never
    exceed 20 (so the cap at 999 never acts), the score is ten times the
    number of dead enemies and at most 80, an enemy is alive exactly when
    it has hit points left, and the number of enemies, between 2 and 8,
    never changes. *)
Theorem session_counters s :
  reachable s ->
  st_playerMaxHP s = 20 /\ st_playerAttack s = 4 /\
  st_playerHP s <= st_playerMaxHP s /\
  0 <= st_turns s /\
  st_score s = 10 * kills (st_enemies s) /\
  0 <= st_score s <= 80 /\
  Forall (fun e => e_alive e = true <-> 0 < e_hp e) (st_enemies s) /\
  2 <= Z.of_nat (length (st_enemies s)) <= 8 /\
  forall s', enemy_turn s = Some s' ->
             st_playerHP s' <= st_playerHP s /\
             List.map e_stat (st_enemies s') = List.map e_stat (st_enemies s).
Proof.
  intros Hr. apply reachable_tidy in Hr.
  destruct Hr as (_ & _ & _ & _ & Hm & Ha & Hhp & Ht & Hs & Hag & Hn & _).
  split; [assumption|]. split; [assumption|]. split; [lia|].
  split; [assumption|]. split; [assumption|]. split.
  { assert (0 <= kills (st_enemies s) <= Z.of_nat (length (st_enemies s))).
    { unfold kills. pose proof (filter_length_le dead (st_enemies s)). lia. }
    lia. }
  split.
  { eapply Forall_impl; [|exact Hag]. intros e. unfold hp_agrees.
    destruct (e_alive e); split; intros; (lia || congruence || auto). }
  split; [assumption|].
  intros s' H. apply enemy_turn_frame in H. tauto.
Qed.

Lemma session_counters_witness :
  exists s f,
    demo_run = Some (s, f) /\
    (st_score s, st_playerHP s, st_turns s) = (10, 17, 3) /\
    st_score s = 10 * kills (st_enemies s) /\
    st_playerHP s <= st_playerMaxHP s.
Proof.
  destruct demo_run_some as (s & f & E & Hv). exists s, f.
  split; [exact E|]. split; [exact Hv|].
  apply run_reachable in E. apply session_counters in E.
  split; [exact (proj1 (proj2 (proj2 (proj2 (proj2 E)))))
         |exact (proj1 (proj2 (proj2 E)))].
Defined.

(** ** The enemy turn as a whole *)

Lemma plan_from_planned map px py all : forall rest i np,
  plan_from map px py all i rest = Some np ->
  Forall2 (planned map px py) rest np.
Proof.
  induction rest as [|e rest IH]; intros i np H.
  - injection H as <-. constructor.
  - cbn [plan_from] in H.
    destruct (if negb (e_alive e) then Some (-1, -1)
              else bfs_next_step map (e_x e) (e_y e) px py (others all i))
      as [c|] eqn:Ec; [|discriminate].
    destruct (plan_from map px py all (S i) rest) as [l|] eqn:El;
      [|discriminate].
    injection H as <-. constructor; [|now apply IH with (S i)].
    unfold planned. destruct (e_alive e); cbn [negb] in Ec.
    + now exists (others all i).
    + now injection Ec.
Qed.

(** The enemies whose intended cell is the player's are the live enemies
    next to the player. *)
Lemma attackers_adjacent map px py :
  floor_cell map (px, py) ->
  forall es np,
    Forall2 (planned map px py) es np ->
    Forall (fun c => in_bounds (fst c) (snd c)) (live_cells es) ->
    ~ In (px, py) (live_cells es) ->
    attackers px py es np = length (filter (adjacent_live px py) es) /\
    Forall2 (fun e c => e_alive e = true ->
                        (c = (px, py) <-> adjacent_live px py e = true) /\
                        (c = e_pos e \/
                         (manhattan (e_pos e) c = 1 /\ floor_cell map c)))
            es np.
Proof.
  intros Hpl es np H. induction H as [|e c es np Hec _ IH]; intros Hb Hn.
  - split; [reflexivity|constructor].
  - rewrite live_cells_cons in Hb, Hn.
    assert (Hb' : Forall (fun c => in_bounds (fst c) (snd c)) (live_cells es))
      by (destruct (e_alive e); [now inversion Hb|assumption]).
    assert (Hn' : ~ In (px, py) (live_cells es))
      by (destruct (e_alive e); [intros Hin; apply Hn; now right|assumption]).
    destruct (IH Hb' Hn') as [IH1 IH2].
    assert (Hthis : e_alive e = true ->
              (c = (px, py) <-> adjacent_live px py e = true) /\
              (c = e_pos e \/ (manhattan (e_pos e) c = 1 /\ floor_cell map c))).
    { intros Ha. unfold planned in Hec. rewrite Ha in Hec, Hb, Hn.
      destruct Hec as [occ Hocc].
      inversion Hb as [|? ? He _]; subst. cbn [e_pos fst snd] in He.
      assert (Hne : e_pos e <> (px, py)) by (intros E; apply Hn; now left).
      destruct (bfs_next_step_result map (e_x e) (e_y e) px py occ He)
        as (r & Er & Hr).
      rewrite Er in Hocc. injection Hocc as ->.
      unfold adjacent_live. rewrite Ha. cbn [andb]. rewrite Z.eqb_eq.
      split.
      - split.
        + intros ->. destruct Hr as [E|[Hm _]]; [|exact Hm].
          elim Hne. symmetry. exact E.
        + intros Hm.
          pose proof (bfs_next_step_adjacent map (e_x e) (e_y e) px py occ
                        He Hm Hpl) as E.
          congruence.
      - destruct Hr as [->|[Hm (Hi & Hf & _)]]; [now left|right].
        split; [exact Hm|now split]. }
    split; [|constructor; assumption].
    cbn [attackers filter]. rewrite IH1.
    unfold adjacent_live at 2. destruct (e_alive e) eqn:Ha; cbn [andb].
    + destruct (Hthis eq_refl) as [[H1 H2] _].
      unfold adjacent_live in H1, H2. rewrite Ha in H1, H2. cbn [andb] in H1, H2.
      destruct (manhattan (e_pos e) (px, py) =? 1) eqn:Em.
      * rewrite (proj2 (cell_eqb_eq c (px, py)) (H2 eq_refl)). reflexivity.
      * destruct (cell_eqb c (px, py)) eqn:Ec; [|reflexivity].
        apply cell_eqb_eq in Ec. specialize (H1 Ec). discriminate.
    + reflexivity.
Qed.

Lemma Forall2_nth_error_l {B C : Type} (R : B -> C -> Prop) l l' :
  Forall2 R l l' ->
  forall i b, nth_error l i = Some b ->
              exists c, nth_error l' i = Some c /\ R b c.
Proof.
  induction 1 as [|b0 c0 l l' H0 _ IH]; intros [|i] b Hb;
    cbn [nth_error] in *; try discriminate.
  - injection Hb as <-. eauto.
  - eauto.
Qed.

Lemma enemy_eq e e' :
  e_pos e' = e_pos e -> e_hp e' = e_hp e -> e_alive e' = e_alive e -> e' = e.
Proof.
  destruct e, e'. unfold e_pos. cbn. intros [= -> ->] -> ->. reflexivity.
Qed.

(** X13: one enemy turn in a session.  Every live enemy next to the
    player stays where it is and attacks, and no other enemy attacks: the
    player loses one draw from the tier's attack range for each of them.
    Every other live enemy either stays or moves to a 4-neighbour that is a
    Floor cell; dead enemies are left as they are, and no enemy's hit points
    or life change.  The grid, the potions, the player's cell, the score and
    the turn counter are untouched. *)
Theorem enemy_turn_moves s s' :
  reachable s -> enemy_turn s = Some s' ->
  let px := st_playerX s in
  let py := st_playerY s in
  let lo := enemyAtkMin (diffConfigs (st_diff s)) in
  let hi := enemyAtkMax (diffConfigs (st_diff s)) in
  let n := length (filter (adjacent_live px py) (st_enemies s)) in
  (forall i e,
     nth_error (st_enemies s) i = Some e ->
     exists e',
       nth_error (st_enemies s') i = Some e' /\
       e_hp e' = e_hp e /\ e_alive e' = e_alive e /\
       (e_alive e = false -> e' = e) /\
       (adjacent_live px py e = true -> e' = e) /\
       (e_pos e' = e_pos e \/
        (manhattan (e_pos e) (e_pos e') = 1 /\
         floor_cell (st_map s) (e_pos e')))) /\
  st_playerHP s' = st_playerHP s - zsum (draws lo hi (st_rng s) n) /\
  Forall (fun d => 1 <= lo <= d /\ d <= hi) (draws lo hi (st_rng s) n) /\
  st_rng s' = rng_drop n (st_rng s) /\
  st_map s' = st_map s /\ st_items s' = st_items s /\
  (st_playerX s', st_playerY s') = (px, py) /\
  st_score s' = st_score s /\ st_turns s' = st_turns s.
Proof.
  intros Hr H px py lo hi n.
  pose proof (reachable_safe s Hr) as Hsafe.
  pose proof (reachable_tidy s Hr)
    as (_ & _ & _ & Hpl & _ & _ & Hhp20 & _).
  pose proof (enemy_turn_frame s s' H)
    as (Em & Ei & Ex & Ey & _ & _ & Esc & Etu & _ & _ & _ & _).
  destruct (enemy_turn_spec s s' Hsafe H)
    as (np & es' & r & Epl & Er & _ & Ees & _ & _ & Ehp & Erng & _).
  destruct Hsafe as (_ & _ & Hnp & Hb).
  apply plan_from_planned in Epl.
  destruct (attackers_adjacent _ _ _ Hpl _ _ Epl Hb Hnp) as [Hatt Hcs].
  pose proof (Forall2_length Epl) as Hlen.
  pose proof (diffConfigs_ok (st_diff s)) as (_ & _ & Ca & _).
  pose proof (resolve_moves_stat _ _ _ _ Ca _ _ _ _ _ Er) as [_ Hle].
  cbn [rs_hp] in Hle.
  destruct (resolve_moves_gen _ _ _ _ _ _ _ _ _ _ _ (eq_sym Hlen) Er)
    as (_ & _ & Hh & Hg & Hidx).
  fold px py in Hatt, Hcs, Hidx, Hh, Hg. rewrite Hatt in Hh, Hg.
  fold lo hi n in Hh, Hg.
  split; [|split; [|split; [|split; [|split; [|split; [|split]]]]]].
  - intros i e He.
    destruct (Forall2_nth_error_l _ _ _ Hcs i e He) as (c & Hc & Hec).
    destruct (Hidx i e c He Hc) as (e' & H1 & H2 & H3 & H4 & H5 & H6).
    exists e'. rewrite Ees. split; [assumption|]. split; [assumption|].
    split; [assumption|]. split; [assumption|].
    destruct (e_alive e) eqn:Ha.
    + destruct (Hec eq_refl) as [Hadj Hstep].
      destruct (cell_eq_dec c (px, py)) as [Ec|Ec].
      * specialize (H5 eq_refl Ec). split.
        -- intros _. apply enemy_eq; congruence.
        -- now left.
      * split.
        -- intros Hadj'. apply Hadj in Hadj'. contradiction.
        -- destruct (H6 eq_refl Ec) as [Hmv Hst].
           destruct (legal_dec (st_map s)
                       (live_cells (firstn i es') ++ []) c) as [Hl|Hl].
           ++ rewrite (Hmv Hl).
              destruct Hstep as [->|Hstep]; [now left|now right].
           ++ left. now apply Hst.
    + rewrite (H4 eq_refl). split; [reflexivity|now left].
  - assert (E : (rs_hp r >? 999) = false).
    { destruct (rs_hp r >? 999) eqn:E; [apply Z.gtb_lt in E; lia|reflexivity]. }
    rewrite Ehp, E. exact Hh.
  - pose proof (draws_range lo hi (st_rng s) n ltac:(unfold lo, hi; lia)) as Hd.
    eapply Forall_impl; [|exact Hd]. intros d Hd'. unfold lo in *. lia.
  - rewrite Erng. exact Hg.
  - assumption.
  - assumption.
  - unfold px, py. congruence.
  - split; assumption.
Qed.

Lemma enemy_turn_moves_witness :
  exists s0 s1 s2,
    initial_state 50 EASY demo_rng None = Some s0 /\
    loop_body true s0 None (Some "d"%char) = Some (Continue s1 None) /\
    enemy_turn s1 = Some s2 /\
    length (filter (adjacent_live (st_playerX s1) (st_playerY s1))
                   (st_enemies s1)) = 1%nat /\
    (st_playerHP s1, st_playerHP s2) = (20, 18) /\
    st_playerHP s2 =
    st_playerHP s1 -
    zsum (draws (enemyAtkMin (diffConfigs (st_diff s1)))
                (enemyAtkMax (diffConfigs (st_diff s1))) (st_rng s1)
                (length (filter (adjacent_live (st_playerX s1) (st_playerY s1))
                                (st_enemies s1)))).
Proof.
  eexists. eexists. eexists. split; [vm_compute; reflexivity|].
  split; [vm_compute; reflexivity|]. split; [vm_compute; reflexivity|].
  split; [reflexivity|]. split; [reflexivity|].
  refine (proj1 (proj2 (enemy_turn_moves _ _ _ _))).
  - eapply (loop_body_reachable true _ None (Some "d"%char) _ None).
    + apply (reach_init 50 EASY demo_rng None). vm_compute. reflexivity.
    + vm_compute. reflexivity.
  - vm_compute. reflexivity.
Defined.

(** ** Where everything stands *)

Lemma interior_neighbour px py nx ny :
  interior px py -> manhattan (px, py) (nx, ny) = 1 -> oob nx ny = false.
Proof.
  intros Hi Hm. apply in_bounds_oob.
  unfold interior, manhattan, in_bounds, MAP_W, MAP_H in *.
  cbn [fst snd] in Hm. lia.
Qed.

(** X14: where everything stands in a session.  The grid keeps its shape
    and holds only Wall and Floor; the player stands on a Floor cell inside
    the border, so each of the four neighbouring cells is in range and the
    out-of-bounds message can never be triggered; every live enemy and every
    potion is on a Floor cell; no two potions share a cell and there are
    at most seven. *)
Theorem session_positions s :
  reachable s ->
  Arr2.wf (st_map s) /\
  (forall x y, tile (st_map s) x y = WALL \/ tile (st_map s) x y = FLOOR) /\
  floor_cell (st_map s) (st_playerX s, st_playerY s) /\
  interior (st_playerX s) (st_playerY s) /\
  (forall nx ny, manhattan (st_playerX s, st_playerY s) (nx, ny) = 1 ->
                 oob nx ny = false) /\
  Forall (floor_cell (st_map s)) (live_cells (st_enemies s)) /\
  Forall (floor_cell (st_map s)) (List.map it_pos (st_items s)) /\
  NoDup (List.map it_pos (st_items s)) /\
  Z.of_nat (length (st_items s)) <= 7.
Proof.
  intros Hr. pose proof (reachable_on_floor s Hr) as [He Hi].
  apply reachable_tidy in Hr.
  destruct Hr as (Hwf & Htl & Hint & Hp & _ & _ & _ & _ & _ & _ & _ & Hnd & Hn).
  assert (Hin : interior (st_playerX s) (st_playerY s))
    by (apply Hint, Hp).
  split; [assumption|]. split; [assumption|]. split; [assumption|].
  split; [assumption|]. split.
  { intros nx ny. now apply interior_neighbour. }
  auto.
Qed.

Lemma session_positions_witness :
  exists s f,
    demo_run = Some (s, f) /\
    floor_cell (st_map s) (st_playerX s, st_playerY s) /\
    Forall (floor_cell (st_map s)) (live_cells (st_enemies s)).
Proof.
  destruct demo_run_some as (s & f & E & _). exists s, f.
  split; [exact E|].
  apply run_reachable in E. apply session_positions in E.
  split; [exact (proj1 (proj2 (proj2 E)))
         |exact (proj1 (proj2 (proj2 (proj2 (proj2 (proj2 E))))))].
Defined.

(** ** One key *)

Lemma move_key_target s ch :
  move_key ch = true ->
  exists nx ny,
    key_target s ch = Some (nx, ny) /\
    manhattan (st_playerX s, st_playerY s) (nx, ny) = 1.
Proof.
  unfold move_key, key_target.
  destruct (is_key ch "w" "W"); [|destruct (is_key ch "s" "S");
    [|destruct (is_key ch "a" "A"); [|destruct (is_key ch "d" "D")]]];
    cbn [orb]; intros H; try discriminate;
    eexists; eexists; (split; [reflexivity|]);
    unfold manhattan; cbn [fst snd]; lia.
Qed.

(** X15: what one key costs.  While the player lives, a move key (w, a,
    s, d in either case) names a neighbouring cell, which is always in
    range; the loop body then performs the player's action towards that cell
    followed by the enemy turn, and continues with the state the enemy turn
    returns and the file untouched.  This costs exactly one turn, whether
    the player walks, picks up, strikes or bumps into a wall; the player
    ends on its cell or on the neighbour asked for, never on a Wall cell.
    Any other key but the quit key names no cell and leaves the whole state
    as it was: no turn is counted and no enemy acts. *)
Theorem loop_body_key w s f ch :
  reachable s -> 0 < st_playerHP s -> is_key ch "q" "Q" = false ->
  (move_key ch = true ->
   exists nx ny s',
     key_target s ch = Some (nx, ny) /\
     manhattan (st_playerX s, st_playerY s) (nx, ny) = 1 /\
     oob nx ny = false /\
     enemy_turn (player_action s nx ny) = Some s' /\
     loop_body w s f (Some ch) = Some (Continue s' f) /\
     st_turns (player_action s nx ny) = st_turns s + 1 /\
     st_turns s' = st_turns s + 1 /\
     st_map s' = st_map s /\
     manhattan (st_playerX s, st_playerY s) (st_playerX s', st_playerY s') <= 1 /\
     floor_cell (st_map s) (st_playerX s', st_playerY s')) /\
  (move_key ch = false ->
   key_target s ch = None /\
   loop_body w s f (Some ch) = Some (Continue s f)).
Proof.
  intros Hr Hhp Hq.
  assert (Hbody : loop_body w s f (Some ch) =
                  match key_target s ch with
                  | None => Some (Continue s f)
                  | Some (nx, ny) =>
                      if oob nx ny then Some (Continue s f)
                      else match enemy_turn (player_action s nx ny) with
                           | None => None
                           | Some s' => Some (Continue s' f)
                           end
                  end).
  { unfold loop_body, key_target.
    assert (E : (st_playerHP s <=? 0) = false) by (apply Z.leb_gt; lia).
    rewrite E, Hq. reflexivity. }
  rewrite Hbody. split.
  - intros Hk. destruct (move_key_target s ch Hk) as (nx & ny & Ek & Hm).
    rewrite Ek.
    pose proof (reachable_tidy s Hr) as (_ & _ & Hint & Hp & _).
    pose proof (interior_neighbour _ _ _ _ (Hint _ _ (proj2 Hp)) Hm) as Ho.
    rewrite Ho.
    pose proof (reach_player s nx ny Hr Ho) as Hr1.
    destruct (enemy_turn_total _ (reachable_safe _ Hr1)) as [s' Hs'].
    rewrite Hs'. exists nx, ny, s'.
    split; [reflexivity|]. split; [assumption|]. split; [assumption|].
    split; [assumption|]. split; [reflexivity|].
    pose proof (reachable_tidy _ (reach_enemy _ _ Hr1 Hs'))
      as (_ & _ & _ & Hp' & _).
    pose proof (enemy_turn_frame _ _ Hs')
      as (Em & _ & Ex & Ey & _ & _ & _ & Et & _).
    pose proof (player_action_frame s nx ny) as (Em1 & _ & _ & Et1 & Hpos).
    cbv zeta in Em1, Et1, Hpos.
    rewrite Em, Em1 in Hp'.
    split; [assumption|]. split; [congruence|]. split; [congruence|].
    split; [|assumption].
    rewrite Ex, Ey.
    destruct Hpos as [Hpos|[Hpos _]]; rewrite Hpos;
      [unfold manhattan; cbn [fst snd]|]; lia.
  - unfold move_key, key_target. intros Hk.
    apply orb_false_iff in Hk as [Hk Hd].
    apply orb_false_iff in Hk as [Hk Ha].
    apply orb_false_iff in Hk as [Hw Hs].
    rewrite Hw, Hs, Ha, Hd. split; reflexivity.
Qed.

Lemma demo_init_some :
  exists s0, initial_state 50 EASY demo_rng None = Some s0 /\
             (st_playerX s0, st_playerY s0, st_playerHP s0) = (6, 3, 20).
Proof. eexists. split; [vm_compute; reflexivity|]. reflexivity. Qed.

(** The key d at the start of the example session: the player steps from
    (6,3) to (7,3) and the enemies take their turn; the key x does
    nothing. *)
Lemma loop_body_key_witness :
  exists s0 s1,
    initial_state 50 EASY demo_rng None = Some s0 /\
    enemy_turn (player_action s0 7 3) = Some s1 /\
    loop_body true s0 None (Some "d"%char) = Some (Continue s1 None) /\
    st_turns s1 = st_turns s0 + 1 /\
    loop_body true s0 None (Some "x"%char) = Some (Continue s0 None).
Proof.
  destruct demo_init_some as (s0 & E0 & Hv).
  injection Hv as Hx Hy Hh.
  assert (Hhp : 0 < st_playerHP s0) by lia.
  pose proof (reach_init _ _ _ _ _ E0) as Hr.
  destruct (loop_body_key true s0 None "d"%char Hr Hhp eq_refl) as [Hmove _].
  destruct (Hmove eq_refl) as (nx & ny & s1 & Hk & _ & _ & Het & E1 & _ & Ht & _).
  unfold key_target in Hk. cbn in Hk. rewrite Hx, Hy in Hk.
  injection Hk as <- <-.
  exists s0, s1. split; [exact E0|]. split; [exact Het|].
  split; [exact E1|]. split; [exact Ht|].
  exact (proj2 (proj2 (loop_body_key true s0 None "x"%char Hr Hhp eq_refl)
                  eq_refl)).
Defined.

(** ** The grid that [render] prints *)

Lemma tile_fold_set {B : Type} (keep : B -> bool) (fx fy : B -> Z)
  (v : ascii) (x y : Z) :
  in_bounds x y ->
  forall (l : list B) (d : Grid),
    Arr2.wf d ->
    Arr2.wf (fold_left (fun d b => if keep b then Arr2.set d (fx b) (fy b) v
                                   else d) l d) /\
    tile (fold_left (fun d b => if keep b then Arr2.set d (fx b) (fy b) v
                                else d) l d) x y =
    if existsb (fun b => keep b && (fx b =? x) && (fy b =? y)) l
    then v else tile d x y.
Proof.
  intros Hb. induction l as [|b l IH]; intros d Hwf; cbn [fold_left existsb].
  - split; [assumption|reflexivity].
  - assert (Hwf1 : Arr2.wf (if keep b then Arr2.set d (fx b) (fy b) v else d))
      by (destruct (keep b); [now apply Arr2Facts.wf_set|assumption]).
    destruct (IH _ Hwf1) as [Hw Ht]. split; [assumption|]. rewrite Ht.
    destruct (existsb _ l); [now rewrite orb_true_r|]. rewrite orb_false_r.
    destruct (keep b); cbn [andb]; [|reflexivity].
    destruct ((fx b =? x) && (fy b =? y)) eqn:E.
    + apply andb_true_iff in E as [Ex Ey]. apply Z.eqb_eq in Ex, Ey.
      subst x y. unfold tile. now apply Arr2Facts.get_set_eq.
    + unfold tile. apply Arr2Facts.get_set_ne. intros [= Ex Ey].
      rewrite Ex, Ey, !Z.eqb_refl in E. discriminate.
Qed.

Lemma existsb_live x y es :
  existsb (fun e => e_alive e && (e_x e =? x) && (e_y e =? y)) es = true <->
  In (x, y) (live_cells es).
Proof.
  rewrite existsb_exists, in_live_cells. unfold e_pos.
  split; intros (e & He & H); exists e; (split; [assumption|]).
  - rewrite !andb_true_iff, !Z.eqb_eq in H. destruct H as [[Ha Ex] Ey].
    split; [assumption|congruence].
  - destruct H as [Ha [= Ex Ey]]. rewrite Ha, Ex, Ey, !Z.eqb_refl. reflexivity.
Qed.

Lemma existsb_potion x y its :
  0 <= x -> 0 <= y ->
  existsb (fun it => (it_x it >=? 0) && (it_y it >=? 0)
                     && (it_x it =? x) && (it_y it =? y)) its = true <->
  In (x, y) (List.map it_pos its).
Proof.
  intros Hx Hy. rewrite existsb_exists, in_map_iff. unfold it_pos.
  split; intros (it & H1 & H2); exists it.
  - rewrite !andb_true_iff, !Z.eqb_eq in H2. destruct H2 as [[_ Ex] Ey].
    split; [congruence|assumption].
  - injection H1 as Ex Ey. split; [assumption|].
    rewrite Ex, Ey, !Z.eqb_refl.
    replace (x >=? 0) with true by (symmetry; apply Z.geb_le; lia).
    replace (y >=? 0) with true by (symmetry; apply Z.geb_le; lia).
    reflexivity.
Qed.

(** X16: what [render] prints at a cell of the grid.  The player's cell
    shows '@'; any other cell with a live enemy shows 'E'; any other cell
    with a potion shows '!', so a potion under a live enemy is hidden; dead
    enemies are not drawn; every remaining cell shows the map's tile.  The
    drawn grid has the shape of the map. *)
Theorem render_grid_overlay map enemies items px py x y :
  Arr2.wf map -> in_bounds x y ->
  let d := render_grid map enemies items px py in
  Arr2.wf d /\
  ((x, y) = (px, py) -> tile d x y = "@"%char) /\
  ((x, y) <> (px, py) -> In (x, y) (live_cells enemies) ->
   tile d x y = "E"%char) /\
  ((x, y) <> (px, py) -> ~ In (x, y) (live_cells enemies) ->
   In (x, y) (List.map it_pos items) -> tile d x y = "!"%char) /\
  ((x, y) <> (px, py) -> ~ In (x, y) (live_cells enemies) ->
   ~ In (x, y) (List.map it_pos items) -> tile d x y = tile map x y).
Proof.
  intros Hwf Hb d. subst d. unfold render_grid.
  destruct (tile_fold_set (fun it => (it_x it >=? 0) && (it_y it >=? 0))
              it_x it_y "!"%char x y Hb items map Hwf) as [Hw1 Ht1].
  set (draw1 := fold_left _ items map) in *.
  destruct (tile_fold_set e_alive e_x e_y "E"%char x y Hb enemies draw1 Hw1)
    as [Hw2 Ht2].
  set (draw2 := fold_left _ enemies draw1) in *.
  pose proof (existsb_live x y enemies) as He.
  pose proof (existsb_potion x y items (proj1 (proj1 Hb)) (proj1 (proj2 Hb)))
    as Hi.
  assert (Hd2 :
    (In (x, y) (live_cells enemies) -> tile draw2 x y = "E"%char) /\
    (~ In (x, y) (live_cells enemies) ->
     (In (x, y) (List.map it_pos items) -> tile draw2 x y = "!"%char) /\
     (~ In (x, y) (List.map it_pos items) -> tile draw2 x y = tile map x y))).
  { rewrite Ht2, Ht1.
    destruct (existsb _ enemies); [split; [reflexivity|]|split].
    - intros Hn. elim Hn. now apply He.
    - intros Hin. apply He in Hin. discriminate.
    - intros _. destruct (existsb _ items); split; try reflexivity.
      + intros Hn. elim Hn. now apply Hi.
      + intros Hin. apply Hi in Hin. discriminate. }
  destruct Hd2 as [HE Hrest].
  destruct ((px >=? 0) && (py >=? 0)) eqn:Ep.
  - split; [now apply Arr2Facts.wf_set|]. split.
    + intros [= <- <-]. unfold tile. now apply Arr2Facts.get_set_eq.
    + assert (Hne : (x, y) <> (px, py) ->
                tile (Arr2.set draw2 px py "@"%char) x y = tile draw2 x y).
      { intros Hne. unfold tile. apply Arr2Facts.get_set_ne. congruence. }
      split; [|split].
      * intros H1 H2. rewrite (Hne H1). now apply HE.
      * intros H1 H2 H3. rewrite (Hne H1). now apply Hrest.
      * intros H1 H2 H3. rewrite (Hne H1). now apply Hrest.
  - split; [assumption|]. split.
    + intros [= <- <-]. destruct Hb as [[Hx _] [Hy _]].
      apply Z.geb_le in Hx, Hy. rewrite Hx, Hy in Ep. discriminate.
    + split; [|split]; intros H1 H2; try intros H3;
        [now apply HE|now apply Hrest|now apply Hrest].
Qed.

Lemma render_grid_overlay_witness :
  tile (render_grid open_grid [mkEnemy 3 2 3 true; mkEnemy 5 5 0 false]
                    [mkItem 2 3; mkItem 3 2] 2 2) 3 2 = "E"%char.
Proof.
  refine (proj1 (proj2 (proj2
            (render_grid_overlay open_grid
               [mkEnemy 3 2 3 true; mkEnemy 5 5 0 false]
               [mkItem 2 3; mkItem 3 2] 2 2 3 2 (Arr2Facts.wf_make FLOOR) _)))
            _ _).
  - unfold in_bounds, MAP_W, MAP_H. lia.
  - discriminate.
  - left. reflexivity.
Defined.

(** ** The last enemy standing *)

Lemma reachable_connected s : reachable s -> connected (st_map s).
Proof.
  induction 1 as [fuel diff g f s H|s nx ny _ IH Ho|s s' _ IH H].
  - unfold initial_state in H.
    destruct (regenerate_map fuel diff g) as [p|] eqn:E; [|discriminate].
    injection H as <-. cbn [st_map].
    apply regenerate_map_stats in E. destruct E as ([g1 Eg] & _).
    now apply generate_map_basic_linked in Eg.
  - pose proof (player_action_frame s nx ny) as (Em & _). cbv zeta in Em.
    now rewrite Em.
  - apply enemy_turn_frame in H as (Em & _). now rewrite Em.
Qed.

Lemma live_cells_nil es :
  live_cells es = [] -> Forall (fun e => e_alive e = false) es.
Proof.
  induction es as [|e es IH]; intros H; [constructor|].
  rewrite live_cells_cons in H. destruct (e_alive e) eqn:Ha; [discriminate|].
  constructor; auto.
Qed.

(** The search planned for the enemy after the prefix [mid]. *)
Lemma plan_from_at map px py all e l2 : forall mid i np,
  plan_from map px py all i (mid ++ e :: l2) = Some np ->
  e_alive e = true ->
  exists c,
    nth_error np (length mid) = Some c /\
    bfs_next_step map (e_x e) (e_y e) px py
      (others all (i + length mid)) = Some c.
Proof.
  induction mid as [|a mid IH]; intros i np H Ha; cbn [app plan_from] in H.
  - rewrite Ha in H. cbn [negb] in H.
    destruct (bfs_next_step map (e_x e) (e_y e) px py (others all i))
      as [c|] eqn:Ec; [|discriminate].
    destruct (plan_from map px py all (S i) l2) as [l|]; [|discriminate].
    injection H as <-. exists c. cbn [length nth_error].
    rewrite Nat.add_0_r. auto.
  - destruct (if negb (e_alive a) then Some (-1, -1)
              else bfs_next_step map (e_x a) (e_y a) px py (others all i))
      as [ca|]; [|discriminate].
    destruct (plan_from map px py all (S i) (mid ++ e :: l2)) as [l|] eqn:El;
      [|discriminate].
    injection H as <-. destruct (IH _ _ El Ha) as (c & Hc & Hb).
    exists c. cbn [length nth_error]. split; [assumption|].
    now replace (i + S (length mid))%nat with (S i + length mid)%nat by lia.
Qed.

(** Dead enemies at the head of the array are passed over. *)
Lemma resolve_moves_dead_prefix map cfg px py rest np2 r : forall l1 np1,
  live_cells l1 = [] -> length np1 = length l1 ->
  resolve_moves map cfg px py (l1 ++ rest) (np1 ++ np2) r =
  (l1 ++ fst (resolve_moves map cfg px py rest np2 r),
   snd (resolve_moves map cfg px py rest np2 r)).
Proof.
  induction l1 as [|a l1 IH]; intros [|c np1] Hd Hl; try discriminate.
  - cbn [app]. now destruct (resolve_moves map cfg px py rest np2 r).
  - rewrite live_cells_cons in Hd.
    destruct (e_alive a) eqn:Ha; [discriminate|].
    cbn [app resolve_moves]. rewrite Ha. cbn [negb].
    rewrite (IH np1 Hd) by (cbn [length] in Hl; lia). reflexivity.
Qed.

(** X17: the last enemy standing closes in.  In a session where a single
    enemy is still alive and it is not next to the player, the enemy turn
    moves it to a neighbouring Floor cell that starts a shortest path to the
    player: its walking distance to the player drops by exactly one, and
    such a path always exists because the Floor is connected. *)
Theorem lone_enemy_closes_in s s' l1 e l2 :
  reachable s -> enemy_turn s = Some s' ->
  st_enemies s = l1 ++ e :: l2 ->
  e_alive e = true -> live_cells l1 = [] -> live_cells l2 = [] ->
  adjacent_live (st_playerX s) (st_playerY s) e = false ->
  exists e' d,
    nth_error (st_enemies s') (length l1) = Some e' /\
    manhattan (e_pos e) (e_pos e') = 1 /\
    floor_cell (st_map s) (e_pos e') /\
    walk (st_map s) (st_playerX s) (st_playerY s) [] (e_pos e') d
         (st_playerX s, st_playerY s) /\
    walk (st_map s) (st_playerX s) (st_playerY s) [] (e_pos e) (S d)
         (st_playerX s, st_playerY s) /\
    forall n, walk (st_map s) (st_playerX s) (st_playerY s) [] (e_pos e) n
                   (st_playerX s, st_playerY s) -> (S d <= n)%nat.
Proof.
  intros Hr H Hes Ha Hd1 Hd2 Hadj.
  pose proof (reachable_safe s Hr) as Hsafe.
  pose proof (reachable_tidy s Hr) as (_ & _ & _ & Hpl & _).
  pose proof (reachable_on_floor s Hr) as [Hfl _].
  pose proof (reachable_connected s Hr) as Hcon.
  destruct (enemy_turn_spec s s' Hsafe H)
    as (np & es' & r & Epl & Er & _ & Ees & _).
  destruct Hsafe as (_ & _ & Hnp & Hb).
  set (px := st_playerX s) in *. set (py := st_playerY s) in *.
  rewrite Hes in *.
  assert (He : In (e_pos e) (live_cells (l1 ++ e :: l2))).
  { rewrite live_cells_app, live_cells_cons, Ha.
    apply in_or_app. right. now left. }
  assert (Hef : floor_cell (st_map s) (e_pos e))
    by (rewrite Forall_forall in Hfl; now apply Hfl).
  assert (Hne : e_pos e <> (px, py)) by (intros E; apply Hnp; now rewrite <- E).
  (* the plan for [e]: the first step of a shortest path *)
  unfold plan_moves in Epl.
  destruct (plan_from_at _ _ _ _ _ _ _ _ _ Epl Ha) as (c & Hc & Hbfs).
  cbn [Nat.add] in Hbfs. rewrite others_split, Hd1, Hd2 in Hbfs.
  cbn [app] in Hbfs.
  destruct (linked_walk (st_map s) px py _ _ (Hcon _ _ Hef Hpl)) as [n0 Hw0].
  destruct (bfs_next_step_cases (st_map s) px py [] (e_x e) (e_y e)
              (proj1 Hef))
    as [[E _]|[(_ & r0 & d & E & Hst & Hrd & Hmin)|(_ & Hno & _)]];
    [elim Hne; exact E| |elim (Hno _ Hw0)].
  rewrite E in Hbfs. injection Hbfs as <-.
  pose proof Hst as Hst'. apply step_iff_adjacent in Hst' as [Hm (Hi & Hf & _)].
  assert (Hrp : r0 <> (px, py)).
  { intros ->. unfold adjacent_live in Hadj. rewrite Ha in Hadj.
    cbn [andb] in Hadj. apply Z.eqb_neq in Hadj. contradiction. }
  (* resolution: the dead prefix is passed over, then [e] moves *)
  destruct (nth_error_split _ _ Hc) as (np1 & np2 & -> & Hl1).
  rewrite (resolve_moves_dead_prefix _ _ _ _ _ _ _ l1 np1 Hd1 Hl1) in Er.
  cbn [resolve_moves] in Er. rewrite Ha in Er. cbn [negb] in Er.
  pose proof (resolve_one_spec (st_map s) (diffConfigs (st_diff s)) px py e r0
                (mkResolve [] (st_playerHP s) (st_rng s)))
    as (_ & _ & _ & _ & Hmv).
  destruct (resolve_one (st_map s) (diffConfigs (st_diff s)) px py e r0
              (mkResolve [] (st_playerHP s) (st_rng s))) as [e1 r1].
  cbn [fst snd rs_reserved] in Hmv.
  destruct (resolve_moves (st_map s) (diffConfigs (st_diff s)) px py l2 np2 r1)
    as [es2 r2].
  cbn [fst snd] in Er. injection Er as <- _.
  destruct (Hmv Hrp) as (_ & _ & Hgo & _).
  assert (Hpos : e_pos e1 = r0).
  { apply Hgo. split; [assumption|intros []]. }
  exists e1, d. rewrite Ees, Hpos.
  split; [now rewrite nth_error_app2, Nat.sub_diag by lia|].
  split; [assumption|]. split; [now split|]. split; [assumption|].
  split; [|assumption].
  now apply walk_cons with r0.
Qed.

(** In the example session the player next strikes left and kills a
    second enemy; the third, two steps away, is then the only one alive. *)
Lemma demo_run_last_enemy :
  exists s f,
    demo_run = Some (s, f) /\
    st_enemies (player_action s 6 4) =
    [mkEnemy 6 4 (-1) false; mkEnemy 7 4 (-3) false] ++ [mkEnemy 7 3 4 true] /\
    (st_playerX (player_action s 6 4), st_playerY (player_action s 6 4))
    = (6, 4).
Proof.
  eexists. eexists. split; [vm_compute; reflexivity|].
  split; vm_compute; reflexivity.
Qed.

Lemma lone_enemy_closes_in_witness :
  exists s f s' e' d,
    demo_run = Some (s, f) /\
    enemy_turn (player_action s 6 4) = Some s' /\
    nth_error (st_enemies s') 2 = Some e' /\
    manhattan (7, 3) (e_pos e') = 1 /\
    walk (st_map (player_action s 6 4)) 6 4 [] (e_pos e') d (6, 4).
Proof.
  destruct demo_run_last_enemy as (s & f & E & Hes & Hp).
  injection Hp as Hx Hy.
  pose proof (reach_player s 6 4 (run_reachable _ _ _ _ _ _ _ _ E) eq_refl)
    as Hr.
  destruct (enemy_turn_total _ (reachable_safe _ Hr)) as [s' Hs'].
  destruct (lone_enemy_closes_in _ s' _ _ _ Hr Hs' Hes eq_refl eq_refl eq_refl)
    as (e' & d & H1 & H2 & _ & H3 & _).
  { rewrite Hx, Hy. reflexivity. }
  rewrite Hx, Hy in H3.
  exists s, f, s', e', d. auto.
Defined.

(** ** No swapping, no following *)

(** X18: an enemy never enters a cell that another live enemy occupied
    when the enemy turn began, even if that enemy moves away in the same
    turn: there is no swapping of places and no following into a cell just
    left.  A live enemy that moves goes to a neighbouring Floor cell that was
    free of live enemies and is not the player's. *)
Theorem enemy_never_enters_occupied s s' l1 e l2 :
  reachable s -> enemy_turn s = Some s' ->
  st_enemies s = l1 ++ e :: l2 -> e_alive e = true ->
  exists e',
    nth_error (st_enemies s') (length l1) = Some e' /\
    (e_pos e' = e_pos e \/
     (manhattan (e_pos e) (e_pos e') = 1 /\
      floor_cell (st_map s) (e_pos e') /\
      e_pos e' <> (st_playerX s, st_playerY s) /\
      ~ In (e_pos e') (live_cells (st_enemies s)))).
Proof.
  intros Hr H Hes Ha.
  pose proof (reachable_safe s Hr) as Hsafe.
  destruct (enemy_turn_spec s s' Hsafe H)
    as (np & es' & r & Epl & Er & _ & Ees & _).
  destruct Hsafe as (_ & _ & _ & Hb).
  set (px := st_playerX s) in *. set (py := st_playerY s) in *.
  rewrite Hes in *.
  assert (He : in_bounds (e_x e) (e_y e)).
  { rewrite Forall_forall in Hb. apply (Hb (e_pos e)).
    rewrite live_cells_app, live_cells_cons, Ha.
    apply in_or_app. right. now left. }
  unfold plan_moves in Epl.
  pose proof (plan_from_planned _ _ _ _ _ _ _ Epl) as Hlen.
  apply Forall2_length in Hlen.
  destruct (plan_from_at _ _ _ _ _ _ _ _ _ Epl Ha) as (c & Hc & Hbfs).
  cbn [Nat.add] in Hbfs. rewrite others_split in Hbfs.
  destruct (bfs_next_step_result (st_map s) (e_x e) (e_y e) px py
              (live_cells l1 ++ live_cells l2) He) as (r0 & E & Hr0).
  rewrite E in Hbfs. injection Hbfs as <-.
  destruct (resolve_moves_gen _ _ _ _ _ _ _ _ _ _ _ (eq_sym Hlen) Er)
    as (_ & _ & _ & _ & Hidx).
  assert (Hnth : nth_error (l1 ++ e :: l2) (length l1) = Some e)
    by now rewrite nth_error_app2, Nat.sub_diag by lia.
  destruct (Hidx _ _ _ Hnth Hc) as (e' & H1 & _ & _ & _ & H5 & H6).
  exists e'. rewrite Ees. split; [assumption|].
  destruct (cell_eq_dec r0 (px, py)) as [Ec|Ec]; [left; now apply H5|].
  destruct (H6 Ha Ec) as [Hmv Hst].
  destruct (legal_dec (st_map s)
              (live_cells (firstn (length l1) es') ++ []) r0) as [Hl|Hl];
    [|left; now apply Hst].
  rewrite (Hmv Hl).
  destruct Hr0 as [->|(Hm & Hi & Hf & Ho)]; [now left|right].
  split; [assumption|]. split; [now split|]. split; [assumption|].
  destruct Ho as [->|Ho]; [contradiction|].
  rewrite live_cells_app, live_cells_cons, Ha. intros Hin.
  apply in_app_or in Hin as [Hin|[Hin|Hin]].
  - apply Ho, in_or_app. now left.
  - subst r0. unfold manhattan in Hm. cbn [e_pos fst snd] in Hm. lia.
  - apply Ho, in_or_app. now right.
Qed.

(** The example session after the key d, when the player at (7,3) strikes
    the enemy below: three enemies are alive, at (5,4), (7,4) and (8,4), and
    the enemy turn leaves them at (6,4), (7,4) and (8,3). *)
Lemma demo_three_enemies :
  exists s0 s1 s2,
    initial_state 50 EASY demo_rng None = Some s0 /\
    loop_body true s0 None (Some "d"%char) = Some (Continue s1 None) /\
    st_enemies (player_action s1 7 4) =
    [mkEnemy 5 4 3 true; mkEnemy 7 4 1 true] ++ [mkEnemy 8 4 4 true] /\
    enemy_turn (player_action s1 7 4) = Some s2 /\
    List.map e_pos (st_enemies s2) = [(6, 4); (7, 4); (8, 3)].
Proof.
  eexists. eexists. eexists. split; [vm_compute; reflexivity|].
  split; [vm_compute; reflexivity|]. split; [vm_compute; reflexivity|].
  split; [vm_compute; reflexivity|]. reflexivity.
Qed.

(** With three live enemies: the third, at (8,4), has the second on its
    neighbour (7,4) and steps to (8,3), a cell none of the three held. *)
Lemma enemy_never_enters_occupied_witness :
  exists s0 s1 s2 e',
    initial_state 50 EASY demo_rng None = Some s0 /\
    loop_body true s0 None (Some "d"%char) = Some (Continue s1 None) /\
    live_cells (st_enemies (player_action s1 7 4))
    = [(5, 4); (7, 4); (8, 4)] /\
    enemy_turn (player_action s1 7 4) = Some s2 /\
    nth_error (st_enemies s2) 2 = Some e' /\
    e_pos e' = (8, 3) /\
    (e_pos e' = (8, 4) \/
     (manhattan (8, 4) (e_pos e') = 1 /\
      floor_cell (st_map (player_action s1 7 4)) (e_pos e') /\
      e_pos e' <> (st_playerX (player_action s1 7 4),
                   st_playerY (player_action s1 7 4)) /\
      ~ In (e_pos e') [(5, 4); (7, 4); (8, 4)])).
Proof.
  destruct demo_three_enemies as (s0 & s1 & s2 & E0 & E1 & Hes & Hs2 & Hpos).
  pose proof (loop_body_reachable _ _ _ _ _ _ (reach_init _ _ _ _ _ E0) E1)
    as Hr1.
  pose proof (reach_player s1 7 4 Hr1 eq_refl) as Hr.
  destruct (enemy_never_enters_occupied _ s2 _ _ _ Hr Hs2 Hes eq_refl)
    as (e' & H1 & H2).
  rewrite Hes in H2.
  exists s0, s1, s2, e'. split; [exact E0|]. split; [exact E1|].
  split; [rewrite Hes; reflexivity|]. split; [exact Hs2|].
  split; [exact H1|]. split; [|exact H2].
  apply (map_nth_error e_pos) in H1. rewrite Hpos in H1.
  cbn [nth_error] in H1. injection H1 as Hx Hy.
  unfold e_pos. rewrite <- Hx, <- Hy. reflexivity.
Defined.
